(** * Rental sale calculator: the financial core

    A shallow embedding of [src/lib/rentalVerdict.ts] (mortgage payment,
    amortization loop, investment verdict) and [src/lib/sellDecision.ts]
    (the multi-year keep-versus-sell simulation), with the properties the
    specification states about them.

    Numbers.  A JavaScript [number] is modelled as a real number or one of
    the three non-finite values.  Arithmetic on finite values is the
    arithmetic of the real numbers: rounding of IEEE doubles and overflow
    of finite operands are not modelled.  Every input of the two libraries
    goes through [safeNumber] before it is used, except [price] and
    [mortgagePaymentAnnual] of [calculateInvestment], for which the few
    operations on possibly non-finite values are written out. *)

From Stdlib Require Import Reals Lra Lia ZArith List Bool.
From Stdlib Require Ascii String.
Import ListNotations.

#[local] Open Scope R_scope.

(** ** JavaScript numbers and the builtins the code calls *)

Inductive number : Type :=
| Fin (r : R)
| PosInf
| NegInf
| NaN.

(** [Number.isFinite] *)
Definition isFinite (value : number) : bool :=
  match value with
  | Fin _ => true
  | _ => false
  end.

(** [const safeNumber = (value) => (Number.isFinite(value) ? value : 0)] *)
Definition safeNumber (value : number) : R :=
  match value with
  | Fin r => r
  | _ => 0
  end.

(** [Math.round]: the integer nearest to [x], halves rounded up. *)
Definition Math_round (x : R) : Z := Zfloor (x + / 2).

(** [Math.pow] on a positive base and a real exponent. *)
Definition Math_pow (x y : R) : R := Rpower x y.

(** [x > 0] for a raw number: false on NaN. *)
Definition js_gt0 (x : number) : bool :=
  match x with
  | Fin r => if Rgt_dec r 0 then true else false
  | PosInf => true
  | NegInf => false
  | NaN => false
  end.

(** [x / d] for a finite [x] and a divisor [d] on which [d > 0] holds
    (the only divisions by a raw number in the code are under that
    guard): a finite value divided by [Infinity] is 0. *)
Definition js_div_pos (x : R) (d : number) : R :=
  match d with
  | Fin r => x / r
  | _ => 0
  end.

(** [x - y] for a finite [x] and a raw [y]. *)
Definition js_sub (x : R) (y : number) : number :=
  match y with
  | Fin r => Fin (x - r)
  | PosInf => NegInf
  | NegInf => PosInf
  | NaN => NaN
  end.

(** ** rentalVerdict.ts *)

Module RentalVerdict.

Inductive PaymentFrequency : Type :=
| monthly
| semi_monthly
| bi_weekly
| weekly
| accelerated_bi_weekly
| accelerated_weekly.

Record MortgageInputs : Type := mkMortgageInputs {
  mortgageAmount : number;
  interestRate : number;
  amortizationYears : number;
  paymentFrequency : PaymentFrequency;
  termYears : number
}.

Inductive RentSource : Type :=
| web_estimate
| provider_estimate
| manual.

Record RentRange : Type := mkRentRange {
  low : number;
  median : number;
  high : number;
  source : RentSource
}.

Record ExpenseInputs : Type := mkExpenseInputs {
  vacancyPercent : number;
  maintenancePercent : number;
  managementPercent : number;
  reservesPercent : number;
  insuranceAnnual : number;
  utilitiesAnnual : number;
  hoaMonthly : number;
  propertyTaxAnnual : number
}.

Inductive Verdict : Type :=
| Excellent
| Good
| Weak.

Record InvestmentMetrics : Type := mkInvestmentMetrics {
  noiAnnual : R;
  capRate : R;
  cashFlowAnnual : number;
  dscr : R;
  verdict : Verdict
}.

(** The object [calculateMortgage] returns. *)
Record MortgageResult : Type := mkMortgageResult {
  payment : R;
  totalInterestTerm : R;
  balanceAfterTerm : R
}.

Definition paymentsPerYear (frequency : PaymentFrequency) : Z :=
  match frequency with
  | weekly | accelerated_weekly => 52
  | bi_weekly | accelerated_bi_weekly => 26
  | semi_monthly => 24
  | monthly => 12
  end%Z.

Definition periodicRate (annualRate : number) (frequency : PaymentFrequency) : R :=
  let rate := safeNumber annualRate / 100 in
  let perYear := paymentsPerYear frequency in
  if Rle_dec rate 0 then 0
  else
    let compoundPerYear := 2 in
    Math_pow (1 + rate / compoundPerYear) (compoundPerYear / IZR perYear) - 1.

(** The [for] loop of [calculateMortgage]: at most [count] iterations from
    the state [(balance, totalInterest)], left early once the balance is 0.
    The balance is a real number here.  With the annuity payment it is
    exactly 0 after the last period of the amortization; the doubles of
    the code carry the rounding of the payment and of every step, so they
    can hold a residue there and take the exit an iteration later.  A
    balance of exactly 0 at a given period is therefore a fact of the
    real-number schedule (lemmas [amortize_at_n], [plain_loan_account]);
    the theorems about the code state none. *)
Fixpoint amortize (count : nat) (payment rate balance totalInterest : R) : R * R :=
  match count with
  | O => (balance, totalInterest)
  | S count' =>
      let interest := balance * rate in
      let principalPaid := Rmax 0 (payment - interest) in
      let totalInterest' := totalInterest + interest in
      let balance' := Rmax 0 (balance - principalPaid) in
      if Req_dec_T balance' 0 then (balance', totalInterest')
      else amortize count' payment rate balance' totalInterest'
  end.

Definition calculateMortgage (input : MortgageInputs) : MortgageResult :=
  let principal := Rmax 0 (safeNumber (mortgageAmount input)) in
  let perYear := paymentsPerYear (paymentFrequency input) in
  let periods :=
    Z.max 1 (Math_round (safeNumber (amortizationYears input) * IZR perYear)) in
  let rate := periodicRate (interestRate input) (paymentFrequency input) in
  if Req_dec_T principal 0 then mkMortgageResult 0 0 0
  else
    let basePayment :=
      if Req_dec_T rate 0 then principal / IZR periods
      else (principal * rate) / (1 - Math_pow (1 + rate) (- IZR periods)) in
    let payment :=
      match paymentFrequency input with
      | accelerated_bi_weekly => basePayment / 2
      | accelerated_weekly => basePayment / 4
      | _ => basePayment
      end in
    let termPeriods :=
      Z.max 1 (Math_round (safeNumber (termYears input) * IZR perYear)) in
    let '(balance, totalInterest) :=
      amortize (Z.to_nat termPeriods) payment rate principal 0 in
    mkMortgageResult payment totalInterest balance.

(** *** The local constants of [calculateMortgage], by name *)

Definition principalOf (input : MortgageInputs) : R :=
  Rmax 0 (safeNumber (mortgageAmount input)).

Definition periodsOf (input : MortgageInputs) : Z :=
  Z.max 1 (Math_round (safeNumber (amortizationYears input)
                       * IZR (paymentsPerYear (paymentFrequency input)))).

Definition termPeriodsOf (input : MortgageInputs) : Z :=
  Z.max 1 (Math_round (safeNumber (termYears input)
                       * IZR (paymentsPerYear (paymentFrequency input)))).

Definition basePaymentOf (input : MortgageInputs) : R :=
  let principal := principalOf input in
  let periods := periodsOf input in
  let rate := periodicRate (interestRate input) (paymentFrequency input) in
  if Req_dec_T rate 0 then principal / IZR periods
  else (principal * rate) / (1 - Math_pow (1 + rate) (- IZR periods)).

Definition paymentOf (input : MortgageInputs) : R :=
  let basePayment := basePaymentOf input in
  match paymentFrequency input with
  | accelerated_bi_weekly => basePayment / 2
  | accelerated_weekly => basePayment / 4
  | _ => basePayment
  end.

(** The balance the loop of [calculateMortgage] holds after its first [k]
    iterations (the last balance, 0, once the loop has been left). *)
Definition balanceAt (input : MortgageInputs) (k : nat) : R :=
  fst (amortize k (paymentOf input)
         (periodicRate (interestRate input) (paymentFrequency input))
         (principalOf input) 0).

Definition calculateInvestment (price : number) (rentRange : RentRange)
    (expenses : ExpenseInputs) (mortgagePaymentAnnual : number) : InvestmentMetrics :=
  let medianRent := safeNumber (median rentRange) in
  let grossAnnual := medianRent * 12 in
  let vacancyLoss := grossAnnual * (safeNumber (vacancyPercent expenses) / 100) in
  let effectiveIncome := grossAnnual - vacancyLoss in
  let management := effectiveIncome * (safeNumber (managementPercent expenses) / 100) in
  let maintenance := effectiveIncome * (safeNumber (maintenancePercent expenses) / 100) in
  let reserves := effectiveIncome * (safeNumber (reservesPercent expenses) / 100) in
  let hoa := safeNumber (hoaMonthly expenses) * 12 in
  let operatingExpenses :=
    management + maintenance + reserves
    + safeNumber (insuranceAnnual expenses)
    + safeNumber (utilitiesAnnual expenses)
    + safeNumber (propertyTaxAnnual expenses)
    + hoa in
  let noi := effectiveIncome - operatingExpenses in
  let capRate := if js_gt0 price then js_div_pos noi price else 0 in
  let cashFlow := js_sub noi mortgagePaymentAnnual in
  let dscr :=
    if js_gt0 mortgagePaymentAnnual then js_div_pos noi mortgagePaymentAnnual else 0 in
  let verdict :=
    if Rge_dec capRate 0.045 then Excellent
    else if Rge_dec capRate 0.03 then Good
    else Weak in
  mkInvestmentMetrics noi capRate cashFlow dscr verdict.

(** *** Vocabulary of the statements below *)

Definition isAccelerated (frequency : PaymentFrequency) : bool :=
  match frequency with
  | accelerated_bi_weekly | accelerated_weekly => true
  | _ => false
  end.

(** The input with every non-finite numeric field replaced by 0. *)
Definition sanitizeInputs (input : MortgageInputs) : MortgageInputs :=
  mkMortgageInputs
    (Fin (safeNumber (mortgageAmount input)))
    (Fin (safeNumber (interestRate input)))
    (Fin (safeNumber (amortizationYears input)))
    (paymentFrequency input)
    (Fin (safeNumber (termYears input))).

(** A mortgage amount that is not a finite positive number. *)
Definition degenerateAmount (amount : number) : Prop :=
  match amount with
  | Fin r => r <= 0
  | _ => True
  end.

(** The same loan under another payment frequency. *)
Definition withFrequency (input : MortgageInputs) (frequency : PaymentFrequency)
  : MortgageInputs :=
  mkMortgageInputs (mortgageAmount input) (interestRate input)
    (amortizationYears input) frequency (termYears input).

(** The textbook balance of an annuity loan of [n] periods after [k] of
    them: [P (q^n - q^k) / (q^n - 1)] with [q = 1 + r]. *)
Definition closedBalance (P r : R) (n k : nat) : R :=
  P * ((1 + r) ^ n - (1 + r) ^ k) / ((1 + r) ^ n - 1).

(** Scenario A of the specification: 800000 at 5.2 percent, amortized over
    25 years, bi-weekly payments, a term of 5 years. *)
Definition scenarioA : MortgageInputs :=
  mkMortgageInputs (Fin 800000) (Fin 5.2) (Fin 25) bi_weekly (Fin 5).

(** A loan of 1200 at 0 percent over one year. *)
Definition interestFree (frequency : PaymentFrequency) : MortgageInputs :=
  mkMortgageInputs (Fin 1200) (Fin 0) (Fin 1) frequency (Fin 1).

End RentalVerdict.

(** ** sellDecision.ts *)

Module SellDecision.

Record DecisionInputs : Type := mkDecisionInputs {
  currentPropertyValue : number;
  currentPropertyAcb : number;
  currentMortgageBalance : number;
  currentCapRate : number;
  currentGrowthRate : number;
  newCapRate : number;
  newGrowthRate : number;
  marginalTaxRate : number;
  capitalGainsInclusionRate : number;
  realtorFeesPercent : number;
  propertyTransferTaxPercent : number;
  investmentAccountRoi : number;
  loanRate : number;
  loanAmortizationYears : number;
  clientAge : number;
  planningAge : number;
  newLoanToValue : number;
  decisionMarginPercent : number
}.

Record YearlySnapshot : Type := mkYearlySnapshot {
  age : Z;
  propertyValue : R;
  mortgageBalance : R;
  netIncome : R;
  taxPayable : R;
  cashFlow : R;
  investmentAccount : R;
  strategyValue : R;
  capitalGainsTaxDue : R  (* field [capitalGainsTax] *)
}.

(** An element of [DecisionResult["series"]]. *)
Record SeriesPoint : Type := mkSeriesPoint {
  pointAge : Z;           (* field [age] *)
  currentValue : R;
  newValue : R;
  delta : R
}.

Inductive Decision : Type :=
| YES
| NO.

(** The two templates of [decisionReason], with the amount and the age
    they print; the locale formatting of the amount is left out. *)
Inductive DecisionReason : Type :=
| NewExceedsCurrentBy (amount : R) (atAge : Z)
| CurrentRemainsAheadBy (amount : R) (atAge : Z).

Record DecisionResult : Type := mkDecisionResult {
  decision : Decision;
  decisionReason : DecisionReason;
  marginPercent : R;
  resultPlanningAge : Z;  (* field [planningAge] *)
  currentAtPlanning : YearlySnapshot;
  newAtPlanning : YearlySnapshot;
  breakEvenAge : option Z;
  peakDeltaAge : option Z;
  peakDeltaValue : R;
  currentSeries : list YearlySnapshot;
  newSeries : list YearlySnapshot;
  series : list SeriesPoint
}.

Definition calculateMonthlyPayment (loanAmount : number) (annualRate : number)
    (termYears : number) : R :=
  let principal := safeNumber loanAmount in
  if Rle_dec principal 0 then 0
  else
    let months := Z.max 1 (Math_round (safeNumber termYears * 12)) in
    let monthlyRate := safeNumber annualRate / 100 / 12 in
    if Rle_dec monthlyRate 0 then principal / IZR months
    else
      let factor := (1 + monthlyRate) ^ Z.to_nat months in
      (principal * monthlyRate * factor) / (factor - 1).

(** The last parameter, [type: 0 | 1]. *)
Inductive PaymentType : Type :=
| type0
| type1.

Definition typeValue (t : PaymentType) : R :=
  match t with
  | type0 => 0
  | type1 => 1
  end.

Definition futureValue (annualRate : number) (years : nat) (annualPayment : R)
    (presentValue : R) (type : PaymentType) : R :=
  let rate := safeNumber annualRate / 100 in
  match years with
  | O => - presentValue
  | _ =>
      if Req_dec_T rate 0 then - (presentValue + annualPayment * INR years)
      else
        let factor := (1 + rate) ^ years in
        - (presentValue * factor
           + annualPayment * (1 + rate * typeValue type) * ((factor - 1) / rate))
  end.

Record MortgageBalances : Type := mkMortgageBalances {
  balances : list R;
  annualDebtService : R
}.

Definition buildMortgageBalances (startingBalance : number) (annualRate : number)
    (termYears : number) (years : nat) : MortgageBalances :=
  let balance := Rmax 0 (safeNumber startingBalance) in
  let monthlyPayment := calculateMonthlyPayment (Fin balance) annualRate termYears in
  let annualPayment := monthlyPayment * 12 in
  let balances :=
    fold_left
      (fun balances year =>
         let nextBalance := - futureValue annualRate year (- annualPayment) balance type1 in
         balances ++ [Rmax 0 nextBalance])
      (seq 0 years) [] in
  mkMortgageBalances balances annualPayment.

Definition capitalGainsTax (value : number) (acb : number) (inclusionRate : number)
    (taxRate : number) : R :=
  let gain := safeNumber value - safeNumber acb in
  gain * (safeNumber inclusionRate / 100) * (safeNumber taxRate / 100).

(** What the simulation loop of [calculateDecision] reads and writes. *)
Record LoopState : Type := mkLoopState {
  currentSnapshots : list YearlySnapshot;
  newSnapshots : list YearlySnapshot;
  seriesPoints : list SeriesPoint;
  currentInvestment : R;
  newInvestment : R
}.

(** What the scan [series.forEach] reads and writes; [peakDeltaValue] starts at
    [Number.NEGATIVE_INFINITY]. *)
Record ScanState : Type := mkScanState {
  scanBreakEvenAge : option Z;
  scanPeakDeltaValue : number;
  scanPeakDeltaAge : option Z
}.

(** [x > y] for a finite [x] and the running peak [y], which is finite or
    [-Infinity]. *)
Definition gt_peak (x : R) (y : number) : bool :=
  match y with
  | Fin r => if Rgt_dec x r then true else false
  | NegInf => true
  | _ => false
  end.

Definition scanPoint (st : ScanState) (point : SeriesPoint) : ScanState :=
  let breakEven :=
    match scanBreakEvenAge st with
    | None => if Rge_dec (delta point) 0 then Some (pointAge point) else None
    | Some a => Some a
    end in
  if gt_peak (delta point) (scanPeakDeltaValue st)
  then mkScanState breakEven (Fin (delta point)) (Some (pointAge point))
  else mkScanState breakEven (scanPeakDeltaValue st) (scanPeakDeltaAge st).

Definition scanSeries (series : list SeriesPoint) : ScanState :=
  fold_left scanPoint series (mkScanState None NegInf None).

Section Simulation.

Variable input : DecisionInputs.

Definition clientAgeOf : Z := Math_round (safeNumber (clientAge input)).

Definition planningAgeOf : Z :=
  Z.max clientAgeOf (Math_round (safeNumber (planningAge input))).

Definition yearsOf : Z := planningAgeOf - clientAgeOf + 1.

Definition currentBalancesOf : MortgageBalances :=
  buildMortgageBalances (currentMortgageBalance input) (loanRate input)
    (loanAmortizationYears input) (Z.to_nat yearsOf).

Definition initialCapitalGainsTax : R :=
  capitalGainsTax (currentPropertyValue input) (currentPropertyAcb input)
    (capitalGainsInclusionRate input) (marginalTaxRate input).

Definition netSaleProceeds : R :=
  let totalSellCostsPercent :=
    safeNumber (realtorFeesPercent input) + safeNumber (propertyTransferTaxPercent input) in
  let saleCosts := (totalSellCostsPercent / 100) * safeNumber (currentPropertyValue input) in
  Rmax 0 (safeNumber (currentPropertyValue input)
          - safeNumber (currentMortgageBalance input)
          - initialCapitalGainsTax
          - saleCosts).

Definition newPropertyValueStart : R :=
  let newLoanToValue := safeNumber (newLoanToValue input) / 100 in
  if Rge_dec newLoanToValue 1 then 0 else netSaleProceeds / (1 - newLoanToValue).

Definition newMortgageStart : R :=
  let newLoanToValue := safeNumber (newLoanToValue input) / 100 in
  Rmax 0 (newPropertyValueStart * newLoanToValue).

Definition newBalancesOf : MortgageBalances :=
  buildMortgageBalances (Fin newMortgageStart) (loanRate input)
    (loanAmortizationYears input) (Z.to_nat yearsOf).

Definition investmentGrowth : R :=
  let afterTaxRoi :=
    (safeNumber (investmentAccountRoi input) / 100)
    * (1 - safeNumber (marginalTaxRate input) / 100) in
  1 + afterTaxRoi.

(** One iteration of the simulation loop, for the year [index]. *)
Definition simulateYear (st : LoopState) (index : nat) : LoopState :=
  let age := (clientAgeOf + Z.of_nat index)%Z in
  let currentValue :=
    safeNumber (currentPropertyValue input)
    * (1 + safeNumber (currentGrowthRate input) / 100) ^ index in
  let currentMortgage := nth index (balances currentBalancesOf) 0 in
  let currentNetIncome := (safeNumber (currentCapRate input) / 100) * currentValue in
  let currentInterestExpense := currentMortgage * (safeNumber (loanRate input) / 100) in
  let currentTax :=
    (currentNetIncome - currentInterestExpense)
    * (safeNumber (marginalTaxRate input) / 100) in
  let currentCashFlow :=
    currentNetIncome - currentTax - annualDebtService currentBalancesOf in
  let currentInvestment' := currentInvestment st * investmentGrowth + currentCashFlow in
  let currentCapitalGainsTax :=
    capitalGainsTax (Fin currentValue) (currentPropertyAcb input)
      (capitalGainsInclusionRate input) (marginalTaxRate input) in
  let currentStrategyValue :=
    currentValue - currentMortgage - currentCapitalGainsTax + currentInvestment' in
  let newValue :=
    newPropertyValueStart * (1 + safeNumber (newGrowthRate input) / 100) ^ index in
  let newMortgage := nth index (balances newBalancesOf) 0 in
  let newNetIncome := (safeNumber (newCapRate input) / 100) * newValue in
  let newInterestExpense := newMortgage * (safeNumber (loanRate input) / 100) in
  let newTax :=
    (newNetIncome - newInterestExpense) * (safeNumber (marginalTaxRate input) / 100) in
  let newCashFlow := newNetIncome - newTax - annualDebtService newBalancesOf in
  let newInvestment' := newInvestment st * investmentGrowth + newCashFlow in
  let newStrategyValue := newValue - newMortgage + newInvestment' in
  mkLoopState
    (currentSnapshots st ++
       [mkYearlySnapshot age currentValue currentMortgage currentNetIncome currentTax
          currentCashFlow currentInvestment' currentStrategyValue currentCapitalGainsTax])
    (newSnapshots st ++
       [mkYearlySnapshot age newValue newMortgage newNetIncome newTax
          newCashFlow newInvestment' newStrategyValue 0])
    (seriesPoints st ++
       [mkSeriesPoint age currentStrategyValue newStrategyValue
          (newStrategyValue - currentStrategyValue)])
    currentInvestment' newInvestment'.

Definition simulate (years : nat) : LoopState :=
  fold_left simulateYear (seq 0 years) (mkLoopState [] [] [] 0 0).

(** [calculateDecision]; [None] stands for the [TypeError] that reading
    [strategyValue] of a missing planning snapshot would throw. *)
Definition calculateDecision : option DecisionResult :=
  let st := simulate (Z.to_nat yearsOf) in
  let planningIndex := Z.to_nat (yearsOf - 1) in
  match nth_error (currentSnapshots st) planningIndex,
        nth_error (newSnapshots st) planningIndex with
  | Some currentAtPlanning, Some newAtPlanning =>
      let marginPercent := safeNumber (decisionMarginPercent input) in
      let threshold := strategyValue currentAtPlanning * (1 + marginPercent / 100) in
      let decision :=
        if Rge_dec (strategyValue newAtPlanning) threshold then YES else NO in
      let deltaAtPlanning :=
        strategyValue newAtPlanning - strategyValue currentAtPlanning in
      let scan := scanSeries (seriesPoints st) in
      let decisionReason :=
        match decision with
        | YES => NewExceedsCurrentBy deltaAtPlanning planningAgeOf
        | NO => CurrentRemainsAheadBy (Rabs deltaAtPlanning) planningAgeOf
        end in
      Some (mkDecisionResult decision decisionReason marginPercent planningAgeOf
              currentAtPlanning newAtPlanning
              (scanBreakEvenAge scan) (scanPeakDeltaAge scan)
              (safeNumber (scanPeakDeltaValue scan))
              (currentSnapshots st) (newSnapshots st) (seriesPoints st))
  | _, _ => None
  end.

End Simulation.

(** Written from the specification, for comparison with
    [buildMortgageBalances]: the balance after [k] periods of the
    period-by-period amortization trace (interest = balance x r, principal
    paid = max(0, payment - interest), balance = max(0, balance - principal
    paid)), which is the loop of [RentalVerdict.calculateMortgage]. *)
Definition spec_traceBalance (startingBalance payment r : R) (k : nat) : R :=
  fst (RentalVerdict.amortize k payment r startingBalance 0).

(** The monthly convention of the specification: the trace of the starting
    balance at rate [loanRate/100/12] under the monthly annuity payment,
    read after [12 * t] periods. *)
Definition spec_monthlyConventionBalance (input : DecisionInputs) (t : nat) : R :=
  let balance := Rmax 0 (safeNumber (currentMortgageBalance input)) in
  spec_traceBalance balance
    (calculateMonthlyPayment (Fin balance) (loanRate input) (loanAmortizationYears input))
    (safeNumber (loanRate input) / 100 / 12)
    (12 * t).

(** *** Vocabulary of the statements below *)

(** The ages of the simulated years: the client age and the years after
    it, [count] of them. *)
Definition agesFrom (first : Z) (count : nat) : list Z :=
  map (fun index => (first + Z.of_nat index)%Z) (seq 0 count).

(** What [buildMortgageBalances] stores for the year [t]: the balance [B]
    compounded once a year at the annual rate, less the annual payment
    [A] paid at the start of each year and compounded likewise, floored
    at 0. *)
Definition annualConventionBalance (B A rate : R) (t : nat) : R :=
  Rmax 0
    (match t with
     | O => B
     | _ =>
         if Req_dec_T rate 0 then B - A * INR t
         else B * (1 + rate) ^ t - A * (1 + rate) * (((1 + rate) ^ t - 1) / rate)
     end).

(** The keep snapshot of the year [i], field by field (the investment
    account apart, which depends on the year before). *)
Definition keepYear (input : DecisionInputs) (i : nat) (c : YearlySnapshot) : Prop :=
  age c = (clientAgeOf input + Z.of_nat i)%Z
  /\ propertyValue c
     = safeNumber (currentPropertyValue input)
       * (1 + safeNumber (currentGrowthRate input) / 100) ^ i
  /\ mortgageBalance c = nth i (balances (currentBalancesOf input)) 0
  /\ netIncome c = safeNumber (currentCapRate input) / 100 * propertyValue c
  /\ taxPayable c
     = (netIncome c - mortgageBalance c * (safeNumber (loanRate input) / 100))
       * (safeNumber (marginalTaxRate input) / 100)
  /\ cashFlow c
     = netIncome c - taxPayable c - annualDebtService (currentBalancesOf input)
  /\ capitalGainsTaxDue c
     = capitalGainsTax (Fin (propertyValue c)) (currentPropertyAcb input)
         (capitalGainsInclusionRate input) (marginalTaxRate input)
  /\ strategyValue c
     = propertyValue c - mortgageBalance c - capitalGainsTaxDue c
       + investmentAccount c.

(** The sell snapshot of the year [i]. *)
Definition sellYear (input : DecisionInputs) (i : nat) (w : YearlySnapshot) : Prop :=
  age w = (clientAgeOf input + Z.of_nat i)%Z
  /\ propertyValue w
     = newPropertyValueStart input
       * (1 + safeNumber (newGrowthRate input) / 100) ^ i
  /\ mortgageBalance w = nth i (balances (newBalancesOf input)) 0
  /\ netIncome w = safeNumber (newCapRate input) / 100 * propertyValue w
  /\ taxPayable w
     = (netIncome w - mortgageBalance w * (safeNumber (loanRate input) / 100))
       * (safeNumber (marginalTaxRate input) / 100)
  /\ cashFlow w
     = netIncome w - taxPayable w - annualDebtService (newBalancesOf input)
  /\ capitalGainsTaxDue w = 0
  /\ strategyValue w = propertyValue w - mortgageBalance w + investmentAccount w.

(** The point of the series made of a keep and a sell snapshot. *)
Definition pointOf (c w : YearlySnapshot) (p : SeriesPoint) : Prop :=
  pointAge p = age c
  /\ currentValue p = strategyValue c
  /\ newValue p = strategyValue w
  /\ delta p = newValue p - currentValue p.

(** The investment account the year [i] starts from: that of the
    snapshot of the year before, 0 for the first year. *)
Definition investmentBefore (snapshots : list YearlySnapshot) (i : nat) : R :=
  match i with
  | O => 0
  | S j =>
      match nth_error snapshots j with
      | Some s => investmentAccount s
      | None => 0
      end
  end.

(** What the simulation loop has pushed for the year [i]. *)
Definition yearPushed (input : DecisionInputs) (i : nat)
    (c w : YearlySnapshot) (p : SeriesPoint) : Prop :=
  keepYear input i c /\ sellYear input i w /\ pointOf c w p.

(** The point [p], at index [i] of the series, is the first whose delta
    is not negative. *)
Definition firstCrossing (l : list SeriesPoint) (i : nat) (p : SeriesPoint) : Prop :=
  nth_error l i = Some p
  /\ delta p >= 0
  /\ forall j q, (j < i)%nat -> nth_error l j = Some q -> delta q < 0.

(** The point [p], at index [i] of the series, is the first to carry the
    greatest delta of the series. *)
Definition firstPeak (l : list SeriesPoint) (i : nat) (p : SeriesPoint) : Prop :=
  nth_error l i = Some p
  /\ (forall q, In q l -> delta q <= delta p)
  /\ forall j q, (j < i)%nat -> nth_error l j = Some q -> delta q < delta p.

(** Scenario B of the specification. *)
Definition scenarioB : DecisionInputs :=
  mkDecisionInputs
    (Fin 10000000) (Fin 2000000) (Fin 1000000)
    (Fin 2) (Fin 4) (Fin 2) (Fin 4)
    (Fin 50) (Fin 66.6667) (Fin 2) (Fin 2.8)
    (Fin 5) (Fin 5) (Fin 25)
    (Fin 70) (Fin 90) (Fin 10) (Fin 2).

(** Scenario C of the specification: Scenario B with the planning age at
    the client age. *)
Definition scenarioC : DecisionInputs :=
  mkDecisionInputs
    (Fin 10000000) (Fin 2000000) (Fin 1000000)
    (Fin 2) (Fin 4) (Fin 2) (Fin 4)
    (Fin 50) (Fin 66.6667) (Fin 2) (Fin 2.8)
    (Fin 5) (Fin 5) (Fin 25)
    (Fin 70) (Fin 70) (Fin 10) (Fin 2).

End SellDecision.

(** ** The property comparison calculations

    The second library of [src/lib/sellDecision.ts] as delivered (its
    lines 281 to 482): the metrics of the current and of the candidate
    property and their comparison. *)

Module Calculations.

Record ExpenseInputs : Type := mkExpenseInputs {
  taxes : number;
  insurance : number;
  maintenanceMonthly : number;
  maintenancePercent : number;
  managementPercent : number;
  utilities : number;
  hoa : number;
  reserves : number
}.

Record CurrentPropertyInputs : Type := mkCurrentPropertyInputs {
  currentRent : number;               (* field [rent] *)
  currentOtherIncome : number;        (* field [otherIncome] *)
  currentVacancyPercent : number;     (* field [vacancyPercent] *)
  currentExpenses : ExpenseInputs;    (* field [expenses] *)
  loanBalance : number;
  currentInterestRate : number;       (* field [interestRate] *)
  monthlyPayment : number;
  salePrice : number;
  sellingCostPercent : number
}.

Record NewPropertyInputs : Type := mkNewPropertyInputs {
  purchasePrice : number;
  closingCosts : number;
  closingCostsPercent : number;
  rehab : number;
  downPaymentPercent : number;
  interestRate : number;
  loanTermYears : number;
  rent : number;
  otherIncome : number;
  vacancyPercent : number;
  expenses : ExpenseInputs
}.

Record PropertyMetrics : Type := mkPropertyMetrics {
  grossMonthlyIncome : R;
  vacancyLossMonthly : R;
  effectiveMonthlyIncome : R;
  operatingExpensesMonthly : R;
  noiMonthly : R;
  noiAnnual : R;
  debtServiceMonthly : R;
  cashFlowMonthly : R;
  cashFlowAnnual : R;
  capRate : R;
  cashInvested : R;
  cashOnCash : R
}.

Record ComparisonMetrics : Type := mkComparisonMetrics {
  current : PropertyMetrics;
  next : PropertyMetrics;
  saleNetProceeds : R;
  newLoanAmount : R;
  newMonthlyPayment : R
}.

Definition maintenanceExpense (rent : R) (expenses : ExpenseInputs) : R :=
  let percentCost := (safeNumber (maintenancePercent expenses) / 100) * rent in
  safeNumber (maintenanceMonthly expenses) + safeNumber (Fin percentCost).

Definition managementExpense (grossIncome : R) (managementPercent : number) : R :=
  (safeNumber managementPercent / 100) * grossIncome.

Definition calculateDebtService (loanAmount : number) (annualRate : number)
    (termYears : number) : R :=
  let principal := safeNumber loanAmount in
  if Rle_dec principal 0 then 0
  else
    let months := Z.max 1 (Math_round (safeNumber termYears * 12)) in
    let monthlyRate := safeNumber annualRate / 100 / 12 in
    if Rle_dec monthlyRate 0 then principal / IZR months
    else
      let factor := (1 + monthlyRate) ^ Z.to_nat months in
      (principal * monthlyRate * factor) / (factor - 1).

Definition calculateCurrentMetrics (input : CurrentPropertyInputs) : PropertyMetrics :=
  let rent := safeNumber (currentRent input) in
  let otherIncome := safeNumber (currentOtherIncome input) in
  let grossIncome := rent + otherIncome in
  let vacancyLoss := (safeNumber (currentVacancyPercent input) / 100) * grossIncome in
  let effectiveIncome := grossIncome - vacancyLoss in
  let expenses := currentExpenses input in
  let operatingExpenses :=
    safeNumber (taxes expenses)
    + safeNumber (insurance expenses)
    + maintenanceExpense rent expenses
    + managementExpense grossIncome (managementPercent expenses)
    + safeNumber (utilities expenses)
    + safeNumber (hoa expenses)
    + safeNumber (reserves expenses) in
  let noiMonthly := effectiveIncome - operatingExpenses in
  let noiAnnual := noiMonthly * 12 in
  let debtService := safeNumber (monthlyPayment input) in
  let cashFlowMonthly := noiMonthly - debtService in
  let cashFlowAnnual := cashFlowMonthly * 12 in
  let value := safeNumber (salePrice input) in
  let capRate := if Rgt_dec value 0 then noiAnnual / value else 0 in
  let sellingCosts :=
    (safeNumber (sellingCostPercent input) / 100) * safeNumber (salePrice input) in
  let cashInvested :=
    Rmax 0 (safeNumber (salePrice input) - sellingCosts - safeNumber (loanBalance input)) in
  let cashOnCash := if Rgt_dec cashInvested 0 then cashFlowAnnual / cashInvested else 0 in
  mkPropertyMetrics grossIncome vacancyLoss effectiveIncome operatingExpenses
    noiMonthly noiAnnual debtService cashFlowMonthly cashFlowAnnual
    capRate cashInvested cashOnCash.

Definition calculateNewMetrics (input : NewPropertyInputs) : PropertyMetrics :=
  let rent := safeNumber (rent input) in
  let otherIncome := safeNumber (otherIncome input) in
  let grossIncome := rent + otherIncome in
  let vacancyLoss := (safeNumber (vacancyPercent input) / 100) * grossIncome in
  let effectiveIncome := grossIncome - vacancyLoss in
  let expenses := expenses input in
  let operatingExpenses :=
    safeNumber (taxes expenses)
    + safeNumber (insurance expenses)
    + maintenanceExpense rent expenses
    + managementExpense grossIncome (managementPercent expenses)
    + safeNumber (utilities expenses)
    + safeNumber (hoa expenses)
    + safeNumber (reserves expenses) in
  let noiMonthly := effectiveIncome - operatingExpenses in
  let noiAnnual := noiMonthly * 12 in
  let downPayment :=
    (safeNumber (downPaymentPercent input) / 100) * safeNumber (purchasePrice input) in
  let loanAmount := Rmax 0 (safeNumber (purchasePrice input) - downPayment) in
  let debtService :=
    calculateDebtService (Fin loanAmount) (interestRate input) (loanTermYears input) in
  let cashFlowMonthly := noiMonthly - debtService in
  let cashFlowAnnual := cashFlowMonthly * 12 in
  let value := safeNumber (purchasePrice input) in
  let capRate := if Rgt_dec value 0 then noiAnnual / value else 0 in
  let closingCosts :=
    if Rgt_dec (safeNumber (closingCosts input)) 0
    then safeNumber (closingCosts input)
    else (safeNumber (closingCostsPercent input) / 100) * safeNumber (purchasePrice input) in
  let cashInvested := Rmax 0 (downPayment + closingCosts + safeNumber (rehab input)) in
  let cashOnCash := if Rgt_dec cashInvested 0 then cashFlowAnnual / cashInvested else 0 in
  mkPropertyMetrics grossIncome vacancyLoss effectiveIncome operatingExpenses
    noiMonthly noiAnnual debtService cashFlowMonthly cashFlowAnnual
    capRate cashInvested cashOnCash.

Definition calculateComparison (currentInput : CurrentPropertyInputs)
    (newInput : NewPropertyInputs) : ComparisonMetrics :=
  let current := calculateCurrentMetrics currentInput in
  let next := calculateNewMetrics newInput in
  let sellingCosts :=
    (safeNumber (sellingCostPercent currentInput) / 100)
    * safeNumber (salePrice currentInput) in
  let saleNetProceeds :=
    Rmax 0 (safeNumber (salePrice currentInput) - sellingCosts
            - safeNumber (loanBalance currentInput)) in
  let downPayment :=
    (safeNumber (downPaymentPercent newInput) / 100)
    * safeNumber (purchasePrice newInput) in
  let newLoanAmount := Rmax 0 (safeNumber (purchasePrice newInput) - downPayment) in
  let newMonthlyPayment :=
    calculateDebtService (Fin newLoanAmount) (interestRate newInput)
      (loanTermYears newInput) in
  mkComparisonMetrics current next saleNetProceeds newLoanAmount newMonthlyPayment.

(** *** Vocabulary of the statements below *)

(** The candidate property that carries the income and the expenses of a
    current property. *)
Definition sameIncome (c : CurrentPropertyInputs) (n : NewPropertyInputs) : Prop :=
  rent n = currentRent c
  /\ otherIncome n = currentOtherIncome c
  /\ vacancyPercent n = currentVacancyPercent c
  /\ expenses n = currentExpenses c.

(** The defaults of the comparison wizard with a rent of 2500, a sale at
    500000 against a loan of 200000, and a purchase at 600000. *)
Definition sampleExpenses : ExpenseInputs :=
  mkExpenseInputs (Fin 250) (Fin 100) (Fin 50) (Fin 5) (Fin 8) (Fin 0) (Fin 0) (Fin 100).

Definition sampleCurrent : CurrentPropertyInputs :=
  mkCurrentPropertyInputs (Fin 2500) (Fin 0) (Fin 5) sampleExpenses
    (Fin 200000) (Fin 6.5) (Fin 1300) (Fin 500000) (Fin 7).

Definition sampleNext : NewPropertyInputs :=
  mkNewPropertyInputs (Fin 600000) (Fin 0) (Fin 2.5) (Fin 0) (Fin 25)
    (Fin 6.75) (Fin 30) (Fin 2500) (Fin 0) (Fin 5) sampleExpenses.

End Calculations.

(** ** The rental verdict page

    [estimateRentRange] of the page that calls [calculateMortgage] and
    [calculateInvestment] (src/unnamed/part_003). *)

(** [x * c] for a raw [x] and a finite constant [c]. *)
Definition js_mul (x : number) (c : R) : number :=
  match x with
  | Fin r => Fin (r * c)
  | PosInf =>
      if Rgt_dec c 0 then PosInf else if Rlt_dec c 0 then NegInf else NaN
  | NegInf =>
      if Rgt_dec c 0 then NegInf else if Rlt_dec c 0 then PosInf else NaN
  | NaN => NaN
  end.

Module RentalVerdictPage.
Import RentalVerdict.

Definition estimateRentRange (price : number) : RentRange :=
  let base := if js_gt0 price then js_mul price 0.003 else Fin 0 in
  mkRentRange (js_mul base 0.88) base (js_mul base 1.12) web_estimate.

(** *** Vocabulary of the statements below *)

(** Weak, Good, Excellent in rising order. *)
Definition verdictRank (v : Verdict) : nat :=
  match v with
  | Weak => 0
  | Good => 1
  | Excellent => 2
  end.

(** Expenses as a user enters them: percentages between 0 and 100 that
    together leave some income, amounts that are not negative. *)
Definition plausibleExpenses (e : ExpenseInputs) : Prop :=
  0 <= safeNumber (vacancyPercent e) <= 100
  /\ 0 <= safeNumber (managementPercent e)
  /\ 0 <= safeNumber (maintenancePercent e)
  /\ 0 <= safeNumber (reservesPercent e)
  /\ safeNumber (managementPercent e) + safeNumber (maintenancePercent e)
     + safeNumber (reservesPercent e) <= 100
  /\ 0 <= safeNumber (insuranceAnnual e)
  /\ 0 <= safeNumber (utilitiesAnnual e)
  /\ 0 <= safeNumber (hoaMonthly e)
  /\ 0 <= safeNumber (propertyTaxAnnual e).

(** A raw number after [safeNumber], as a number again. *)
Definition sanitizeNumber (x : number) : number := Fin (safeNumber x).

Definition sanitizeRentRange (r : RentRange) : RentRange :=
  mkRentRange (sanitizeNumber (low r)) (sanitizeNumber (median r))
    (sanitizeNumber (high r)) (source r).

Definition sanitizeExpenses (e : ExpenseInputs) : ExpenseInputs :=
  mkExpenseInputs
    (sanitizeNumber (vacancyPercent e)) (sanitizeNumber (maintenancePercent e))
    (sanitizeNumber (managementPercent e)) (sanitizeNumber (reservesPercent e))
    (sanitizeNumber (insuranceAnnual e)) (sanitizeNumber (utilitiesAnnual e))
    (sanitizeNumber (hoaMonthly e)) (sanitizeNumber (propertyTaxAnnual e)).

(** The default expenses of the page. *)
Definition defaultExpenses : ExpenseInputs :=
  mkExpenseInputs (Fin 4) (Fin 5) (Fin 8) (Fin 3) (Fin 1200) (Fin 1200) (Fin 350) (Fin 0).

End RentalVerdictPage.

(** ** The decision wizard and its chart

    [getSnapshotAtAge] of the wizard that calls [calculateDecision], and
    the chart it feeds with [decision.series] (src/unnamed/part_002). *)

(** [x + y] and [x - y] on raw numbers (an infinity less itself is NaN). *)
Definition js_plus (x y : number) : number :=
  match x, y with
  | Fin a, Fin b => Fin (a + b)
  | NaN, _ | _, NaN => NaN
  | PosInf, NegInf | NegInf, PosInf => NaN
  | PosInf, _ | _, PosInf => PosInf
  | NegInf, _ | _, NegInf => NegInf
  end.

Definition js_opp (x : number) : number :=
  match x with
  | Fin a => Fin (- a)
  | PosInf => NegInf
  | NegInf => PosInf
  | NaN => NaN
  end.

Definition js_minus (x y : number) : number := js_plus x (js_opp y).

(** [Math.min(acc, a, b)] and [Math.max(acc, a, b)] for finite [a], [b]. *)
Definition js_min3 (acc : number) (a b : R) : number :=
  match acc with
  | Fin m => Fin (Rmin m (Rmin a b))
  | PosInf => Fin (Rmin a b)
  | NegInf => NegInf
  | NaN => NaN
  end.

Definition js_max3 (acc : number) (a b : R) : number :=
  match acc with
  | Fin m => Fin (Rmax m (Rmax a b))
  | NegInf => Fin (Rmax a b)
  | PosInf => PosInf
  | NaN => NaN
  end.

(** [x || d] for a number [x]: 0 and NaN are falsy. *)
Definition js_or (x : number) (d : number) : number :=
  match x with
  | Fin r => if Req_dec_T r 0 then d else x
  | NaN => d
  | _ => x
  end.

Module DecisionWizard.
Import SellDecision.

(** [Math.round(inputs.clientAge + ageOffset)]: an age, or NaN or an
    infinity, which no age of a series equals. *)
Definition roundedAge (clientAge : number) (ageOffset : R) : option Z :=
  match clientAge with
  | Fin c => Some (Math_round (c + ageOffset))
  | _ => None
  end.

(** [item.age === age] *)
Definition ageIs (age : option Z) (item : YearlySnapshot) : bool :=
  match age with
  | Some a => Z.eqb (SellDecision.age item) a
  | None => false
  end.

Record SnapshotAtAge : Type := mkSnapshotAtAge {
  atAge : option Z;                       (* field [age] *)
  atCurrent : option YearlySnapshot;      (* field [current] *)
  atNext : option YearlySnapshot          (* field [next] *)
}.

Definition getSnapshotAtAge (inputs : DecisionInputs) (decision : DecisionResult)
    (ageOffset : R) : SnapshotAtAge :=
  let age := roundedAge (clientAge inputs) ageOffset in
  let current := find (ageIs age) (currentSeries decision) in
  let next := find (ageIs age) (newSeries decision) in
  mkSnapshotAtAge age current next.

(** *** Vocabulary of the statements below *)

(** A property bought at its cost base and free of debt, against a
    replacement that yields five times as much: one simulated year, no
    taxes, fees, growth or loans. *)
Definition tradeUp : DecisionInputs :=
  mkDecisionInputs
    (Fin 1000000) (Fin 1000000) (Fin 0)
    (Fin 2) (Fin 0) (Fin 10) (Fin 0)
    (Fin 0) (Fin 50) (Fin 0) (Fin 0)
    (Fin 0) (Fin 0) (Fin 25)
    (Fin 70) (Fin 70) (Fin 0) (Fin 0).

End DecisionWizard.

Module ComparisonChart.
Import SellDecision.

Definition buildTicks (min max : R) (count : nat) : list R :=
  if (count <=? 1)%nat then [min; max]
  else
    let step := (max - min) / (INR count - 1) in
    map (fun index => min + step * INR index) (seq 0 count).

(** What the chart computes from its data. *)
Record ChartBounds : Type := mkChartBounds {
  points : list SeriesPoint;
  minY : number;
  maxY : number;
  minX : Z;
  maxX : Z
}.

(** What [data.forEach] reads and writes. *)
Record BoundsState : Type := mkBoundsState {
  minValue : number;
  maxValue : number;
  minAge : Z;
  maxAge : Z
}.

Definition boundsStep (st : BoundsState) (point : SeriesPoint) : BoundsState :=
  mkBoundsState
    (js_min3 (minValue st) (currentValue point) (newValue point))
    (js_max3 (maxValue st) (currentValue point) (newValue point))
    (Z.min (minAge st) (pointAge point))
    (Z.max (maxAge st) (pointAge point)).

Definition chartBounds (data : list SeriesPoint) : ChartBounds :=
  match data with
  | [] => mkChartBounds [] (Fin 0) (Fin 1) 0 1
  | first :: _ =>
      let st :=
        fold_left boundsStep data
          (mkBoundsState PosInf NegInf (pointAge first) (pointAge (last data first))) in
      let padding := js_or (js_mul (js_minus (maxValue st) (minValue st)) 0.08) (Fin 1) in
      mkChartBounds data
        (js_minus (minValue st) padding)
        (js_plus (maxValue st) padding)
        (minAge st) (maxAge st)
  end.

(** The plot area: [width], [height], [padding], [innerWidth],
    [innerHeight]. *)
Definition width : R := 680.
Definition height : R := 360.
Definition paddingTop : R := 24.
Definition paddingRight : R := 24.
Definition paddingBottom : R := 40.
Definition paddingLeft : R := 64.
Definition innerWidth : R := width - paddingLeft - paddingRight.
Definition innerHeight : R := height - paddingTop - paddingBottom.

(** [scaleX] and [scaleY] on the bounds they close over, which are
    finite. *)
Definition scaleX (minX maxX : Z) (age : R) : R :=
  let span := if Z.eqb (maxX - minX) 0 then 1%Z else (maxX - minX)%Z in
  paddingLeft + ((age - IZR minX) / IZR span) * innerWidth.

Definition scaleY (minY maxY : R) (value : R) : R :=
  let span := if Req_dec_T (maxY - minY) 0 then 1 else maxY - minY in
  paddingTop + (1 - (value - minY) / span) * innerHeight.

End ComparisonChart.

(** ** The listing extraction route

    [parseNumber] and the request handler [POST] of
    [src/app/api/listing-extract/route.ts].  The HTML scraper
    [parseRemaxHtml] is a parameter of the handler. *)

Module ListingExtractRoute.

Import Ascii String.

(** A JavaScript string is read as its list of characters; only the
    ASCII digits and the dot matter to [parseNumber], every other
    character (of any encoding) being removed alike. *)
Definition isDigit (c : ascii) : bool :=
  let n := nat_of_ascii c in (48 <=? n)%nat && (n <=? 57)%nat.

Definition isDot (c : ascii) : bool := Ascii.eqb c "."%char.

(** [value.replace(/[^0-9.]/g, "")] *)
Definition normalize (value : list ascii) : list ascii :=
  filter (fun c => isDigit c || isDot c) value.

Definition digitValue (c : ascii) : R := INR (nat_of_ascii c - 48).

(** The leading digits of a list of characters, and what follows them. *)
Fixpoint spanDigits (l : list ascii) : list ascii * list ascii :=
  match l with
  | c :: rest =>
      if isDigit c then let '(ds, tail) := spanDigits rest in (c :: ds, tail)
      else ([], l)
  | [] => ([], [])
  end.

(** The number a run of digits denotes, and the fraction it denotes after
    a dot. *)
Definition integerValue (ds : list ascii) : R :=
  fold_left (fun acc c => acc * 10 + digitValue c) ds 0.

Definition fractionValue (ds : list ascii) : R :=
  fold_right (fun c acc => (digitValue c + acc) / 10) 0 ds.

(** The least real that the conversion to a double rounds to [Infinity]:
    [2^1024 - 2^970]. *)
Definition overflowThreshold : R := IZR (2 ^ 1024 - 2 ^ 970).

(** [Number.parseFloat] on a string of digits and dots: the longest
    prefix that is a decimal literal (digits, then optionally a dot and
    digits, with a digit somewhere), or NaN.  The rounding of a finite
    result to a double is not modelled; the overflow to [Infinity] is. *)
Definition parseFloatNormalized (l : list ascii) : number :=
  let '(whole, tail) := spanDigits l in
  let fraction :=
    match tail with
    | c :: rest => if isDot c then fst (spanDigits rest) else []
    | [] => []
    end in
  match whole, fraction with
  | [], [] => NaN
  | _, _ =>
      let v := integerValue whole + fractionValue fraction in
      if Rle_dec overflowThreshold v then PosInf else Fin v
  end.

(** [parseNumber]; [None] is [null]. *)
Definition parseNumber (value : option (list ascii)) : R :=
  match value with
  | None | Some [] => 0
  | Some v =>
      let normalized := normalize v in
      let parsed := parseFloatNormalized normalized in
      if isFinite parsed then safeNumber parsed else 0
  end.

Inductive ConfidenceLevel : Type :=
| high
| medium
| low.

(** What [parseRemaxHtml] returns. *)
Record ParsedListing : Type := mkParsedListing {
  parsedAddress : list ascii;
  parsedCity : list ascii;
  parsedBedrooms : number;
  parsedBathrooms : number;
  parsedSqft : number;
  parsedPrice : number;
  parsedHoa : number;
  parsedPropertyTaxAnnual : number
}.

Record Confidence : Type := mkConfidence {
  confAddress : ConfidenceLevel;
  confBedrooms : ConfidenceLevel;
  confBathrooms : ConfidenceLevel;
  confSqft : ConfidenceLevel;
  confPrice : ConfidenceLevel;
  confHoa : ConfidenceLevel;
  confRentRange : ConfidenceLevel
}.

(** The [data] of a successful answer. *)
Record ListingData : Type := mkListingData {
  dataAddress : list ascii;
  dataCity : list ascii;
  dataBedrooms : number;
  dataBathrooms : number;
  dataSqft : number;
  dataPrice : number;
  dataHoa : number;
  dataRentRange : RentalVerdict.RentRange;
  dataConfidence : Confidence;
  dataPropertyTaxAnnual : number
}.

Inductive ErrorMessage : Type :=
| MissingUrlOrHtml          (* "Missing url or html" *)
| ProviderNotConfigured     (* "Provider connection not configured for URL fetch." *)
| UnsupportedRequest.       (* "Unsupported request." *)

(** [NextResponse.json(...)]: the data with status 200, or an error with
    status 400. *)
Inductive Response : Type :=
| Ok (data : ListingData)
| BadRequest (error : ErrorMessage).

Definition status (r : Response) : Z :=
  match r with
  | Ok _ => 200
  | BadRequest _ => 400
  end.

(** Truthiness of a string (not empty) and of a number (neither 0 nor
    NaN). *)
Definition truthyString (value : list ascii) : bool :=
  match value with
  | [] => false
  | _ => true
  end.

Definition truthyNumber (x : number) : bool :=
  match x with
  | Fin r => if Req_dec_T r 0 then false else true
  | NaN => false
  | _ => true
  end.

Record RequestBody : Type := mkRequestBody {
  bodyUrl : option (list ascii);
  bodyHtml : option (list ascii)
}.

Section Handler.

(** [String.prototype.trim] and the scraper. *)
Variable trim : list ascii -> list ascii.
Variable parseRemaxHtml : list ascii -> ParsedListing.

Definition vancouver : list ascii :=
  String.list_ascii_of_string "Vancouver"%string.

Definition POST (body : RequestBody) : Response :=
  let url := option_map trim (bodyUrl body) in
  let html := option_map trim (bodyHtml body) in
  let present := fun (v : option (list ascii)) =>
    match v with
    | Some t => truthyString t
    | None => false
    end in
  if negb (present url) && negb (present html) then BadRequest MissingUrlOrHtml
  else
    match html with
    | Some (c :: t) =>
        let parsed := parseRemaxHtml (c :: t) in
        Ok (mkListingData
              (parsedAddress parsed)
              (if truthyString (parsedCity parsed) then parsedCity parsed else vancouver)
              (js_or (parsedBedrooms parsed) (Fin 0))
              (js_or (parsedBathrooms parsed) (Fin 0))
              (js_or (parsedSqft parsed) (Fin 0))
              (js_or (parsedPrice parsed) (Fin 0))
              (js_or (parsedHoa parsed) (Fin 0))
              (RentalVerdict.mkRentRange (Fin 0) (Fin 0) (Fin 0)
                 RentalVerdict.provider_estimate)
              (mkConfidence
                 (if truthyString (parsedAddress parsed) then medium else low)
                 (if truthyNumber (parsedBedrooms parsed) then medium else low)
                 (if truthyNumber (parsedBathrooms parsed) then medium else low)
                 (if truthyNumber (parsedSqft parsed) then medium else low)
                 (if truthyNumber (parsedPrice parsed) then high else low)
                 low low)
              (js_or (parsedPropertyTaxAnnual parsed) (Fin 0)))
    | _ =>
        if present url then BadRequest ProviderNotConfigured
        else BadRequest UnsupportedRequest
    end.

End Handler.

(** *** Vocabulary of the statements below *)

(** A run of digits, and a text that is over or goes on with a dot. *)
Definition digits (ds : list ascii) : Prop := Forall (fun c => isDigit c = true) ds.

Definition startsWithDot (l : list ascii) : Prop :=
  l = [] \/ exists rest, l = "."%char :: rest.

End ListingExtractRoute.

(** * Properties *)

(** ** Builtins *)

Lemma Math_round_IZR (z : Z) : Math_round (IZR z) = z.
Proof. unfold Math_round. apply Zfloor_eq. lra. Qed.

Lemma Math_round_near (z : Z) (x : R) :
  IZR z - / 2 <= x < IZR z + / 2 -> Math_round x = z.
Proof. intros H. unfold Math_round. apply Zfloor_eq. lra. Qed.

Lemma safeNumber_Fin (value : number) : safeNumber (Fin (safeNumber value)) = safeNumber value.
Proof. reflexivity. Qed.

Lemma Math_pow_gt_1 (x y : R) : 1 < x -> 0 < y -> 1 < Math_pow x y.
Proof.
  intros Hx Hy. unfold Math_pow.
  rewrite <- (Rpower_O x) by lra.
  apply Rpower_lt; assumption.
Qed.

(** [Math.pow(x, -n)] for a positive integer [n] is the inverse of the
    [n]-fold product. *)
Lemma Math_pow_neg_int (x : R) (n : Z) :
  0 < x -> (0 <= n)%Z -> Math_pow x (- IZR n) = / x ^ Z.to_nat n.
Proof.
  intros Hx Hn. unfold Math_pow.
  rewrite Rpower_Ropp. f_equal.
  rewrite <- (Z2Nat.id n) at 1 by assumption.
  rewrite <- INR_IZR_INZ. apply Rpower_pow. assumption.
Qed.

Module RentalVerdictFacts.
Import RentalVerdict.

Lemma principalOf_nonneg (input : MortgageInputs) : 0 <= principalOf input.
Proof. unfold principalOf. apply Rmax_l. Qed.

Lemma periodsOf_pos (input : MortgageInputs) : (1 <= periodsOf input)%Z.
Proof. unfold periodsOf. lia. Qed.

Lemma termPeriodsOf_pos (input : MortgageInputs) : (1 <= termPeriodsOf input)%Z.
Proof. unfold termPeriodsOf. lia. Qed.

Lemma periodicRate_nonpos (annualRate : number) (frequency : PaymentFrequency) :
  safeNumber annualRate <= 0 -> periodicRate annualRate frequency = 0.
Proof.
  intros H. unfold periodicRate.
  destruct (Rle_dec (safeNumber annualRate / 100) 0) as [_ | Hn]; [reflexivity | lra].
Qed.

Lemma paymentsPerYear_pos (frequency : PaymentFrequency) :
  0 < IZR (paymentsPerYear frequency).
Proof. destruct frequency; simpl; lra. Qed.

Lemma periodicRate_pos (annualRate : number) (frequency : PaymentFrequency) :
  0 < safeNumber annualRate -> 0 < periodicRate annualRate frequency.
Proof.
  intros H. unfold periodicRate.
  destruct (Rle_dec (safeNumber annualRate / 100) 0) as [Hle | _]; [lra |].
  assert (1 < Math_pow (1 + safeNumber annualRate / 100 / 2)
                       (2 / IZR (paymentsPerYear frequency))); [| lra].
  apply Math_pow_gt_1; [lra |].
  apply Rdiv_lt_0_compat; [lra | apply paymentsPerYear_pos].
Qed.

Lemma periodicRate_nonneg (annualRate : number) (frequency : PaymentFrequency) :
  0 <= periodicRate annualRate frequency.
Proof.
  destruct (Rle_dec (safeNumber annualRate) 0) as [H | H].
  - rewrite periodicRate_nonpos by assumption. lra.
  - left. apply periodicRate_pos. lra.
Qed.

(** The result of [calculateMortgage] read through the loop. *)
Lemma calculateMortgage_positive (input : MortgageInputs) :
  principalOf input <> 0 ->
  calculateMortgage input =
    let run := amortize (Z.to_nat (termPeriodsOf input)) (paymentOf input)
                 (periodicRate (interestRate input) (paymentFrequency input))
                 (principalOf input) 0 in
    mkMortgageResult (paymentOf input) (snd run) (fst run).
Proof.
  intros Hp. unfold calculateMortgage. cbv zeta.
  fold (principalOf input).
  destruct (Req_dec_T (principalOf input) 0) as [E | _]; [contradiction |].
  fold (periodsOf input). fold (basePaymentOf input). fold (paymentOf input).
  fold (termPeriodsOf input).
  destruct (amortize _ _ _ _ _); reflexivity.
Qed.

Lemma calculateMortgage_zero (input : MortgageInputs) :
  principalOf input = 0 -> calculateMortgage input = mkMortgageResult 0 0 0.
Proof.
  intros Hp. unfold calculateMortgage. cbv zeta.
  fold (principalOf input).
  destruct (Req_dec_T (principalOf input) 0) as [_ | N]; [reflexivity | contradiction].
Qed.

Lemma balanceAfterTerm_balanceAt (input : MortgageInputs) :
  principalOf input <> 0 ->
  balanceAfterTerm (calculateMortgage input)
  = balanceAt input (Z.to_nat (termPeriodsOf input)).
Proof. intros Hp. rewrite calculateMortgage_positive by assumption. reflexivity. Qed.

(** At a periodic rate of 0 the loop accumulates no interest. *)
Lemma amortize_rate_zero (count : nat) (payment balance totalInterest : R) :
  snd (amortize count payment 0 balance totalInterest) = totalInterest.
Proof.
  revert balance totalInterest.
  induction count as [| count IH]; intros balance totalInterest; simpl.
  - reflexivity.
  - destruct (Req_dec_T _ 0) as [_ | _]; simpl.
    + lra.
    + rewrite IH. lra.
Qed.

(** One step of the loop never raises the balance and never makes it
    negative. *)
Lemma amortize_step_bounds (payment rate balance : R) :
  0 <= balance ->
  0 <= Rmax 0 (balance - Rmax 0 (payment - balance * rate)) <= balance.
Proof.
  intros Hb. split.
  - apply Rmax_l.
  - apply Rmax_lub; [assumption |].
    pose proof (Rmax_l 0 (payment - balance * rate)). lra.
Qed.

Lemma amortize_nonneg (count : nat) (payment rate balance totalInterest : R) :
  0 <= balance -> 0 <= fst (amortize count payment rate balance totalInterest).
Proof.
  revert balance totalInterest.
  induction count as [| count IH]; intros balance totalInterest Hb; simpl.
  - assumption.
  - destruct (Req_dec_T _ 0) as [E | _]; simpl.
    + apply Rmax_l.
    + apply IH. apply Rmax_l.
Qed.

(** Running the loop one iteration longer is running it, then one more
    step (a step from 0 stays at 0, which is why leaving the loop early
    does not change the balance). *)
Lemma amortize_succ (count : nat) (payment rate balance totalInterest : R) :
  let b := fst (amortize count payment rate balance totalInterest) in
  fst (amortize (S count) payment rate balance totalInterest)
  = Rmax 0 (b - Rmax 0 (payment - b * rate)).
Proof.
  revert balance totalInterest.
  induction count as [| count IH]; intros balance totalInterest.
  - simpl. destruct (Req_dec_T _ 0); reflexivity.
  - cbv zeta in *.
    change (fst (amortize (S (S count)) payment rate balance totalInterest))
      with (fst (let balance' := Rmax 0 (balance - Rmax 0 (payment - balance * rate)) in
                 if Req_dec_T balance' 0 then (balance', totalInterest + balance * rate)
                 else amortize (S count) payment rate balance'
                        (totalInterest + balance * rate))).
    change (fst (amortize (S count) payment rate balance totalInterest))
      with (fst (let balance' := Rmax 0 (balance - Rmax 0 (payment - balance * rate)) in
                 if Req_dec_T balance' 0 then (balance', totalInterest + balance * rate)
                 else amortize count payment rate balance'
                        (totalInterest + balance * rate))).
    cbv zeta.
    destruct (Req_dec_T (Rmax 0 (balance - Rmax 0 (payment - balance * rate))) 0)
      as [E | N].
    + cbn [fst]. rewrite E.
      rewrite Rmult_0_l, Rminus_0_r.
      pose proof (Rmax_l 0 payment) as H0.
      rewrite Rmax_left by lra. reflexivity.
    + apply IH.
Qed.

(** The balances of the loop: never negative, never rising. *)
Lemma amortize_monotone (count : nat) (payment rate balance : R) :
  0 <= balance ->
  0 <= fst (amortize (S count) payment rate balance 0)
    <= fst (amortize count payment rate balance 0).
Proof.
  intros Hb. rewrite amortize_succ. cbv zeta.
  apply amortize_step_bounds. apply amortize_nonneg. assumption.
Qed.


(** *** The annuity closed form

    With a periodic rate [r > 0], [q = 1 + r], and the annuity payment of
    [n] periods, the balance after [k <= n] periods is
    [P (q^n - q^k) / (q^n - 1)]: neither clamp of the loop is active. *)
Section Annuity.

Variables (P r annuity : R) (n : nat).
Hypothesis P_pos : 0 < P.
Hypothesis r_pos : 0 < r.
Hypothesis n_pos : (1 <= n)%nat.
Hypothesis annuity_eq : annuity * ((1 + r) ^ n - 1) = P * r * (1 + r) ^ n.

#[local] Abbreviation closed := (closedBalance P r n).

Lemma growth_gt_1 : 1 < (1 + r) ^ n.
Proof.
  replace 1 with ((1 + r) ^ 0) at 1 by reflexivity.
  apply Rlt_pow; [lra | lia].
Qed.

Lemma closedBalance_0 : closed 0 = P.
Proof. unfold closedBalance. pose proof growth_gt_1. simpl. field. lra. Qed.

Lemma closedBalance_n : closed n = 0.
Proof. unfold closedBalance. pose proof growth_gt_1. field. lra. Qed.

Lemma closedBalance_pos (k : nat) : (k < n)%nat -> 0 < closed k.
Proof.
  intros Hk. unfold closedBalance. pose proof growth_gt_1.
  assert ((1 + r) ^ k < (1 + r) ^ n) by (apply Rlt_pow; [lra | lia]).
  apply Rdiv_lt_0_compat; [| lra].
  apply Rmult_lt_0_compat; lra.
Qed.

Lemma closedBalance_step (k : nat) :
  (k < n)%nat ->
  Rmax 0 (closed k - Rmax 0 (annuity - closed k * r))
  = closed (S k).
Proof.
  intros Hk. pose proof growth_gt_1 as Hg.
  assert (Hq : 0 < (1 + r) ^ k) by (apply pow_lt; lra).
  assert (Hle : (1 + r) ^ S k <= (1 + r) ^ n) by (apply Rle_pow; [lra | lia]).
  assert (Ha : annuity = P * r * (1 + r) ^ n / ((1 + r) ^ n - 1)).
  { apply (Rmult_eq_reg_r ((1 + r) ^ n - 1)); [| lra].
    rewrite annuity_eq. field. lra. }
  assert (Hpaid : annuity - closed k * r
                  = P * r * (1 + r) ^ k / ((1 + r) ^ n - 1)).
  { rewrite Ha. unfold closedBalance. field. lra. }
  rewrite Hpaid.
  assert (0 <= P * r * (1 + r) ^ k / ((1 + r) ^ n - 1)).
  { apply Rlt_le, Rdiv_lt_0_compat; [| lra].
    repeat apply Rmult_lt_0_compat; lra. }
  rewrite (Rmax_right 0 (P * r * (1 + r) ^ k / ((1 + r) ^ n - 1))) by assumption.
  assert (Hnext : closed k - P * r * (1 + r) ^ k / ((1 + r) ^ n - 1)
                  = closed (S k)).
  { unfold closedBalance. simpl. field. lra. }
  rewrite Hnext. apply Rmax_right.
  unfold closedBalance.
  apply Rmult_le_pos; [apply Rmult_le_pos; lra |].
  left. apply Rinv_0_lt_compat. lra.
Qed.

Lemma amortize_closed (k : nat) :
  (k <= n)%nat -> fst (amortize k annuity r P 0) = closed k.
Proof.
  induction k as [| k IH]; intros Hk.
  - simpl. symmetry. apply closedBalance_0.
  - rewrite amortize_succ. cbv zeta. rewrite IH by lia.
    apply closedBalance_step. lia.
Qed.

Lemma amortize_before_n (k : nat) :
  (k < n)%nat -> 0 < fst (amortize k annuity r P 0).
Proof. intros Hk. rewrite amortize_closed by lia. apply closedBalance_pos, Hk. Qed.

Lemma amortize_at_n : fst (amortize n annuity r P 0) = 0.
Proof. rewrite amortize_closed by lia. apply closedBalance_n. Qed.

Lemma closedBalance_decreases (k : nat) :
  closed (S k) < closed k.
Proof.
  pose proof growth_gt_1 as Hg.
  assert (Hq : 0 < (1 + r) ^ k) by (apply pow_lt; lra).
  unfold closedBalance. unfold Rdiv.
  apply Rmult_lt_compat_r; [apply Rinv_0_lt_compat; lra |].
  apply Rmult_lt_compat_l; [exact P_pos |].
  simpl. nra.
Qed.

Lemma amortize_falls (k : nat) :
  (k < n)%nat -> fst (amortize (S k) annuity r P 0) < fst (amortize k annuity r P 0).
Proof.
  intros Hk. rewrite !amortize_closed by lia. apply closedBalance_decreases.
Qed.

End Annuity.

(** *** Rates and discount factors of the semi-annual compounding rule *)

Lemma periodicRate_growth (annualRate : number) (frequency : PaymentFrequency) :
  0 < safeNumber annualRate ->
  1 + periodicRate annualRate frequency
  = Rpower (1 + safeNumber annualRate / 100 / 2) (2 / IZR (paymentsPerYear frequency)).
Proof.
  intros H. unfold periodicRate, Math_pow.
  destruct (Rle_dec (safeNumber annualRate / 100) 0) as [Hle | _]; [lra | ring].
Qed.

(** [Math.pow(1 + rate, -periods)] read on the semi-annual growth factor. *)
Lemma discount_factor (annualRate : number) (frequency : PaymentFrequency) (n : Z) :
  0 < safeNumber annualRate ->
  Math_pow (1 + periodicRate annualRate frequency) (- IZR n)
  = Rpower (1 + safeNumber annualRate / 100 / 2)
      (- (2 * IZR n / IZR (paymentsPerYear frequency))).
Proof.
  intros H. rewrite periodicRate_growth by assumption.
  unfold Math_pow. rewrite Rpower_mult. f_equal.
  pose proof (paymentsPerYear_pos frequency). field. lra.
Qed.

Lemma Rpower_neg_nat (x : R) (k : nat) : 0 < x -> Rpower x (- INR k) = / x ^ k.
Proof. intros Hx. rewrite Rpower_Ropp, Rpower_pow by assumption. reflexivity. Qed.

(** The payment of the loop's caller, for a positive rate, as an annuity. *)
Lemma basePayment_annuity (input : MortgageInputs) :
  0 < safeNumber (interestRate input) ->
  let r := periodicRate (interestRate input) (paymentFrequency input) in
  let n := Z.to_nat (periodsOf input) in
  basePaymentOf input * ((1 + r) ^ n - 1) = principalOf input * r * (1 + r) ^ n.
Proof.
  intros Ha r n.
  assert (Hr : 0 < r) by (apply periodicRate_pos; assumption).
  assert (Hn : (1 <= n)%nat).
  { unfold n. pose proof (periodsOf_pos input). lia. }
  assert (Hg : 1 < (1 + r) ^ n) by (apply growth_gt_1; assumption).
  unfold basePaymentOf. fold r.
  destruct (Req_dec_T r 0) as [E | _]; [lra |].
  rewrite Math_pow_neg_int by (pose proof (periodsOf_pos input); lra || lia).
  fold n. field. split; lra.
Qed.

(** The accelerated payments are fractions of the payment the code
    computes for the plain frequency of the same cadence. *)
Lemma paymentOf_accelerated_bi_weekly (input : MortgageInputs) :
  paymentOf (withFrequency input accelerated_bi_weekly)
  = paymentOf (withFrequency input bi_weekly) / 2.
Proof. reflexivity. Qed.

Lemma paymentOf_accelerated_weekly (input : MortgageInputs) :
  paymentOf (withFrequency input accelerated_weekly)
  = paymentOf (withFrequency input weekly) / 4.
Proof. reflexivity. Qed.

(** *** The example loans *)

Lemma scenarioA_periods (frequency : PaymentFrequency) :
  periodsOf (withFrequency scenarioA frequency) = (25 * paymentsPerYear frequency)%Z.
Proof.
  unfold periodsOf. cbn [withFrequency scenarioA amortizationYears paymentFrequency safeNumber].
  rewrite <- mult_IZR, Math_round_IZR. destruct frequency; reflexivity.
Qed.

Lemma scenarioA_termPeriods (frequency : PaymentFrequency) :
  termPeriodsOf (withFrequency scenarioA frequency) = (5 * paymentsPerYear frequency)%Z.
Proof.
  unfold termPeriodsOf. cbn [withFrequency scenarioA termYears paymentFrequency safeNumber].
  rewrite <- mult_IZR, Math_round_IZR. destruct frequency; reflexivity.
Qed.

Lemma scenarioA_principal (frequency : PaymentFrequency) :
  principalOf (withFrequency scenarioA frequency) = 800000.
Proof.
  unfold principalOf. cbn [withFrequency scenarioA mortgageAmount safeNumber].
  apply Rmax_right. lra.
Qed.

(** Over the 25 years every frequency discounts by the same factor,
    fifty half-years at 2.6 percent. *)
Lemma scenarioA_discount (frequency : PaymentFrequency) :
  Math_pow (1 + periodicRate (Fin 5.2) frequency)
    (- IZR (periodsOf (withFrequency scenarioA frequency)))
  = / (1 + 5.2 / 100 / 2) ^ 50.
Proof.
  rewrite discount_factor by (simpl; lra).
  rewrite scenarioA_periods, mult_IZR.
  cbn [safeNumber].
  rewrite <- Rpower_neg_nat by lra.
  f_equal. pose proof (paymentsPerYear_pos frequency).
  change (INR 50) with (INR (Pos.to_nat 50)). rewrite INR_IPR.
  change (IPR 50) with (IZR 50). field. lra.
Qed.

Lemma scenarioA_basePayment (frequency : PaymentFrequency) :
  basePaymentOf (withFrequency scenarioA frequency)
  = 800000 * periodicRate (Fin 5.2) frequency / (1 - / (1 + 5.2 / 100 / 2) ^ 50).
Proof.
  unfold basePaymentOf.
  rewrite scenarioA_principal.
  cbn [withFrequency scenarioA interestRate paymentFrequency].
  assert (0 < periodicRate (Fin 5.2) frequency) by (apply periodicRate_pos; simpl; lra).
  destruct (Req_dec_T (periodicRate (Fin 5.2) frequency) 0) as [E | _]; [lra |].
  pose proof (scenarioA_discount frequency) as D.
  cbn [withFrequency scenarioA interestRate paymentFrequency] in D.
  unfold periodsOf in *.
  cbn [withFrequency scenarioA amortizationYears paymentFrequency] in *.
  rewrite D. reflexivity.
Qed.

Lemma interestFree_periods (frequency : PaymentFrequency) :
  periodsOf (interestFree frequency) = paymentsPerYear frequency.
Proof.
  unfold periodsOf. cbn [interestFree amortizationYears paymentFrequency safeNumber].
  rewrite Rmult_1_l, Math_round_IZR. destruct frequency; reflexivity.
Qed.

Lemma interestFree_principal (frequency : PaymentFrequency) :
  principalOf (interestFree frequency) = 1200.
Proof.
  unfold principalOf. cbn [interestFree mortgageAmount safeNumber].
  apply Rmax_right. lra.
Qed.

Lemma interestFree_basePayment (frequency : PaymentFrequency) :
  basePaymentOf (interestFree frequency) = 1200 / IZR (paymentsPerYear frequency).
Proof.
  unfold basePaymentOf.
  rewrite interestFree_principal, interestFree_periods.
  cbn [interestFree interestRate paymentFrequency].
  rewrite periodicRate_nonpos by (simpl; lra).
  destruct (Req_dec_T 0 0) as [_ | N]; [reflexivity | contradiction].
Qed.

(** *** The claims on [calculateMortgage] and [calculateInvestment] *)

(** C9. [calculateMortgage] returns a result for every input and has no
    failing path: replacing each non-finite numeric field by 0 does not
    change the result, and a mortgage amount that is non-finite or at most
    0 gives payment, total interest and balance 0. *)
Theorem calculateMortgage_never_fails (input : MortgageInputs) :
  (exists result, calculateMortgage input = result)
  /\ calculateMortgage (sanitizeInputs input) = calculateMortgage input
  /\ (degenerateAmount (mortgageAmount input) ->
      payment (calculateMortgage input) = 0
      /\ totalInterestTerm (calculateMortgage input) = 0
      /\ balanceAfterTerm (calculateMortgage input) = 0).
Proof.
  split; [eexists; reflexivity |].
  split; [reflexivity |].
  intros Hd.
  rewrite calculateMortgage_zero; [repeat split |].
  unfold principalOf.
  destruct (mortgageAmount input) as [r | | |]; simpl in *;
    apply Rmax_left; lra.
Qed.

Lemma calculateMortgage_never_fails_witness :
  degenerateAmount NaN
  /\ payment (calculateMortgage
                (mkMortgageInputs NaN (Fin 5.2) (Fin 25) monthly (Fin 5))) = 0.
Proof.
  split; [exact I |].
  apply (calculateMortgage_never_fails
           (mkMortgageInputs NaN (Fin 5.2) (Fin 25) monthly (Fin 5))).
  exact I.
Defined.

(** C7, as the code has it.  At an annual rate of 0 and a positive
    principal the total interest is 0 for every payment frequency, and for
    the four frequencies that are not accelerated the payment is exactly
    principal / periods. *)
Theorem zero_rate_payment (input : MortgageInputs) :
  0 < safeNumber (mortgageAmount input) ->
  safeNumber (interestRate input) = 0 ->
  totalInterestTerm (calculateMortgage input) = 0
  /\ (isAccelerated (paymentFrequency input) = false ->
      payment (calculateMortgage input)
      = safeNumber (mortgageAmount input) / IZR (periodsOf input)).
Proof.
  intros Hp Hr.
  assert (HP : principalOf input = safeNumber (mortgageAmount input)).
  { unfold principalOf. apply Rmax_right. lra. }
  rewrite calculateMortgage_positive by lra.
  assert (Hrate : periodicRate (interestRate input) (paymentFrequency input) = 0).
  { apply periodicRate_nonpos. lra. }
  cbv zeta. cbn [payment totalInterestTerm]. rewrite Hrate. split.
  - apply amortize_rate_zero.
  - intros Hacc. unfold paymentOf, basePaymentOf. rewrite Hrate, HP.
    destruct (Req_dec_T 0 0) as [_ | N]; [| contradiction].
    destruct (paymentFrequency input); try reflexivity; discriminate.
Qed.

Lemma zero_rate_payment_witness :
  totalInterestTerm (calculateMortgage (interestFree monthly)) = 0
  /\ payment (calculateMortgage (interestFree monthly))
     = 1200 / IZR (periodsOf (interestFree monthly)).
Proof.
  pose proof (zero_rate_payment (interestFree monthly)) as H.
  destruct H as [H1 H2]; [simpl; lra | reflexivity |].
  split; [exact H1 | apply H2; reflexivity].
Defined.

(** C7 as stated fails on an accelerated frequency: 1200 at 0 percent over
    one year of accelerated bi-weekly payments has 26 periods and a
    payment of 1200 / 26 / 2, not 1200 / 26. *)
Lemma zero_rate_payment_accelerated :
  let input := interestFree accelerated_bi_weekly in
  0 < safeNumber (mortgageAmount input)
  /\ safeNumber (interestRate input) = 0
  /\ periodsOf input = 26%Z
  /\ payment (calculateMortgage input) = 300 / 13
  /\ payment (calculateMortgage input)
     <> safeNumber (mortgageAmount input) / IZR (periodsOf input).
Proof.
  cbv zeta.
  assert (Hpay : payment (calculateMortgage (interestFree accelerated_bi_weekly))
                 = 300 / 13).
  { rewrite calculateMortgage_positive by (rewrite interestFree_principal; lra).
    cbv zeta. cbn [payment]. unfold paymentOf.
    rewrite interestFree_basePayment. simpl. lra. }
  rewrite Hpay, interestFree_periods. simpl.
  repeat split; lra.
Qed.

(** C1, at Scenario A under the two accelerated frequencies.  The code
    halves the payment it computes for 26 periods a year, the plain
    bi-weekly payment, and quarters the one it computes for 52 periods a
    year, the plain weekly payment; the results are strictly below half
    and a quarter of the monthly payment of the same loan. *)
Theorem accelerated_payment_at_scenarioA :
  let paid := fun frequency =>
    payment (calculateMortgage (withFrequency scenarioA frequency)) in
  paid accelerated_bi_weekly = paid bi_weekly / 2
  /\ paid accelerated_bi_weekly < paid monthly / 2
  /\ paid accelerated_weekly = paid weekly / 4
  /\ paid accelerated_weekly < paid monthly / 4.
Proof.
  cbv beta zeta.
  rewrite !calculateMortgage_positive by (rewrite scenarioA_principal; lra).
  cbv zeta. cbn [payment].
  split; [reflexivity |].
  assert (Hd : 0 < / (1 - / (1 + 5.2 / 100 / 2) ^ 50)).
  { apply Rinv_0_lt_compat.
    assert (1 < (1 + 5.2 / 100 / 2) ^ 50) by lra.
    assert (/ (1 + 5.2 / 100 / 2) ^ 50 < / 1) by (apply Rinv_lt_contravar; lra).
    lra. }
  assert (Hrates : forall frequency,
             (12 < paymentsPerYear frequency)%Z ->
             periodicRate (Fin 5.2) frequency < periodicRate (Fin 5.2) monthly).
  { intros frequency Hper.
    pose proof (periodicRate_growth (Fin 5.2) frequency) as Ha.
    pose proof (periodicRate_growth (Fin 5.2) monthly) as Hm.
    cbn [safeNumber] in Ha, Hm.
    specialize (Ha ltac:(lra)). specialize (Hm ltac:(lra)).
    assert (Rpower (1 + 5.2 / 100 / 2) (2 / IZR (paymentsPerYear frequency))
            < Rpower (1 + 5.2 / 100 / 2) (2 / IZR (paymentsPerYear monthly))).
    { apply Rpower_lt; [lra |].
      apply IZR_lt in Hper. cbn [paymentsPerYear].
      unfold Rdiv. apply Rmult_lt_compat_l; [lra |].
      apply Rinv_lt_contravar; [| exact Hper].
      apply Rmult_lt_0_compat; lra. }
    lra. }
  assert (Hpaid : forall frequency,
             (12 < paymentsPerYear frequency)%Z ->
             basePaymentOf (withFrequency scenarioA frequency)
             < basePaymentOf (withFrequency scenarioA monthly)).
  { intros frequency Hper. rewrite !scenarioA_basePayment.
    apply Rmult_lt_compat_r; [exact Hd |].
    specialize (Hrates frequency Hper). lra. }
  unfold paymentOf. cbn [withFrequency paymentFrequency].
  pose proof (Hpaid accelerated_bi_weekly ltac:(simpl; lia)).
  pose proof (Hpaid accelerated_weekly ltac:(simpl; lia)).
  split; [lra |]. split; [reflexivity | lra].
Qed.

(** The same at 0 percent, in round numbers: 1200 over one year gives an
    accelerated bi-weekly payment of 300/13 (about 23.08), while half of
    the monthly payment is 50. *)
Lemma accelerated_payment_interest_free :
  payment (calculateMortgage (interestFree accelerated_bi_weekly)) = 300 / 13
  /\ payment (calculateMortgage (interestFree monthly)) / 2 = 50.
Proof.
  rewrite !calculateMortgage_positive by (rewrite interestFree_principal; lra).
  cbv zeta. cbn [payment]. unfold paymentOf.
  rewrite !interestFree_basePayment. simpl. split; lra.
Qed.

(** C10. The verdict is read off the cap rate at the thresholds 0.045 and
    0.03, and the cap rate is NOI / price for a positive price and 0 for a
    price that is at most 0. *)
Theorem verdict_thresholds (price : number) (rentRange : RentRange)
    (expenses : ExpenseInputs) (mortgagePaymentAnnual : number) :
  let metrics := calculateInvestment price rentRange expenses mortgagePaymentAnnual in
  (verdict metrics = Excellent <-> capRate metrics >= 0.045)
  /\ (verdict metrics = Good <-> 0.03 <= capRate metrics < 0.045)
  /\ (verdict metrics = Weak <-> capRate metrics < 0.03)
  /\ capRate metrics
     = match price with
       | Fin p => if Rgt_dec p 0 then noiAnnual metrics / p else 0
       | _ => 0
       end.
Proof.
  cbv zeta. unfold calculateInvestment. cbv zeta. cbn [verdict capRate noiAnnual].
  set (noi := _ - _).
  set (cap := if js_gt0 price then js_div_pos noi price else 0).
  assert (Hcap : cap = match price with
                       | Fin p => if Rgt_dec p 0 then noi / p else 0
                       | _ => 0
                       end).
  { unfold cap. destruct price as [p | | |]; simpl; try reflexivity.
    destruct (Rgt_dec p 0); reflexivity. }
  rewrite <- Hcap. clearbody cap. clear Hcap.
  destruct (Rge_dec cap 0.045) as [H1 | H1];
    [| destruct (Rge_dec cap 0.03) as [H2 | H2]];
    repeat split; intros; try discriminate; try reflexivity; lra.
Qed.

(** *** The balances of the amortization loop *)

Lemma balanceAt_bounds (input : MortgageInputs) (k : nat) :
  0 <= balanceAt input (S k) <= balanceAt input k.
Proof. unfold balanceAt. apply amortize_monotone, principalOf_nonneg. Qed.

(** A frequency that is not accelerated pays the base payment, and a
    positive rate makes that the annuity of [periods] periods. *)
Lemma paymentOf_annuity (input : MortgageInputs) :
  0 < safeNumber (interestRate input) ->
  isAccelerated (paymentFrequency input) = false ->
  let r := periodicRate (interestRate input) (paymentFrequency input) in
  let n := Z.to_nat (periodsOf input) in
  paymentOf input * ((1 + r) ^ n - 1) = principalOf input * r * (1 + r) ^ n.
Proof.
  intros Ha Hacc. cbv zeta.
  replace (paymentOf input) with (basePaymentOf input).
  - apply basePayment_annuity. assumption.
  - unfold paymentOf. destruct (paymentFrequency input); try reflexivity; discriminate.
Qed.

Lemma balanceAt_before_periods (input : MortgageInputs) (k : nat) :
  0 < safeNumber (mortgageAmount input) ->
  0 < safeNumber (interestRate input) ->
  isAccelerated (paymentFrequency input) = false ->
  (k < Z.to_nat (periodsOf input))%nat ->
  0 < balanceAt input k.
Proof.
  intros Hp Ha Hacc Hk. unfold balanceAt.
  apply (amortize_before_n _ _ _ (Z.to_nat (periodsOf input))).
  - unfold principalOf. rewrite Rmax_right; lra.
  - apply periodicRate_pos. assumption.
  - pose proof (periodsOf_pos input). lia.
  - apply paymentOf_annuity; assumption.
  - assumption.
Qed.





(** *** Scenario A, evaluated

    Bi-weekly payments over a term of 5 years: the payment is positive and
    the balance after the term lies strictly between 0 and the principal,
    as the specification expects. *)

Lemma balanceAt_antitone (input : MortgageInputs) (j k : nat) :
  (j <= k)%nat -> balanceAt input k <= balanceAt input j.
Proof.
  intros Hjk. induction Hjk as [| k Hjk IH]; [lra |].
  pose proof (balanceAt_bounds input k). lra.
Qed.

Lemma scenarioA_evaluation :
  0 < payment (calculateMortgage scenarioA)
  /\ 0 < balanceAfterTerm (calculateMortgage scenarioA) < 800000.
Proof.
  assert (HP : principalOf scenarioA = 800000)
    by apply (scenarioA_principal bi_weekly).
  assert (Hterm : termPeriodsOf scenarioA = 130%Z)
    by apply (scenarioA_termPeriods bi_weekly).
  assert (Hper : periodsOf scenarioA = 650%Z)
    by apply (scenarioA_periods bi_weekly).
  assert (Hr : 0 < periodicRate (Fin 5.2) bi_weekly)
    by (apply periodicRate_pos; simpl; lra).
  assert (Hann := paymentOf_annuity scenarioA ltac:(simpl; lra) eq_refl).
  cbv zeta in Hann. rewrite HP, Hper in Hann.
  change (interestRate scenarioA) with (Fin 5.2) in Hann.
  change (paymentFrequency scenarioA) with bi_weekly in Hann.
  set (r := periodicRate (Fin 5.2) bi_weekly) in *.
  assert (Hg : 1 < (1 + r) ^ Z.to_nat 650)
    by (apply growth_gt_1; [exact Hr | lia]).
  rewrite balanceAfterTerm_balanceAt by lra.
  rewrite calculateMortgage_positive by lra.
  cbv zeta. cbn [payment]. rewrite Hterm.
  split.
  - apply (Rmult_lt_reg_r ((1 + r) ^ Z.to_nat 650 - 1)); [lra |].
    rewrite Hann, Rmult_0_l.
    apply Rmult_lt_0_compat; [lra | lra].
  - split.
    + apply balanceAt_before_periods; try (simpl; lra); try reflexivity.
      rewrite Hper. lia.
    + apply Rle_lt_trans with (balanceAt scenarioA 1);
        [apply balanceAt_antitone; lia |].
      unfold balanceAt.
      change (interestRate scenarioA) with (Fin 5.2).
      change (paymentFrequency scenarioA) with bi_weekly.
      fold r. rewrite HP.
      rewrite (amortize_closed 800000 r (paymentOf scenarioA) (Z.to_nat 650))
        by (lra || lia || exact Hann).
      unfold closedBalance.
      apply (Rmult_lt_reg_r ((1 + r) ^ Z.to_nat 650 - 1)); [lra |].
      replace (800000 * ((1 + r) ^ Z.to_nat 650 - (1 + r) ^ 1)
               / ((1 + r) ^ Z.to_nat 650 - 1) * ((1 + r) ^ Z.to_nat 650 - 1))
        with (800000 * ((1 + r) ^ Z.to_nat 650 - (1 + r) ^ 1)) by (field; lra).
      simpl pow at 2. nra.
Qed.

End RentalVerdictFacts.

(** ** Facts on [calculateDecision] *)

Module SellDecisionFacts.
Import SellDecision.

(** *** Loops that push onto an array *)

Lemma fold_left_push {A B : Type} (f : B -> A) (l : list B) (init : list A) :
  fold_left (fun acc x => acc ++ [f x]) l init = init ++ map f l.
Proof.
  revert init. induction l as [| x l IH]; intros init; simpl.
  - symmetry. apply app_nil_r.
  - rewrite IH, <- app_assoc. reflexivity.
Qed.

Lemma nth_map_seq {A : Type} (f : nat -> A) (n i : nat) (d : A) :
  (i < n)%nat -> nth i (map f (seq 0 n)) d = f i.
Proof.
  intros Hi.
  rewrite (nth_indep _ d (f 0%nat)) by (rewrite length_map, length_seq; exact Hi).
  rewrite map_nth, seq_nth by exact Hi. reflexivity.
Qed.

Lemma nth_error_map_seq {A : Type} (f : nat -> A) (n i : nat) :
  (i < n)%nat -> nth_error (map f (seq 0 n)) i = Some (f i).
Proof.
  intros Hi. rewrite nth_error_map, nth_error_seq.
  destruct (Nat.ltb_spec i n) as [_ | Hge]; [reflexivity | lia].
Qed.

(** *** The ages *)

Lemma yearsOf_pos (input : DecisionInputs) : (1 <= yearsOf input)%Z.
Proof. unfold yearsOf, planningAgeOf. lia. Qed.

Lemma planningAgeOf_ge (input : DecisionInputs) :
  (clientAgeOf input <= planningAgeOf input)%Z.
Proof. unfold planningAgeOf. lia. Qed.

(** *** The mortgage balances *)

Lemma buildMortgageBalances_balances (startingBalance annualRate termYears : number)
    (years : nat) :
  let balance := Rmax 0 (safeNumber startingBalance) in
  let annualPayment := calculateMonthlyPayment (Fin balance) annualRate termYears * 12 in
  balances (buildMortgageBalances startingBalance annualRate termYears years)
  = map (fun year =>
           Rmax 0 (- futureValue annualRate year (- annualPayment) balance type1))
      (seq 0 years).
Proof.
  cbv zeta. unfold buildMortgageBalances. cbn [balances].
  rewrite (fold_left_push
             (fun year =>
                Rmax 0
                  (- futureValue annualRate year
                       (- (calculateMonthlyPayment
                             (Fin (Rmax 0 (safeNumber startingBalance)))
                             annualRate termYears * 12))
                       (Rmax 0 (safeNumber startingBalance)) type1))).
  reflexivity.
Qed.

(** [futureValue] on the arguments of [buildMortgageBalances], written
    out. *)
Lemma futureValue_annualConvention (annualRate : number) (t : nat) (A B : R) :
  Rmax 0 (- futureValue annualRate t (- A) B type1)
  = annualConventionBalance B A (safeNumber annualRate / 100) t.
Proof.
  unfold annualConventionBalance, futureValue. f_equal.
  destruct t as [| t]; [ring |].
  destruct (Req_dec_T (safeNumber annualRate / 100) 0) as [E | N].
  - ring.
  - cbn [typeValue]. set (rate := safeNumber annualRate / 100) in *.
    clearbody rate. field. exact N.
Qed.

(** *** The simulation loop *)

Section Loop.

Variable input : DecisionInputs.

Lemma simulate_S (n : nat) :
  simulate input (S n) = simulateYear input (simulate input n) n.
Proof. unfold simulate. rewrite seq_S, fold_left_app. reflexivity. Qed.

Lemma simulate_lengths (n : nat) :
  length (currentSnapshots (simulate input n)) = n
  /\ length (newSnapshots (simulate input n)) = n
  /\ length (seriesPoints (simulate input n)) = n.
Proof.
  induction n as [| n (Hc & Hn & Hs)].
  - repeat split.
  - rewrite simulate_S. unfold simulateYear.
    cbn [currentSnapshots newSnapshots seriesPoints].
    rewrite !length_app, Hc, Hn, Hs. simpl. repeat split; lia.
Qed.

Lemma simulate_rows (n i : nat) :
  (i < n)%nat ->
  exists c w p,
    nth_error (currentSnapshots (simulate input n)) i = Some c
    /\ nth_error (newSnapshots (simulate input n)) i = Some w
    /\ nth_error (seriesPoints (simulate input n)) i = Some p
    /\ yearPushed input i c w p.
Proof.
  induction n as [| n IH]; intros Hi; [lia |].
  destruct (simulate_lengths n) as (Lc & Ln & Ls).
  rewrite simulate_S. unfold simulateYear.
  cbn [currentSnapshots newSnapshots seriesPoints].
  destruct (Nat.eq_dec i n) as [-> | Hne].
  - do 3 eexists.
    rewrite !nth_error_app2 by lia.
    rewrite Lc, Ln, Ls, Nat.sub_diag. cbn [nth_error].
    split; [reflexivity |]. split; [reflexivity |]. split; [reflexivity |].
    unfold yearPushed, keepYear, sellYear, pointOf.
    cbn [age propertyValue mortgageBalance netIncome taxPayable cashFlow
         investmentAccount strategyValue capitalGainsTaxDue
         pointAge currentValue newValue delta].
    repeat split; reflexivity.
  - destruct IH as (c & w & p & Hc & Hw & Hp & Hrow); [lia |].
    exists c, w, p.
    rewrite !nth_error_app1 by lia.
    split; [assumption |]. split; [assumption |]. split; assumption.
Qed.

Lemma simulate_ages (n : nat) :
  map age (currentSnapshots (simulate input n)) = agesFrom (clientAgeOf input) n
  /\ map age (newSnapshots (simulate input n)) = agesFrom (clientAgeOf input) n
  /\ map pointAge (seriesPoints (simulate input n)) = agesFrom (clientAgeOf input) n.
Proof.
  unfold agesFrom. induction n as [| n (Hc & Hn & Hs)].
  - repeat split.
  - rewrite simulate_S, seq_S, map_app. unfold simulateYear.
    cbn [currentSnapshots newSnapshots seriesPoints].
    rewrite !map_app, Hc, Hn, Hs. repeat split; reflexivity.
Qed.

(** The investment accounts compound from year to year. *)
Lemma investmentBefore_snoc (l : list YearlySnapshot) (x : YearlySnapshot) (i : nat) :
  (i <= length l)%nat -> investmentBefore (l ++ [x]) i = investmentBefore l i.
Proof.
  intros Hi. destruct i as [| j]; [reflexivity |].
  unfold investmentBefore. rewrite nth_error_app1 by lia. reflexivity.
Qed.

Lemma simulate_state (n : nat) :
  currentInvestment (simulate input n)
  = investmentBefore (currentSnapshots (simulate input n)) n
  /\ newInvestment (simulate input n)
     = investmentBefore (newSnapshots (simulate input n)) n.
Proof.
  destruct n as [| n]; [split; reflexivity |].
  destruct (simulate_lengths n) as (Lc & Ln & _).
  rewrite simulate_S. unfold simulateYear, investmentBefore.
  cbn [currentSnapshots newSnapshots currentInvestment newInvestment].
  rewrite !nth_error_app2 by lia. rewrite Lc, Ln, Nat.sub_diag.
  split; reflexivity.
Qed.

Lemma simulate_investments (n i : nat) :
  (i < n)%nat ->
  exists c w,
    nth_error (currentSnapshots (simulate input n)) i = Some c
    /\ nth_error (newSnapshots (simulate input n)) i = Some w
    /\ investmentAccount c
       = investmentBefore (currentSnapshots (simulate input n)) i
         * investmentGrowth input + cashFlow c
    /\ investmentAccount w
       = investmentBefore (newSnapshots (simulate input n)) i
         * investmentGrowth input + cashFlow w.
Proof.
  induction n as [| n IH]; intros Hi; [lia |].
  destruct (simulate_lengths n) as (Lc & Ln & _).
  destruct (simulate_state n) as (Sc & Sn).
  rewrite simulate_S. unfold simulateYear.
  cbn [currentSnapshots newSnapshots].
  rewrite !investmentBefore_snoc by lia.
  destruct (Nat.eq_dec i n) as [-> | Hne].
  - do 2 eexists.
    rewrite !nth_error_app2 by lia.
    rewrite Lc, Ln, Nat.sub_diag. cbn [nth_error].
    split; [reflexivity |]. split; [reflexivity |].
    cbn [investmentAccount cashFlow]. rewrite Sc, Sn. split; reflexivity.
  - destruct IH as (c & w & Hc & Hw & Hic & Hiw); [lia |].
    exists c, w. rewrite !nth_error_app1 by lia.
    repeat split; assumption.
Qed.

(** [calculateDecision] finds both planning snapshots: it returns. *)
Lemma calculateDecision_returns :
  exists result c w p,
    calculateDecision input = Some result
    /\ currentAtPlanning result = c
    /\ newAtPlanning result = w
    /\ nth_error (currentSeries result) (Z.to_nat (yearsOf input - 1)) = Some c
    /\ nth_error (newSeries result) (Z.to_nat (yearsOf input - 1)) = Some w
    /\ nth_error (series result) (Z.to_nat (yearsOf input - 1)) = Some p
    /\ yearPushed input (Z.to_nat (yearsOf input - 1)) c w p
    /\ currentSeries result = currentSnapshots (simulate input (Z.to_nat (yearsOf input)))
    /\ newSeries result = newSnapshots (simulate input (Z.to_nat (yearsOf input)))
    /\ series result = seriesPoints (simulate input (Z.to_nat (yearsOf input)))
    /\ resultPlanningAge result = planningAgeOf input
    /\ marginPercent result = safeNumber (decisionMarginPercent input)
    /\ decision result
       = (if Rge_dec (strategyValue w)
               (strategyValue c * (1 + safeNumber (decisionMarginPercent input) / 100))
          then YES else NO)
    /\ breakEvenAge result = scanBreakEvenAge (scanSeries (series result))
    /\ peakDeltaAge result = scanPeakDeltaAge (scanSeries (series result))
    /\ peakDeltaValue result
       = safeNumber (scanPeakDeltaValue (scanSeries (series result))).
Proof.
  pose proof (yearsOf_pos input) as Hy.
  destruct (simulate_rows (Z.to_nat (yearsOf input)) (Z.to_nat (yearsOf input - 1)))
    as (c & w & p & Hc & Hw & Hp & Hrow); [lia |].
  unfold calculateDecision. cbv zeta. rewrite Hc, Hw.
  eexists. exists c, w, p.
  split; [reflexivity |].
  cbn [currentAtPlanning newAtPlanning currentSeries newSeries series
       resultPlanningAge marginPercent decision breakEvenAge peakDeltaAge
       peakDeltaValue].
  do 6 (split; [assumption || reflexivity |]).
  repeat split; reflexivity.
Qed.

End Loop.

(** *** The scan of the series *)

Lemma scanSeries_snoc (l : list SeriesPoint) (x : SeriesPoint) :
  scanSeries (l ++ [x]) = scanPoint (scanSeries l) x.
Proof. unfold scanSeries. rewrite fold_left_app. reflexivity. Qed.

Lemma scanPoint_breakEven (st : ScanState) (x : SeriesPoint) :
  scanBreakEvenAge (scanPoint st x)
  = match scanBreakEvenAge st with
    | None => if Rge_dec (delta x) 0 then Some (pointAge x) else None
    | Some a => Some a
    end.
Proof. unfold scanPoint. destruct (gt_peak _ _); reflexivity. Qed.

Lemma nth_error_snoc_old {A : Type} (l : list A) (x y : A) (j : nat) :
  nth_error (l ++ [x]) j = Some y -> (j < length l)%nat -> nth_error l j = Some y.
Proof. intros H Hj. rewrite nth_error_app1 in H by exact Hj. exact H. Qed.

Lemma nth_error_snoc_keep {A : Type} (l : list A) (x y : A) (j : nat) :
  nth_error l j = Some y -> nth_error (l ++ [x]) j = Some y.
Proof.
  intros H. rewrite nth_error_app1; [exact H |].
  apply nth_error_Some. rewrite H. discriminate.
Qed.

Lemma nth_error_snoc_last {A : Type} (l : list A) (x : A) :
  nth_error (l ++ [x]) (length l) = Some x.
Proof. rewrite nth_error_app2, Nat.sub_diag by lia. reflexivity. Qed.

(** The break-even age of the scan is the age of the first crossing, and
    there is none exactly when every delta is negative. *)
Lemma scan_breakEven (l : list SeriesPoint) :
  match scanBreakEvenAge (scanSeries l) with
  | Some a => exists i p, firstCrossing l i p /\ pointAge p = a
  | None => forall q, In q l -> delta q < 0
  end.
Proof.
  induction l as [| x l IH] using rev_ind.
  - simpl. intros q [].
  - rewrite scanSeries_snoc, scanPoint_breakEven.
    destruct (scanBreakEvenAge (scanSeries l)) as [a |].
    + destruct IH as (i & p & (Hi & Hp & Hbefore) & Ha).
      exists i, p. split; [| exact Ha].
      assert (Hlt : (i < length l)%nat).
      { apply nth_error_Some. rewrite Hi. discriminate. }
      split; [apply nth_error_snoc_keep; exact Hi |].
      split; [exact Hp |].
      intros j q Hj Hq. apply (Hbefore j q Hj).
      apply (nth_error_snoc_old l x); [exact Hq | lia].
    + destruct (Rge_dec (delta x) 0) as [Hx | Hx].
      * exists (length l), x. split; [| reflexivity].
        split; [apply nth_error_snoc_last |].
        split; [exact Hx |].
        intros j q Hj Hq. apply IH.
        apply (nth_error_In l j). apply (nth_error_snoc_old l x); assumption.
      * intros q Hq. apply in_app_or in Hq as [Hq | [<- | []]].
        -- apply IH, Hq.
        -- lra.
Qed.

(** The peak of the scan is the first greatest delta. *)
Lemma scan_peak (l : list SeriesPoint) :
  (l = [] /\ scanPeakDeltaValue (scanSeries l) = NegInf
   /\ scanPeakDeltaAge (scanSeries l) = None)
  \/ exists i p,
       firstPeak l i p
       /\ scanPeakDeltaValue (scanSeries l) = Fin (delta p)
       /\ scanPeakDeltaAge (scanSeries l) = Some (pointAge p).
Proof.
  induction l as [| x l IH] using rev_ind.
  - left. repeat split.
  - right. rewrite scanSeries_snoc. unfold scanPoint.
    destruct IH as [(-> & Hv & Ha) | (i & p & (Hi & Hmax & Hbefore) & Hv & Ha)].
    + rewrite Hv. cbn [gt_peak scanPeakDeltaValue scanPeakDeltaAge].
      exists 0%nat, x. repeat split.
      * intros q [<- | []]. lra.
      * intros j q Hj. lia.
    + rewrite Hv. cbn [gt_peak].
      destruct (Rgt_dec (delta x) (delta p)) as [Hx | Hx];
        cbn [scanPeakDeltaValue scanPeakDeltaAge].
      * exists (length l), x. repeat split.
        -- apply nth_error_snoc_last.
        -- intros q Hq. apply in_app_or in Hq as [Hq | [<- | []]].
           ++ specialize (Hmax q Hq). lra.
           ++ lra.
        -- intros j q Hj Hq.
           assert (In q l).
           { apply (nth_error_In l j). apply (nth_error_snoc_old l x); assumption. }
           specialize (Hmax q H). lra.
      * exists i, p. rewrite Ha. repeat split.
        -- apply nth_error_snoc_keep; exact Hi.
        -- intros q Hq. apply in_app_or in Hq as [Hq | [<- | []]].
           ++ apply Hmax, Hq.
           ++ lra.
        -- intros j q Hj Hq. apply (Hbefore j q Hj).
           assert (Hlt : (i < length l)%nat).
           { apply nth_error_Some. rewrite Hi. discriminate. }
           apply (nth_error_snoc_old l x); [exact Hq | lia].
Qed.

(** *** Points of the series, by index and by age *)

Lemma series_point_at (input : DecisionInputs) (n j : nat) (q : SeriesPoint) :
  nth_error (seriesPoints (simulate input n)) j = Some q ->
  (j < n)%nat
  /\ pointAge q = (clientAgeOf input + Z.of_nat j)%Z
  /\ delta q = newValue q - currentValue q.
Proof.
  intros Hq.
  assert (Hj : (j < n)%nat).
  { destruct (simulate_lengths input n) as (_ & _ & <-).
    apply nth_error_Some. rewrite Hq. discriminate. }
  destruct (simulate_rows input n j Hj) as (c & w & p & _ & _ & Hp & Hrow).
  rewrite Hq in Hp. injection Hp as <-.
  destruct Hrow as ((Hc & _) & _ & (Ha & _ & _ & Hd)).
  repeat split; [assumption | rewrite Ha; exact Hc | assumption].
Qed.

Lemma series_point_in (input : DecisionInputs) (n : nat) (q : SeriesPoint) :
  In q (seriesPoints (simulate input n)) ->
  exists j, nth_error (seriesPoints (simulate input n)) j = Some q
            /\ (j < n)%nat
            /\ pointAge q = (clientAgeOf input + Z.of_nat j)%Z
            /\ delta q = newValue q - currentValue q.
Proof.
  intros Hin. apply In_nth_error in Hin as [j Hj].
  exists j. split; [exact Hj |]. apply (series_point_at input n j q Hj).
Qed.

Lemma Math_round_le (x y : R) : x <= y -> (Math_round x <= Math_round y)%Z.
Proof. intros H. unfold Math_round. apply Zfloor_le. lra. Qed.

Lemma agesFrom_length (first : Z) (count : nat) : length (agesFrom first count) = count.
Proof. unfold agesFrom. rewrite length_map, length_seq. reflexivity. Qed.

(** *** The claims on [calculateDecision] *)

(** C4. [calculateDecision] returns; its planning age is the rounded
    planning age raised to the rounded client age; each of the three
    series has planningAge - clientAge + 1 entries, whose ages are the
    client age, the next year, and so on up to the planning age; a
    planning age that is not above the client age gives one entry. *)
Theorem series_cover_the_ages (input : DecisionInputs) :
  exists result,
    calculateDecision input = Some result
    /\ resultPlanningAge result
       = Z.max (Math_round (safeNumber (clientAge input)))
           (Math_round (safeNumber (planningAge input)))
    /\ (Math_round (safeNumber (clientAge input)) <= resultPlanningAge result)%Z
    /\ exists count : nat,
         Z.of_nat count
         = (resultPlanningAge result - Math_round (safeNumber (clientAge input)) + 1)%Z
         /\ length (currentSeries result) = count
         /\ length (newSeries result) = count
         /\ length (series result) = count
         /\ map age (currentSeries result)
            = agesFrom (Math_round (safeNumber (clientAge input))) count
         /\ map age (newSeries result)
            = agesFrom (Math_round (safeNumber (clientAge input))) count
         /\ map pointAge (series result)
            = agesFrom (Math_round (safeNumber (clientAge input))) count
         /\ (safeNumber (planningAge input) <= safeNumber (clientAge input) ->
             count = 1%nat).
Proof.
  destruct (calculateDecision_returns input)
    as (result & c & w & p & Hres & _ & _ & _ & _ & _ & _ & Hcs & Hns & Hss & Hpa & _).
  exists result. split; [exact Hres |].
  rewrite Hpa. split; [reflexivity |].
  split; [apply planningAgeOf_ge |].
  exists (Z.to_nat (yearsOf input)).
  pose proof (yearsOf_pos input) as Hy.
  destruct (simulate_lengths input (Z.to_nat (yearsOf input))) as (Lc & Ln & Ls).
  destruct (simulate_ages input (Z.to_nat (yearsOf input))) as (Ac & An & As).
  rewrite Hcs, Hns, Hss.
  split; [rewrite Z2Nat.id by lia; reflexivity |].
  do 6 (split; [assumption |]).
  intros Hle. apply Math_round_le in Hle.
  unfold yearsOf, planningAgeOf, clientAgeOf in *. lia.
Qed.

Lemma series_cover_the_ages_witness :
  safeNumber (planningAge scenarioC) <= safeNumber (clientAge scenarioC)
  /\ exists result,
       calculateDecision scenarioC = Some result
       /\ length (currentSeries result) = 1%nat
       /\ length (newSeries result) = 1%nat
       /\ length (series result) = 1%nat
       /\ map pointAge (series result) = agesFrom 70 1.
Proof.
  assert (Hle : safeNumber (planningAge scenarioC) <= safeNumber (clientAge scenarioC))
    by (simpl; lra).
  split; [exact Hle |].
  destruct (series_cover_the_ages scenarioC)
    as (result & Hres & _ & _ & count & _ & Hl1 & Hl2 & Hl3 & _ & _ & Hages & Hone).
  specialize (Hone Hle).
  cbn [scenarioC clientAge safeNumber] in Hages.
  rewrite Math_round_IZR in Hages.
  rewrite Hone in Hl1, Hl2, Hl3, Hages.
  exists result. repeat split; assumption.
Defined.


(** C5. [calculateDecision] returns, and its break-even age, when there is
    one, lies between the client age and the planning age, is the age of a
    point of the series whose delta (sell value minus keep value) is not
    negative, and every point of an earlier age has a negative delta;
    there is no break-even age exactly when every delta of the series is
    negative. *)
Theorem breakEvenAge_first_crossing (input : DecisionInputs) :
  exists result,
    calculateDecision input = Some result
    /\ (forall q, In q (series result) -> delta q = newValue q - currentValue q)
    /\ (forall a, breakEvenAge result = Some a ->
        (Math_round (safeNumber (clientAge input)) <= a <= resultPlanningAge result)%Z
        /\ exists p,
             In p (series result)
             /\ pointAge p = a
             /\ delta p >= 0
             /\ forall q, In q (series result) -> (pointAge q < a)%Z -> delta q < 0)
    /\ (breakEvenAge result = None <->
        forall q, In q (series result) -> delta q < 0).
Proof.
  destruct (calculateDecision_returns input)
    as (result & c & w & p0 & Hres & _ & _ & _ & _ & _ & _
        & _ & _ & Hss & Hpa & _ & _ & Hbe & _).
  exists result. split; [exact Hres |].
  pose proof (yearsOf_pos input) as Hy.
  pose proof (scan_breakEven (series result)) as Hscan.
  rewrite <- Hbe in Hscan. rewrite Hpa. rewrite Hss in *.
  set (n := Z.to_nat (yearsOf input)) in *.
  split.
  { intros q Hq. destruct (series_point_in input n q Hq) as (j & _ & _ & _ & Hd).
    exact Hd. }
  split.
  - intros a Ha. rewrite Ha in Hscan.
    destruct Hscan as (i & p & (Hi & Hp & Hbefore) & Hage).
    destruct (series_point_at input n i p Hi) as (Hin & Hpi & _).
    split.
    { fold (clientAgeOf input). rewrite <- Hage, Hpi.
      unfold n, yearsOf in *. lia. }
    exists p. split; [apply (nth_error_In _ _ Hi) |].
    split; [exact Hage |]. split; [exact Hp |].
    intros q Hq Hlt.
    destruct (series_point_in input n q Hq) as (j & Hj & _ & Hqj & _).
    apply (Hbefore j q); [| exact Hj].
    rewrite <- Hage, Hpi, Hqj in Hlt. lia.
  - split.
    + intros Hnone. rewrite Hnone in Hscan. exact Hscan.
    + intros Hall. destruct (breakEvenAge result) as [a |]; [| reflexivity].
      destruct Hscan as (i & p & (Hi & Hp & _) & _).
      specialize (Hall p (nth_error_In _ _ Hi)). lra.
Qed.

(** C6. [calculateDecision] returns, and there is a point of the series
    whose delta is the returned peak value and at least every delta of the
    series, whose age is the returned peak age, and before whose age no
    point of the series carries that delta. *)
Theorem peakDelta_first_maximum (input : DecisionInputs) :
  exists result p,
    calculateDecision input = Some result
    /\ In p (series result)
    /\ peakDeltaValue result = newValue p - currentValue p
    /\ (forall q, In q (series result) ->
        newValue q - currentValue q <= peakDeltaValue result)
    /\ peakDeltaAge result = Some (pointAge p)
    /\ (forall q, In q (series result) ->
        newValue q - currentValue q = peakDeltaValue result ->
        (pointAge p <= pointAge q)%Z).
Proof.
  destruct (calculateDecision_returns input)
    as (result & c & w & p0 & Hres & _ & _ & _ & _ & Hp0 & _
        & _ & _ & Hss & _ & _ & _ & _ & Hpa & Hpv).
  destruct (scan_peak (series result))
    as [(Hnil & _) | (i & p & (Hi & Hmax & Hbefore) & Hv & Ha)].
  { rewrite Hnil in Hp0. destruct (Z.to_nat (yearsOf input - 1)); discriminate. }
  exists result, p. split; [exact Hres |].
  rewrite Hpv, Hv, Hpa, Ha. cbn [safeNumber].
  rewrite Hss in *.
  set (n := Z.to_nat (yearsOf input)) in *.
  destruct (series_point_at input n i p Hi) as (_ & Hpi & Hdp).
  split; [apply (nth_error_In _ _ Hi) |].
  split; [exact Hdp |].
  split.
  { intros q Hq. destruct (series_point_in input n q Hq) as (j & _ & _ & _ & Hd).
    rewrite <- Hd. apply Hmax, Hq. }
  split; [reflexivity |].
  intros q Hq Heq.
  destruct (series_point_in input n q Hq) as (j & Hj & _ & Hqj & Hd).
  rewrite Hpi, Hqj.
  destruct (Nat.lt_ge_cases j i) as [Hlt | Hge]; [| lia].
  specialize (Hbefore j q Hlt Hj). lra.
Qed.

(** *** The mortgage balance of the keep strategy *)

Lemma calculateMonthlyPayment_annuity (P : R) (annualRate termYears : number) :
  0 < P -> 0 < safeNumber annualRate ->
  let r := safeNumber annualRate / 100 / 12 in
  let n := Z.to_nat (Z.max 1 (Math_round (safeNumber termYears * 12))) in
  calculateMonthlyPayment (Fin P) annualRate termYears * ((1 + r) ^ n - 1)
  = P * r * (1 + r) ^ n.
Proof.
  intros HP Ha r n. unfold calculateMonthlyPayment. cbn [safeNumber].
  destruct (Rle_dec P 0) as [Hle | _]; [lra |].
  fold r. destruct (Rle_dec r 0) as [Hle | _]; [unfold r in Hle; lra |].
  fold n.
  assert (1 < (1 + r) ^ n).
  { apply RentalVerdictFacts.growth_gt_1; [unfold r; lra | unfold n; lia]. }
  field. lra.
Qed.

(** The entry of year [t] in the array [buildMortgageBalances] returns. *)
Lemma balances_at (startingBalance annualRate termYears : number) (years t : nat) :
  (t < years)%nat ->
  let B := Rmax 0 (safeNumber startingBalance) in
  let m := calculateMonthlyPayment (Fin B) annualRate termYears in
  nth t (balances (buildMortgageBalances startingBalance annualRate termYears years)) 0
  = annualConventionBalance B (m * 12) (safeNumber annualRate / 100) t.
Proof.
  intros Ht. cbv zeta.
  rewrite buildMortgageBalances_balances. cbv zeta.
  rewrite nth_map_seq by exact Ht.
  apply futureValue_annualConvention.
Qed.

Lemma currentBalances_at (input : DecisionInputs) (t : nat) :
  (t < Z.to_nat (yearsOf input))%nat ->
  let B := Rmax 0 (safeNumber (currentMortgageBalance input)) in
  let m := calculateMonthlyPayment (Fin B) (loanRate input) (loanAmortizationYears input) in
  nth t (balances (currentBalancesOf input)) 0
  = annualConventionBalance B (m * 12) (safeNumber (loanRate input) / 100) t.
Proof. intros Ht. apply balances_at, Ht. Qed.

(** Twenty-five years of monthly compounding at 5 percent: the growth
    factor over one year and over the whole amortization, bounded by
    repeated fifth powers so that no number grows long. *)
Lemma growth_5_percent :
  1.0511 <= (1 + 5 / 100 / 12) ^ 12 <= 1.0512
  /\ 3.47 <= (1 + 5 / 100 / 12) ^ 300 <= 3.49.
Proof.
  assert (Hg : 1.0511 <= (1 + 5 / 100 / 12) ^ 12 <= 1.0512) by lra.
  split; [exact Hg |].
  replace ((1 + 5 / 100 / 12) ^ 300) with ((((1 + 5 / 100 / 12) ^ 12) ^ 5) ^ 5)
    by (rewrite <- !pow_mult; reflexivity).
  set (g := (1 + 5 / 100 / 12) ^ 12) in *. clearbody g.
  assert (Hg5 : 1.2829 <= g ^ 5 <= 1.2837).
  { split.
    - apply Rle_trans with (1.0511 ^ 5); [lra | apply pow_incr; lra].
    - apply Rle_trans with (1.0512 ^ 5); [apply pow_incr; lra | lra]. }
  set (g5 := g ^ 5) in *. clearbody g5.
  split.
  - apply Rle_trans with (1.2829 ^ 5); [lra | apply pow_incr; lra].
  - apply Rle_trans with (1.2837 ^ 5); [apply pow_incr; lra | lra].
Qed.

(** The monthly payment of a 25-year loan at 5 percent is between 1.40
    and 1.41 times the first month's interest. *)
Lemma monthlyPayment_5_percent_25_years (P : R) :
  0 < P ->
  1.40 * (P * (5 / 100 / 12)) <= calculateMonthlyPayment (Fin P) (Fin 5) (Fin 25)
  <= 1.41 * (P * (5 / 100 / 12)).
Proof.
  intros HP.
  pose proof (calculateMonthlyPayment_annuity P (Fin 5) (Fin 25) HP) as Hm.
  cbv zeta in Hm. cbn [safeNumber] in Hm.
  replace (25 * 12) with (IZR 300) in Hm by lra.
  rewrite Math_round_IZR in Hm.
  change (Z.to_nat (Z.max 1 300)) with 300%nat in Hm.
  specialize (Hm ltac:(lra)).
  destruct growth_5_percent as (_ & Hf).
  set (f := (1 + 5 / 100 / 12) ^ 300) in *. clearbody f.
  set (m := calculateMonthlyPayment (Fin P) (Fin 5) (Fin 25)) in *. clearbody m.
  set (x := P * (5 / 100 / 12)) in *.
  assert (0 < x) by (unfold x; lra). clearbody x.
  split; apply (Rmult_le_reg_r (f - 1)); try lra; rewrite Hm; nra.
Qed.

(** C3, as the code has it.  [calculateDecision] returns; the annual debt
    service is 12 times the monthly annuity payment [m] at the rate
    loanRate/100/12; the mortgage balance of the keep snapshot of year [t]
    is the starting balance compounded once a year at loanRate/100 less
    the annual payments [12 m] paid at the start of each year and
    compounded likewise, floored at 0.  At year 0 this is the starting
    balance, as in the monthly trace. *)
Theorem keep_mortgage_balance (input : DecisionInputs) (t : nat) :
  (Z.of_nat t <= planningAgeOf input - clientAgeOf input)%Z ->
  exists result snapshot,
    calculateDecision input = Some result
    /\ nth_error (currentSeries result) t = Some snapshot
    /\ age snapshot = (clientAgeOf input + Z.of_nat t)%Z
    /\ let B := Rmax 0 (safeNumber (currentMortgageBalance input)) in
       let m := calculateMonthlyPayment (Fin B) (loanRate input)
                  (loanAmortizationYears input) in
       annualDebtService (currentBalancesOf input) = m * 12
       /\ cashFlow snapshot = netIncome snapshot - taxPayable snapshot - m * 12
       /\ mortgageBalance snapshot
          = annualConventionBalance B (m * 12) (safeNumber (loanRate input) / 100) t
       /\ (t = 0%nat ->
           mortgageBalance snapshot = B
           /\ mortgageBalance snapshot = spec_monthlyConventionBalance input t).
Proof.
  intros Ht.
  assert (Hlt : (t < Z.to_nat (yearsOf input))%nat) by (unfold yearsOf; lia).
  destruct (calculateDecision_returns input)
    as (result & _ & _ & _ & Hres & _ & _ & _ & _ & _ & _ & Hcs & _).
  destruct (simulate_rows input (Z.to_nat (yearsOf input)) t Hlt)
    as (c & w & p & Hc & _ & _ & Hrow).
  destruct Hrow as ((Hage & _ & Hmb & _ & _ & Hcf & _) & _).
  exists result, c. rewrite Hcs.
  split; [exact Hres |]. split; [exact Hc |]. split; [exact Hage |].
  cbv zeta.
  assert (Hds : annualDebtService (currentBalancesOf input)
                = calculateMonthlyPayment
                    (Fin (Rmax 0 (safeNumber (currentMortgageBalance input))))
                    (loanRate input) (loanAmortizationYears input) * 12)
    by reflexivity.
  split; [exact Hds |].
  split; [rewrite Hcf, Hds; reflexivity |].
  rewrite Hmb, currentBalances_at by exact Hlt. cbv zeta.
  split; [reflexivity |].
  intros ->. unfold annualConventionBalance, spec_monthlyConventionBalance,
    spec_traceBalance. cbn [Nat.mul RentalVerdict.amortize fst].
  rewrite Rmax_right by apply Rmax_l. split; reflexivity.
Qed.

Lemma keep_mortgage_balance_witness :
  exists result snapshot,
    calculateDecision scenarioB = Some result
    /\ nth_error (currentSeries result) 1 = Some snapshot
    /\ age snapshot = 71%Z
    /\ annualDebtService (currentBalancesOf scenarioB)
       = calculateMonthlyPayment (Fin 1000000) (Fin 5) (Fin 25) * 12
    /\ mortgageBalance snapshot
       = annualConventionBalance 1000000
           (calculateMonthlyPayment (Fin 1000000) (Fin 5) (Fin 25) * 12) (5 / 100) 1
    /\ 975000 < mortgageBalance snapshot < 977000.
Proof.
  assert (Hc : clientAgeOf scenarioB = 70%Z).
  { unfold clientAgeOf. cbn [scenarioB clientAge safeNumber]. apply Math_round_IZR. }
  assert (Hp : planningAgeOf scenarioB = 90%Z).
  { unfold planningAgeOf. rewrite Hc. cbn [scenarioB planningAge safeNumber].
    rewrite Math_round_IZR. reflexivity. }
  destruct (keep_mortgage_balance scenarioB 1)
    as (result & snapshot & Hres & Hnth & Hage & Hds & _ & Hmb & _).
  { rewrite Hc, Hp. cbn. lia. }
  cbn [scenarioB currentMortgageBalance loanRate loanAmortizationYears safeNumber]
    in Hds, Hmb.
  assert (HB : Rmax 0 1000000 = 1000000) by (apply Rmax_right; lra).
  rewrite HB in Hds, Hmb.
  exists result, snapshot.
  split; [exact Hres |]. split; [exact Hnth |].
  split; [rewrite Hage, Hc; reflexivity |].
  split; [exact Hds |]. split; [exact Hmb |].
  rewrite Hmb.
  pose proof (monthlyPayment_5_percent_25_years 1000000 ltac:(lra)) as Hm.
  set (m := calculateMonthlyPayment (Fin 1000000) (Fin 5) (Fin 25)) in *.
  clearbody m.
  unfold annualConventionBalance.
  destruct (Req_dec_T (5 / 100) 0) as [E | _]; [lra |].
  rewrite Rmax_right by (simpl; lra).
  simpl. lra.
Defined.

(** C3 as stated fails at Scenario B, year 1 (age 71): the keep snapshot
    holds a mortgage balance below 977000 (976341.65), while the monthly
    trace of the same loan after 12 periods stands above 979000
    (979380.93). *)
Lemma keep_mortgage_balance_not_monthly :
  exists result snapshot,
    calculateDecision scenarioB = Some result
    /\ nth_error (currentSeries result) 1 = Some snapshot
    /\ age snapshot = 71%Z
    /\ mortgageBalance snapshot < 977000
    /\ 979000 < spec_monthlyConventionBalance scenarioB 1
    /\ mortgageBalance snapshot <> spec_monthlyConventionBalance scenarioB 1.
Proof.
  assert (Hc : clientAgeOf scenarioB = 70%Z).
  { unfold clientAgeOf. cbn [scenarioB clientAge safeNumber]. apply Math_round_IZR. }
  assert (Hp : planningAgeOf scenarioB = 90%Z).
  { unfold planningAgeOf. rewrite Hc. cbn [scenarioB planningAge safeNumber].
    rewrite Math_round_IZR. reflexivity. }
  assert (Hy : Z.to_nat (yearsOf scenarioB) = 21%nat).
  { unfold yearsOf. rewrite Hc, Hp. reflexivity. }
  destruct (calculateDecision_returns scenarioB)
    as (result & _ & _ & _ & Hres & _ & _ & _ & _ & _ & _ & Hcs & _).
  destruct (simulate_rows scenarioB (Z.to_nat (yearsOf scenarioB)) 1)
    as (c & w & p & Hnth & _ & _ & Hrow); [rewrite Hy; lia |].
  destruct Hrow as ((Hage & _ & Hmb & _) & _).
  rewrite currentBalances_at in Hmb by (rewrite Hy; lia).
  cbv zeta in Hmb.
  cbn [scenarioB currentMortgageBalance loanRate loanAmortizationYears safeNumber] in Hmb.
  assert (HB : Rmax 0 1000000 = 1000000) by (apply Rmax_right; lra).
  rewrite HB in Hmb.
  pose proof (calculateMonthlyPayment_annuity 1000000 (Fin 5) (Fin 25)) as Hm.
  cbv zeta in Hm. cbn [safeNumber] in Hm.
  replace (25 * 12) with (IZR 300) in Hm by lra.
  rewrite Math_round_IZR in Hm.
  change (Z.to_nat (Z.max 1 300)) with 300%nat in Hm.
  specialize (Hm ltac:(lra) ltac:(lra)).
  set (m := calculateMonthlyPayment (Fin 1000000) (Fin 5) (Fin 25)) in *.
  assert (Hspec : spec_monthlyConventionBalance scenarioB 1
                  = RentalVerdict.closedBalance 1000000 (5 / 100 / 12) 300 12).
  { unfold spec_monthlyConventionBalance, spec_traceBalance.
    cbn [scenarioB currentMortgageBalance loanRate loanAmortizationYears safeNumber].
    rewrite HB. fold m.
    change (12 * 1)%nat with 12%nat.
    apply (RentalVerdictFacts.amortize_closed 1000000 (5 / 100 / 12) m 300);
      [lra | lra | lia | exact Hm | lia]. }
  unfold RentalVerdict.closedBalance in Hspec.
  destruct growth_5_percent as (Hg & Hf).
  set (g := (1 + 5 / 100 / 12) ^ 12) in *.
  set (f := (1 + 5 / 100 / 12) ^ 300) in *.
  clearbody g f m.
  assert (Hbound : 5840 <= m).
  { apply (Rmult_le_reg_r (f - 1)); [lra |]. rewrite Hm. lra. }
  assert (Hcode : mortgageBalance c < 977000).
  { rewrite Hmb. unfold annualConventionBalance.
    destruct (Req_dec_T (5 / 100) 0) as [E | _]; [lra |].
    apply Rmax_lub_lt; lra. }
  assert (Hmonthly : 979000 < spec_monthlyConventionBalance scenarioB 1).
  { rewrite Hspec.
    apply (Rmult_lt_reg_r (f - 1)); [lra |].
    replace (1000000 * (f - g) / (f - 1) * (f - 1)) with (1000000 * (f - g))
      by (field; lra).
    lra. }
  exists result, c. rewrite Hcs.
  split; [exact Hres |]. split; [exact Hnth |].
  split; [rewrite Hage, Hc; reflexivity |].
  split; [exact Hcode |]. split; [exact Hmonthly |]. lra.
Qed.

(** *** Scenario C, evaluated

    One simulated year at age 70.  The keep strategy is worth about
    6388181 and the sell strategy about 5889004: the decision is NO, there
    is no break-even age, and the peak delta is the delta of that single
    year. *)

Lemma scenarioC_ages :
  clientAgeOf scenarioC = 70%Z /\ planningAgeOf scenarioC = 70%Z
  /\ yearsOf scenarioC = 1%Z.
Proof.
  assert (Hc : clientAgeOf scenarioC = 70%Z).
  { unfold clientAgeOf. cbn [scenarioC clientAge safeNumber]. apply Math_round_IZR. }
  assert (Hp : planningAgeOf scenarioC = 70%Z).
  { unfold planningAgeOf. rewrite Hc. cbn [scenarioC planningAge safeNumber].
    rewrite Math_round_IZR. reflexivity. }
  unfold yearsOf. rewrite Hc, Hp. repeat split.
Qed.

Lemma scenarioC_newPropertyValueStart :
  newPropertyValueStart scenarioC = 5853332 / 0.9
  /\ newMortgageStart scenarioC = 5853332 / 9.
Proof.
  assert (Hn : newPropertyValueStart scenarioC = 5853332 / 0.9).
  { unfold newPropertyValueStart, netSaleProceeds, initialCapitalGainsTax,
      capitalGainsTax.
    cbn [scenarioC newLoanToValue currentPropertyValue currentMortgageBalance
         currentPropertyAcb capitalGainsInclusionRate marginalTaxRate
         realtorFeesPercent propertyTransferTaxPercent safeNumber].
    destruct (Rge_dec (10 / 100) 1) as [H | _]; [lra |].
    rewrite Rmax_right by lra. lra. }
  split; [exact Hn |].
  unfold newMortgageStart. rewrite Hn.
  cbn [scenarioC newLoanToValue safeNumber].
  rewrite Rmax_right by lra. lra.
Qed.

Lemma scenarioC_evaluation :
  exists result point,
    calculateDecision scenarioC = Some result
    /\ series result = [point]
    /\ pointAge point = 70%Z
    /\ 6387000 < currentValue point < 6389000
    /\ 5888000 < newValue point < 5890000
    /\ decision result = NO
    /\ breakEvenAge result = None
    /\ peakDeltaAge result = Some 70%Z
    /\ peakDeltaValue result = newValue point - currentValue point.
Proof.
  destruct scenarioC_ages as (Hca & Hpa & Hy).
  destruct scenarioC_newPropertyValueStart as (Hnv & Hnm).
  destruct (calculateDecision_returns scenarioC)
    as (result & c & w & p & Hres & _ & _ & Hnc & Hnw & Hp & Hrow
        & Hcs & Hns & Hss & _ & _ & Hdec & Hbe & Hpka & Hpkv).
  rewrite Hy in *.
  change (Z.to_nat (1 - 1)) with 0%nat in *.
  change (Z.to_nat 1) with 1%nat in *.
  assert (Hser : series result = [p]).
  { destruct (simulate_lengths scenarioC 1) as (_ & _ & Hl).
    rewrite <- Hss in Hl.
    destruct (series result) as [| x [| y l]]; try discriminate.
    injection Hp as ->. reflexivity. }
  destruct (simulate_investments scenarioC 1 0) as (c' & w' & Hc' & Hw' & Hic & Hiw);
    [lia |].
  rewrite <- Hcs, Hnc in Hc'. rewrite <- Hns, Hnw in Hw'.
  injection Hc' as <-. injection Hw' as <-.
  cbn [investmentBefore] in Hic, Hiw.
  destruct Hrow as (Hk & Hs & (Hpage & Hpc & Hpw & Hpd)).
  destruct Hk as (Hage & Hv & Hmb & Hni & Htx & Hcf & Hcg & Hsv).
  destruct Hs as (_ & Hv' & Hmb' & Hni' & Htx' & Hcf' & _ & Hsv').
  (* the keep strategy *)
  unfold currentBalancesOf in Hmb, Hcf.
  rewrite balances_at in Hmb by lia.
  cbv zeta in Hmb. unfold annualConventionBalance in Hmb.
  unfold buildMortgageBalances in Hcf. cbn [annualDebtService] in Hcf.
  unfold capitalGainsTax in Hcg.
  cbn [scenarioC currentPropertyValue currentGrowthRate currentMortgageBalance
       currentCapRate loanRate loanAmortizationYears marginalTaxRate
       currentPropertyAcb capitalGainsInclusionRate safeNumber pow]
    in Hv, Hmb, Hni, Htx, Hcf, Hcg.
  assert (HB : Rmax 0 1000000 = 1000000) by (apply Rmax_right; lra).
  rewrite HB in Hmb, Hcf. rewrite HB in Hmb.
  pose proof (monthlyPayment_5_percent_25_years 1000000 ltac:(lra)) as Hm.
  set (m := calculateMonthlyPayment (Fin 1000000) (Fin 5) (Fin 25)) in *.
  clearbody m.
  (* the sell strategy *)
  unfold newBalancesOf in Hmb', Hcf'.
  rewrite balances_at in Hmb' by lia.
  cbv zeta in Hmb'. unfold annualConventionBalance in Hmb'.
  unfold buildMortgageBalances in Hcf'. cbn [annualDebtService] in Hcf'.
  rewrite Hnv in Hv'.
  cbn [scenarioC newGrowthRate newCapRate loanRate loanAmortizationYears
       marginalTaxRate safeNumber pow] in Hv', Hmb', Hni', Htx', Hcf'.
  rewrite Hnm in Hmb', Hcf'.
  assert (HB' : Rmax 0 (5853332 / 9) = 5853332 / 9) by (apply Rmax_right; lra).
  rewrite HB' in Hmb', Hcf'. rewrite HB' in Hmb'.
  pose proof (monthlyPayment_5_percent_25_years (5853332 / 9) ltac:(lra)) as Hm'.
  set (m' := calculateMonthlyPayment (Fin (5853332 / 9)) (Fin 5) (Fin 25)) in *.
  clearbody m'.
  assert (Hkeep : 6387000 < strategyValue c < 6389000) by lra.
  assert (Hsell : 5888000 < strategyValue w < 5890000) by lra.
  exists result, p.
  split; [exact Hres |]. split; [exact Hser |].
  split; [rewrite Hpage, Hage, Hca; reflexivity |].
  rewrite Hpc, Hpw. split; [exact Hkeep |]. split; [exact Hsell |].
  rewrite Hdec, Hbe, Hpka, Hpkv, Hser.
  cbn [scenarioC decisionMarginPercent safeNumber].
  unfold scanSeries. cbn [fold_left]. unfold scanPoint.
  cbn [scanBreakEvenAge scanPeakDeltaValue scanPeakDeltaAge gt_peak].
  destruct (Rge_dec (strategyValue w) (strategyValue c * (1 + 2 / 100)))
    as [H | _]; [lra |].
  destruct (Rge_dec (delta p) 0) as [H | _]; [lra |].
  cbn [scanBreakEvenAge scanPeakDeltaValue scanPeakDeltaAge safeNumber].
  rewrite Hpage, Hage, Hca, Hpd, Hpc, Hpw. repeat split.
Qed.

End SellDecisionFacts.

(** * Further properties of the code *)

(** ** [rentalVerdict.ts]: rates, the loop, the investment metrics *)

Module RentalVerdictMore.
Import RentalVerdict RentalVerdictFacts RentalVerdictPage.

(** X1. Whatever the payment frequency, compounding the periodic rate over
    the payments of one year gives the growth of two half-years at half
    the annual rate; an annual rate that is negative or not finite counts
    as 0. *)
Theorem periodicRate_semi_annual (annualRate : number) (frequency : PaymentFrequency) :
  (1 + periodicRate annualRate frequency) ^ Z.to_nat (paymentsPerYear frequency)
  = (1 + Rmax 0 (safeNumber annualRate) / 100 / 2) ^ 2.
Proof.
  destruct (Rle_dec (safeNumber annualRate) 0) as [Hle | Hgt].
  - rewrite periodicRate_nonpos by exact Hle.
    rewrite Rmax_left by exact Hle.
    replace (1 + 0) with 1 by ring. rewrite pow1.
    replace (1 + 0 / 100 / 2) with 1 by field. rewrite pow1. reflexivity.
  - apply Rnot_le_lt in Hgt.
    rewrite Rmax_right by lra.
    rewrite periodicRate_growth by exact Hgt.
    set (x := 1 + safeNumber annualRate / 100 / 2).
    assert (Hx : 0 < x) by (unfold x; lra).
    rewrite <- Rpower_pow by apply exp_pos.
    rewrite Rpower_mult.
    replace (2 / IZR (paymentsPerYear frequency)
             * INR (Z.to_nat (paymentsPerYear frequency))) with (INR 2).
    + apply Rpower_pow, Hx.
    + rewrite (INR_IZR_INZ (Z.to_nat (paymentsPerYear frequency))).
      rewrite Z2Nat.id by (destruct frequency; simpl; lia).
      pose proof (paymentsPerYear_pos frequency). simpl. field. lra.
Qed.

(** *** The interest the loop accumulates *)

Lemma amortize_interest_succ (count : nat) (payment rate balance totalInterest : R) :
  snd (amortize (S count) payment rate balance totalInterest)
  = snd (amortize count payment rate balance totalInterest)
    + fst (amortize count payment rate balance totalInterest) * rate.
Proof.
  revert balance totalInterest.
  induction count as [| count IH]; intros balance totalInterest.
  - simpl. destruct (Req_dec_T _ 0); reflexivity.
  - change (amortize (S (S count)) payment rate balance totalInterest)
      with (let balance' := Rmax 0 (balance - Rmax 0 (payment - balance * rate)) in
            if Req_dec_T balance' 0 then (balance', totalInterest + balance * rate)
            else amortize (S count) payment rate balance'
                   (totalInterest + balance * rate)).
    change (amortize (S count) payment rate balance totalInterest)
      with (let balance' := Rmax 0 (balance - Rmax 0 (payment - balance * rate)) in
            if Req_dec_T balance' 0 then (balance', totalInterest + balance * rate)
            else amortize count payment rate balance'
                   (totalInterest + balance * rate)).
    cbv zeta.
    destruct (Req_dec_T (Rmax 0 (balance - Rmax 0 (payment - balance * rate))) 0)
      as [E | N].
    + cbn [fst snd]. rewrite E. ring.
    + apply IH.
Qed.

Lemma amortize_interest_nonneg (count : nat) (payment rate balance totalInterest : R) :
  0 <= rate -> 0 <= balance ->
  totalInterest <= snd (amortize count payment rate balance totalInterest).
Proof.
  intros Hr Hb. induction count as [| count IH].
  - simpl. lra.
  - rewrite amortize_interest_succ.
    pose proof (amortize_nonneg count payment rate balance totalInterest Hb).
    assert (0 <= fst (amortize count payment rate balance totalInterest) * rate)
      by (apply Rmult_le_pos; assumption).
    lra.
Qed.

Lemma amortize_below_start (count : nat) (payment rate balance : R) :
  0 <= balance -> fst (amortize count payment rate balance 0) <= balance.
Proof.
  intros Hb. induction count as [| count IH].
  - simpl. lra.
  - pose proof (amortize_monotone count payment rate balance Hb). lra.
Qed.

Lemma basePaymentOf_nonneg (input : MortgageInputs) : 0 <= basePaymentOf input.
Proof.
  unfold basePaymentOf. cbv zeta.
  pose proof (principalOf_nonneg input) as HP.
  pose proof (periodsOf_pos input) as Hn.
  pose proof (periodicRate_nonneg (interestRate input) (paymentFrequency input)) as Hr.
  set (r := periodicRate (interestRate input) (paymentFrequency input)) in *.
  destruct (Req_dec_T r 0) as [E | N].
  - apply Rmult_le_pos; [exact HP |].
    left. apply Rinv_0_lt_compat. apply IZR_lt. lia.
  - rewrite Math_pow_neg_int by (lra || lia).
    assert (Hg : 1 < (1 + r) ^ Z.to_nat (periodsOf input))
      by (apply growth_gt_1; [lra | lia]).
    assert (/ (1 + r) ^ Z.to_nat (periodsOf input) < / 1)
      by (apply Rinv_lt_contravar; lra).
    apply Rmult_le_pos; [apply Rmult_le_pos; lra |].
    left. apply Rinv_0_lt_compat. lra.
Qed.

Lemma paymentOf_nonneg (input : MortgageInputs) : 0 <= paymentOf input.
Proof.
  pose proof (basePaymentOf_nonneg input). unfold paymentOf.
  destruct (paymentFrequency input); lra.
Qed.

(** X2. For every input, the three results of [calculateMortgage] are
    not negative and the balance after the term is at most the principal
    (the mortgage amount floored at 0). *)
Theorem calculateMortgage_bounds (input : MortgageInputs) :
  0 <= payment (calculateMortgage input)
  /\ 0 <= totalInterestTerm (calculateMortgage input)
  /\ 0 <= balanceAfterTerm (calculateMortgage input)
       <= Rmax 0 (safeNumber (mortgageAmount input)).
Proof.
  fold (principalOf input).
  pose proof (principalOf_nonneg input) as HP.
  destruct (Req_dec_T (principalOf input) 0) as [E | N].
  - rewrite calculateMortgage_zero by exact E. simpl. lra.
  - rewrite calculateMortgage_positive by exact N.
    cbv zeta. cbn [payment totalInterestTerm balanceAfterTerm].
    split; [apply paymentOf_nonneg |].
    split; [apply amortize_interest_nonneg; [apply periodicRate_nonneg | exact HP] |].
    split; [apply amortize_nonneg, HP | apply amortize_below_start, HP].
Qed.

(** *** What the payments of a loan add up to *)

Section AnnuityAccount.

Variables (P r annuity : R) (n : nat).
Hypothesis P_pos : 0 < P.
Hypothesis r_pos : 0 < r.
Hypothesis n_pos : (1 <= n)%nat.
Hypothesis annuity_eq : annuity * ((1 + r) ^ n - 1) = P * r * (1 + r) ^ n.

Lemma closedBalance_diff (k : nat) :
  closedBalance P r n k - closedBalance P r n (S k)
  = annuity - closedBalance P r n k * r.
Proof.
  pose proof (growth_gt_1 r n r_pos n_pos) as Hg.
  assert (Ha : annuity = P * r * (1 + r) ^ n / ((1 + r) ^ n - 1)).
  { apply (Rmult_eq_reg_r ((1 + r) ^ n - 1)); [| lra].
    rewrite annuity_eq. field. lra. }
  rewrite Ha. unfold closedBalance. simpl. field. lra.
Qed.

Lemma amortize_account_closed (k : nat) :
  (k <= n)%nat ->
  snd (amortize k annuity r P 0) + (P - fst (amortize k annuity r P 0))
  = INR k * annuity.
Proof.
  induction k as [| k IH]; intros Hk.
  - simpl. ring.
  - specialize (IH ltac:(lia)).
    rewrite amortize_interest_succ.
    rewrite (amortize_closed P r annuity n P_pos r_pos n_pos annuity_eq (S k)) by lia.
    rewrite (amortize_closed P r annuity n P_pos r_pos n_pos annuity_eq k) in * by lia.
    pose proof (closedBalance_diff k). rewrite S_INR. lra.
Qed.

End AnnuityAccount.

(** At rate 0 the balance falls by the payment [P / n] each period. *)
Lemma amortize_interest_free (P : R) (n k : nat) :
  0 < P -> (1 <= n)%nat -> (k <= n)%nat ->
  fst (amortize k (P / INR n) 0 P 0) = P - INR k * (P / INR n).
Proof.
  intros HP Hn. induction k as [| k IH]; intros Hk.
  - simpl. ring.
  - rewrite amortize_succ. cbv zeta. rewrite IH by lia.
    assert (Hn0 : 0 < INR n) by (apply lt_0_INR; lia).
    assert (Hp : 0 < P / INR n) by (apply Rdiv_lt_0_compat; assumption).
    assert (Hk' : INR (S k) <= INR n) by (apply le_INR; lia).
    assert (Hle : INR (S k) * (P / INR n) <= P).
    { replace P with (INR n * (P / INR n)) at 2 by (field; lra).
      apply Rmult_le_compat_r; lra. }
    rewrite S_INR in *.
    rewrite Rmult_0_r, Rminus_0_r.
    rewrite (Rmax_right 0 (P / INR n)) by lra.
    rewrite Rmax_right by lra. ring.
Qed.

(** Once the balance is 0 the loop changes nothing. *)
Lemma amortize_paid_off (payment rate balance : R) (n k : nat) :
  0 <= payment -> 0 <= balance ->
  fst (amortize n payment rate balance 0) = 0 ->
  (n <= k)%nat ->
  fst (amortize k payment rate balance 0) = 0
  /\ snd (amortize k payment rate balance 0) = snd (amortize n payment rate balance 0).
Proof.
  intros Hp Hb Hn Hk. induction Hk as [| k Hk (IHf & IHs)].
  - split; [exact Hn | reflexivity].
  - split.
    + pose proof (amortize_monotone k payment rate balance Hb). lra.
    + rewrite amortize_interest_succ, IHf, IHs. ring.
Qed.

(** A frequency that is not accelerated at a rate of 0. *)
Lemma paymentOf_interest_free (input : MortgageInputs) :
  safeNumber (interestRate input) <= 0 ->
  isAccelerated (paymentFrequency input) = false ->
  paymentOf input = principalOf input / INR (Z.to_nat (periodsOf input)).
Proof.
  intros Hr Hacc. unfold paymentOf, basePaymentOf. cbv zeta.
  rewrite periodicRate_nonpos by exact Hr.
  destruct (Req_dec_T 0 0) as [_ | N]; [| contradiction].
  rewrite INR_IZR_INZ, Z2Nat.id by (pose proof (periodsOf_pos input); lia).
  destruct (paymentFrequency input); try reflexivity; discriminate.
Qed.

(** The balance and the interest after [k] periods of a loan that is not
    accelerated, at any rate: payments made = interest + principal
    repaid up to period [n], and nothing is owed at period [n]. *)
Lemma plain_loan_account (input : MortgageInputs) :
  0 < safeNumber (mortgageAmount input) ->
  isAccelerated (paymentFrequency input) = false ->
  let rate := periodicRate (interestRate input) (paymentFrequency input) in
  let n := Z.to_nat (periodsOf input) in
  let run := fun k => amortize k (paymentOf input) rate (principalOf input) 0 in
  (forall k, (k <= n)%nat ->
     snd (run k) + (principalOf input - fst (run k)) = INR k * paymentOf input)
  /\ (forall k, (k < n)%nat -> fst (run (S k)) < fst (run k))
  /\ fst (run n) = 0.
Proof.
  intros Hamount Hacc rate n run.
  assert (HP : 0 < principalOf input)
    by (unfold principalOf; rewrite Rmax_right; lra).
  assert (Hn : (1 <= n)%nat) by (unfold n; pose proof (periodsOf_pos input); lia).
  destruct (Rle_dec (safeNumber (interestRate input)) 0) as [Hle | Hgt].
  - assert (Hrate : rate = 0) by (apply periodicRate_nonpos; exact Hle).
    assert (Hpay := paymentOf_interest_free input Hle Hacc). fold n in Hpay.
    unfold run. rewrite Hrate, Hpay.
    assert (Hn0 : 0 < INR n) by (apply lt_0_INR; lia).
    repeat split.
    + intros k Hk. rewrite amortize_rate_zero, amortize_interest_free by assumption.
      ring.
    + intros k Hk. rewrite !amortize_interest_free by (assumption || lia).
      rewrite S_INR.
      assert (0 < principalOf input / INR n) by (apply Rdiv_lt_0_compat; assumption).
      lra.
    + rewrite amortize_interest_free by (assumption || lia). field. lra.
  - apply Rnot_le_lt in Hgt.
    assert (Hr : 0 < rate) by (apply periodicRate_pos; exact Hgt).
    assert (Hann := paymentOf_annuity input Hgt Hacc). cbv zeta in Hann.
    fold rate n in Hann. unfold run.
    repeat split.
    + intros k Hk.
      apply (amortize_account_closed _ _ _ n HP Hr Hn Hann k Hk).
    + intros k Hk.
      rewrite !(amortize_closed _ _ _ n HP Hr Hn Hann) by lia.
      apply (closedBalance_decreases _ _ n HP Hr Hn).
    + apply (amortize_at_n _ _ _ n HP Hr Hn Hann).
Qed.

(** X3. A mortgage that is not accelerated follows the schedule of its
    loan before the last period [n] of the amortization: at a positive
    periodic rate [r] the balance after [k < n] periods is
    [P ((1+r)^n - (1+r)^k) / ((1+r)^n - 1)], at rate 0 it is [P - k P/n];
    at any rate it is positive and the next payment strictly lowers it. *)
Theorem plain_loan_follows_the_schedule (input : MortgageInputs) :
  0 < safeNumber (mortgageAmount input) ->
  isAccelerated (paymentFrequency input) = false ->
  let P := safeNumber (mortgageAmount input) in
  let r := periodicRate (interestRate input) (paymentFrequency input) in
  let n := Z.to_nat (periodsOf input) in
  forall k, (k < n)%nat ->
    (0 < r -> balanceAt input k = closedBalance P r n k)
    /\ (r = 0 -> balanceAt input k = P - INR k * (P / INR n))
    /\ 0 < balanceAt input k
    /\ balanceAt input (S k) < balanceAt input k.
Proof.
  intros Hamount Hacc P r n k Hk.
  assert (HPeq : principalOf input = P)
    by (unfold principalOf, P; apply Rmax_right; lra).
  assert (Hn : (1 <= n)%nat) by (unfold n; pose proof (periodsOf_pos input); lia).
  assert (Hn0 : 0 < INR n) by (apply lt_0_INR; lia).
  destruct (plain_loan_account input Hamount Hacc) as (_ & Hdec & _).
  specialize (Hdec k Hk). cbv beta in Hdec. fold (balanceAt input (S k)) in Hdec.
  fold (balanceAt input k) in Hdec.
  destruct (Rle_dec (safeNumber (interestRate input)) 0) as [Hle | Hgt].
  - assert (Hrate : r = 0) by (apply periodicRate_nonpos; exact Hle).
    assert (Hpay := paymentOf_interest_free input Hle Hacc). fold n in Hpay.
    assert (Hbal : balanceAt input k = P - INR k * (P / INR n)).
    { unfold balanceAt. fold r. rewrite Hrate, Hpay, HPeq.
      apply amortize_interest_free; [exact Hamount | exact Hn | lia]. }
    split; [intros Hr; lra |]. split; [intros _; exact Hbal |].
    split; [| exact Hdec].
    rewrite Hbal.
    assert (Hlt : INR k < INR n) by (apply lt_INR; exact Hk).
    assert (Hone : INR n * (P / INR n) = P) by (field; lra).
    assert (Hp : 0 < P / INR n) by (apply Rdiv_lt_0_compat; assumption).
    nra.
  - apply Rnot_le_lt in Hgt.
    assert (Hr : 0 < r) by (apply periodicRate_pos; exact Hgt).
    assert (Hann := paymentOf_annuity input Hgt Hacc). cbv zeta in Hann.
    fold r n in Hann. rewrite HPeq in Hann.
    assert (Hbal : balanceAt input k = closedBalance P r n k).
    { unfold balanceAt. fold r. rewrite HPeq.
      apply (amortize_closed P r (paymentOf input) n Hamount Hr Hn Hann). lia. }
    split; [intros _; exact Hbal |]. split; [intros Hr0; lra |].
    split; [| exact Hdec].
    rewrite Hbal. apply closedBalance_pos; assumption.
Qed.

Lemma plain_loan_follows_the_schedule_witness :
  0 < safeNumber (mortgageAmount (interestFree monthly))
  /\ isAccelerated (paymentFrequency (interestFree monthly)) = false
  /\ balanceAt (interestFree monthly) 6 = 600
  /\ balanceAt (interestFree monthly) 7 < balanceAt (interestFree monthly) 6.
Proof.
  assert (H1 : 0 < safeNumber (mortgageAmount (interestFree monthly)))
    by (simpl; lra).
  pose proof (plain_loan_follows_the_schedule (interestFree monthly) H1 eq_refl) as H.
  cbv zeta in H. rewrite interestFree_periods in H.
  change (Z.to_nat (paymentsPerYear monthly)) with 12%nat in H.
  destruct (H 6%nat ltac:(lia)) as (_ & Hzero & _ & Hfall).
  repeat split; [exact H1 | | exact Hfall].
  rewrite Hzero.
  - cbn [interestFree withFrequency mortgageAmount safeNumber]. simpl INR. field.
  - apply periodicRate_nonpos. simpl. lra.
Defined.

(** X4. For a mortgage that is not accelerated, what has been paid when
    the loop ends is the interest of the term plus the principal repaid:
    payment x min(term periods, amortization periods)
    = totalInterestTerm + (principal - balanceAfterTerm). *)
Theorem payments_are_interest_plus_principal (input : MortgageInputs) :
  0 < safeNumber (mortgageAmount input) ->
  isAccelerated (paymentFrequency input) = false ->
  let result := calculateMortgage input in
  payment result * IZR (Z.min (termPeriodsOf input) (periodsOf input))
  = totalInterestTerm result
    + (safeNumber (mortgageAmount input) - balanceAfterTerm result).
Proof.
  intros Hamount Hacc result.
  assert (HPeq : principalOf input = safeNumber (mortgageAmount input))
    by (unfold principalOf; apply Rmax_right; lra).
  destruct (plain_loan_account input Hamount Hacc) as (Hacct & _ & Hzero).
  unfold result. rewrite calculateMortgage_positive by lra.
  cbv zeta. cbn [payment totalInterestTerm balanceAfterTerm].
  rewrite <- HPeq.
  pose proof (periodsOf_pos input) as Hn.
  pose proof (termPeriodsOf_pos input) as Ht.
  set (n := Z.to_nat (periodsOf input)) in *.
  set (t := Z.to_nat (termPeriodsOf input)) in *.
  destruct (Z.le_gt_cases (termPeriodsOf input) (periodsOf input)) as [Hle | Hgt].
  - rewrite Z.min_l by exact Hle.
    rewrite <- (Z2Nat.id (termPeriodsOf input)) at 1 by lia.
    rewrite <- INR_IZR_INZ. fold t.
    pose proof (Hacct t ltac:(unfold t, n; lia)) as Ha. cbv beta in Ha. lra.
  - rewrite Z.min_r by lia.
    rewrite <- (Z2Nat.id (periodsOf input)) at 1 by lia.
    rewrite <- INR_IZR_INZ. fold n.
    destruct (amortize_paid_off (paymentOf input)
                (periodicRate (interestRate input) (paymentFrequency input))
                (principalOf input) n t)
      as (Hf & Hs);
      [apply paymentOf_nonneg | apply principalOf_nonneg | exact Hzero
      | unfold t, n; lia |].
    rewrite Hf, Hs.
    pose proof (Hacct n ltac:(lia)) as Ha. cbv beta in Ha, Hzero.
    rewrite Hzero in Ha. lra.
Qed.

Lemma payments_are_interest_plus_principal_witness :
  let result := calculateMortgage scenarioA in
  payment result * 130
  = totalInterestTerm result + (800000 - balanceAfterTerm result).
Proof.
  cbv zeta.
  pose proof (payments_are_interest_plus_principal scenarioA) as H.
  cbv zeta in H.
  assert (Hn : periodsOf scenarioA = 650%Z) by exact (scenarioA_periods bi_weekly).
  assert (Ht : termPeriodsOf scenarioA = 130%Z)
    by exact (scenarioA_termPeriods bi_weekly).
  rewrite Hn, Ht in H.
  apply H; [simpl; lra | reflexivity].
Defined.

(** *** The investment metrics *)

Lemma verdict_of_capRate (price : number) (rentRange : RentRange)
    (expenses : ExpenseInputs) (mortgagePaymentAnnual : number) :
  let m := calculateInvestment price rentRange expenses mortgagePaymentAnnual in
  verdictRank (verdict m)
  = if Rge_dec (capRate m) 0.045 then 2%nat
    else if Rge_dec (capRate m) 0.03 then 1%nat else 0%nat.
Proof.
  cbv zeta. unfold calculateInvestment. cbv zeta. cbn [verdict capRate].
  destruct (Rge_dec _ 0.045); [reflexivity |].
  destruct (Rge_dec _ 0.03); reflexivity.
Qed.

Lemma verdictRank_monotone (c1 c2 : R) :
  c1 <= c2 ->
  ((if Rge_dec c1 0.045 then 2 else if Rge_dec c1 0.03 then 1 else 0)
   <= (if Rge_dec c2 0.045 then 2 else if Rge_dec c2 0.03 then 1 else 0))%nat.
Proof.
  intros H.
  destruct (Rge_dec c1 0.045), (Rge_dec c1 0.03), (Rge_dec c2 0.045),
    (Rge_dec c2 0.03); try lia; lra.
Qed.

(** The NOI of [calculateInvestment], factored. *)
Lemma noiAnnual_factored (price : number) (rentRange : RentRange)
    (expenses : ExpenseInputs) (mortgagePaymentAnnual : number) :
  noiAnnual (calculateInvestment price rentRange expenses mortgagePaymentAnnual)
  = safeNumber (median rentRange) * 12
    * (1 - safeNumber (vacancyPercent expenses) / 100)
    * (1 - (safeNumber (managementPercent expenses)
            + safeNumber (maintenancePercent expenses)
            + safeNumber (reservesPercent expenses)) / 100)
    - (safeNumber (insuranceAnnual expenses) + safeNumber (utilitiesAnnual expenses)
       + safeNumber (propertyTaxAnnual expenses)
       + safeNumber (hoaMonthly expenses) * 12).
Proof. unfold calculateInvestment. cbv zeta. cbn [noiAnnual]. field. Qed.

Lemma capRate_of_price (price : number) (rentRange : RentRange)
    (expenses : ExpenseInputs) (mortgagePaymentAnnual : number) :
  let m := calculateInvestment price rentRange expenses mortgagePaymentAnnual in
  capRate m
  = match price with
    | Fin p => if Rgt_dec p 0 then noiAnnual m / p else 0
    | _ => 0
    end.
Proof.
  cbv zeta. unfold calculateInvestment. cbv zeta. cbn [capRate noiAnnual].
  destruct price as [p | | |]; simpl; try reflexivity.
  destruct (Rgt_dec p 0); reflexivity.
Qed.

(** X5. [calculateInvestment] reads every input but the mortgage payment
    through the not-a-number guard: replacing each non-finite input by 0
    changes neither NOI, cap rate, DSCR nor verdict, and the annual cash
    flow is finite exactly when the mortgage payment is. *)
Theorem calculateInvestment_non_finite (price : number) (rentRange : RentRange)
    (expenses : ExpenseInputs) (mortgagePaymentAnnual : number) :
  let m := calculateInvestment price rentRange expenses mortgagePaymentAnnual in
  let m0 := calculateInvestment (sanitizeNumber price) (sanitizeRentRange rentRange)
              (sanitizeExpenses expenses) (sanitizeNumber mortgagePaymentAnnual) in
  noiAnnual m = noiAnnual m0
  /\ capRate m = capRate m0
  /\ dscr m = dscr m0
  /\ verdict m = verdict m0
  /\ isFinite (cashFlowAnnual m) = isFinite mortgagePaymentAnnual
  /\ (isFinite mortgagePaymentAnnual = true -> cashFlowAnnual m = cashFlowAnnual m0).
Proof.
  cbv zeta.
  assert (Hcap : capRate (calculateInvestment price rentRange expenses
                            mortgagePaymentAnnual)
                 = capRate (calculateInvestment (sanitizeNumber price)
                              (sanitizeRentRange rentRange) (sanitizeExpenses expenses)
                              (sanitizeNumber mortgagePaymentAnnual))).
  { unfold calculateInvestment. cbv zeta. cbn [capRate].
    unfold sanitizeNumber, sanitizeRentRange, sanitizeExpenses.
    cbn [median vacancyPercent maintenancePercent managementPercent reservesPercent
         insuranceAnnual utilitiesAnnual hoaMonthly propertyTaxAnnual safeNumber].
    destruct price as [p | | |]; cbn [js_gt0 js_div_pos safeNumber]; try reflexivity;
      destruct (Rgt_dec 0 0) as [H | _]; try lra; reflexivity. }
  split; [reflexivity |]. split; [exact Hcap |].
  split.
  { unfold calculateInvestment. cbv zeta. cbn [dscr].
    unfold sanitizeNumber, sanitizeRentRange, sanitizeExpenses.
    cbn [median vacancyPercent maintenancePercent managementPercent reservesPercent
         insuranceAnnual utilitiesAnnual hoaMonthly propertyTaxAnnual safeNumber].
    destruct mortgagePaymentAnnual as [d | | |];
      cbn [js_gt0 js_div_pos safeNumber]; try reflexivity;
      destruct (Rgt_dec 0 0) as [H | _]; try lra; reflexivity. }
  split.
  { unfold calculateInvestment in *. cbv zeta in *. cbn [verdict capRate] in *.
    rewrite Hcap. reflexivity. }
  split.
  - unfold calculateInvestment. cbv zeta. cbn [cashFlowAnnual].
    destruct mortgagePaymentAnnual; reflexivity.
  - intros Hfin. destruct mortgagePaymentAnnual; try discriminate. reflexivity.
Qed.

Lemma calculateInvestment_non_finite_witness :
  cashFlowAnnual
    (calculateInvestment (Fin 1100000) (mkRentRange NaN (Fin 3300) NaN manual)
       defaultExpenses (Fin 26000))
  = cashFlowAnnual
      (calculateInvestment (Fin 1100000)
         (sanitizeRentRange (mkRentRange NaN (Fin 3300) NaN manual))
         (sanitizeExpenses defaultExpenses) (Fin 26000)).
Proof.
  apply (calculateInvestment_non_finite (Fin 1100000)
           (mkRentRange NaN (Fin 3300) NaN manual) defaultExpenses (Fin 26000)).
  reflexivity.
Defined.

(** X6. With a positive finite annual mortgage payment [d], DSCR x [d] is
    the NOI, the annual cash flow is NOI - [d], and the debt is covered
    (DSCR at least 1) exactly when the cash flow is not negative. *)
Theorem dscr_and_cash_flow (price : number) (rentRange : RentRange)
    (expenses : ExpenseInputs) (d : R) :
  0 < d ->
  let m := calculateInvestment price rentRange expenses (Fin d) in
  dscr m * d = noiAnnual m
  /\ cashFlowAnnual m = Fin (noiAnnual m - d)
  /\ (1 <= dscr m <-> 0 <= noiAnnual m - d).
Proof.
  intros Hd. cbv zeta. unfold calculateInvestment. cbv zeta.
  cbn [dscr noiAnnual cashFlowAnnual js_gt0 js_div_pos js_sub].
  set (noi := _ - _).
  destruct (Rgt_dec d 0) as [_ | N]; [| lra].
  split; [field; lra |]. split; [reflexivity |].
  split; intros H.
  - apply (Rmult_le_compat_r d) in H; [| lra].
    replace (noi / d * d) with noi in H by (field; lra). lra.
  - apply (Rmult_le_reg_r d); [lra |].
    replace (noi / d * d) with noi by (field; lra). lra.
Qed.

Lemma dscr_and_cash_flow_witness :
  let m := calculateInvestment (Fin 1100000) (estimateRentRange (Fin 1100000))
             defaultExpenses (Fin 26000) in
  dscr m * 26000 = noiAnnual m.
Proof.
  cbv zeta.
  apply (dscr_and_cash_flow (Fin 1100000) (estimateRentRange (Fin 1100000))
           defaultExpenses 26000).
  lra.
Defined.

(** X7. A higher price never gives a better verdict: for the same rent
    and expenses and two positive prices, the verdict at the higher price
    ranks at most the verdict at the lower one. *)
Theorem verdict_falls_with_price (p1 p2 : R) (rentRange : RentRange)
    (expenses : ExpenseInputs) (mortgagePaymentAnnual : number) :
  0 < p1 -> p1 <= p2 ->
  (verdictRank (verdict (calculateInvestment (Fin p2) rentRange expenses
                           mortgagePaymentAnnual))
   <= verdictRank (verdict (calculateInvestment (Fin p1) rentRange expenses
                              mortgagePaymentAnnual)))%nat.
Proof.
  intros H1 H12.
  pose proof (verdict_of_capRate (Fin p1) rentRange expenses mortgagePaymentAnnual) as V1.
  pose proof (verdict_of_capRate (Fin p2) rentRange expenses mortgagePaymentAnnual) as V2.
  pose proof (capRate_of_price (Fin p1) rentRange expenses mortgagePaymentAnnual) as C1.
  pose proof (capRate_of_price (Fin p2) rentRange expenses mortgagePaymentAnnual) as C2.
  cbv beta iota zeta in *.
  destruct (Rgt_dec p1 0) as [_ | N]; [| lra].
  destruct (Rgt_dec p2 0) as [_ | N]; [| lra].
  assert (Hnoi : noiAnnual (calculateInvestment (Fin p2) rentRange expenses
                              mortgagePaymentAnnual)
                 = noiAnnual (calculateInvestment (Fin p1) rentRange expenses
                                mortgagePaymentAnnual)) by reflexivity.
  rewrite Hnoi in C2.
  set (noi := noiAnnual (calculateInvestment (Fin p1) rentRange expenses
                           mortgagePaymentAnnual)) in *.
  rewrite V1, V2, C1, C2.
  assert (Hinv : / p2 <= / p1) by (apply Rinv_le_contravar; lra).
  assert (0 < / p2) by (apply Rinv_0_lt_compat; lra).
  assert (0 < / p1) by (apply Rinv_0_lt_compat; lra).
  destruct (Rle_dec 0 noi) as [Hpos | Hneg].
  - apply verdictRank_monotone. unfold Rdiv. apply Rmult_le_compat_l; assumption.
  - assert (noi / p2 < 0) by (unfold Rdiv; nra).
    destruct (Rge_dec (noi / p2) 0.045); [lra |].
    destruct (Rge_dec (noi / p2) 0.03); [lra | lia].
Qed.

Lemma verdict_falls_with_price_witness :
  (verdictRank (verdict (calculateInvestment (Fin 1200000)
                           (estimateRentRange (Fin 1100000)) defaultExpenses (Fin 0)))
   <= verdictRank (verdict (calculateInvestment (Fin 1100000)
                              (estimateRentRange (Fin 1100000)) defaultExpenses
                              (Fin 0))))%nat.
Proof.
  apply (verdict_falls_with_price 1100000 1200000); lra.
Defined.

(** X8. A higher rent never gives a worse verdict, for expenses a user
    can enter (vacancy at most 100 percent, management, maintenance and
    reserves together at most 100 percent) and a positive price. *)
Theorem verdict_rises_with_rent (p : R) (r1 r2 : RentRange)
    (expenses : ExpenseInputs) (mortgagePaymentAnnual : number) :
  0 < p ->
  safeNumber (vacancyPercent expenses) <= 100 ->
  safeNumber (managementPercent expenses) + safeNumber (maintenancePercent expenses)
  + safeNumber (reservesPercent expenses) <= 100 ->
  safeNumber (median r1) <= safeNumber (median r2) ->
  let m1 := calculateInvestment (Fin p) r1 expenses mortgagePaymentAnnual in
  let m2 := calculateInvestment (Fin p) r2 expenses mortgagePaymentAnnual in
  noiAnnual m1 <= noiAnnual m2
  /\ (verdictRank (verdict m1) <= verdictRank (verdict m2))%nat.
Proof.
  intros Hp Hv He Hr m1 m2.
  assert (Hnoi : noiAnnual m1 <= noiAnnual m2).
  { unfold m1, m2. rewrite !noiAnnual_factored.
    set (v := 1 - safeNumber (vacancyPercent expenses) / 100).
    set (e := 1 - (safeNumber (managementPercent expenses)
                   + safeNumber (maintenancePercent expenses)
                   + safeNumber (reservesPercent expenses)) / 100).
    assert (0 <= v) by (unfold v; lra).
    assert (0 <= e) by (unfold e; lra).
    assert (0 <= v * e) by (apply Rmult_le_pos; assumption).
    nra. }
  split; [exact Hnoi |].
  pose proof (verdict_of_capRate (Fin p) r1 expenses mortgagePaymentAnnual) as V1.
  pose proof (verdict_of_capRate (Fin p) r2 expenses mortgagePaymentAnnual) as V2.
  pose proof (capRate_of_price (Fin p) r1 expenses mortgagePaymentAnnual) as C1.
  pose proof (capRate_of_price (Fin p) r2 expenses mortgagePaymentAnnual) as C2.
  cbv beta iota zeta in V1, V2, C1, C2. fold m1 in V1, C1. fold m2 in V2, C2.
  destruct (Rgt_dec p 0) as [_ | N]; [| lra].
  rewrite V1, V2, C1, C2.
  apply verdictRank_monotone.
  unfold Rdiv. apply Rmult_le_compat_r; [| exact Hnoi].
  left. apply Rinv_0_lt_compat. lra.
Qed.

Lemma verdict_rises_with_rent_witness :
  noiAnnual (calculateInvestment (Fin 1100000) (mkRentRange (Fin 0) (Fin 3300) (Fin 0) manual)
               defaultExpenses (Fin 0))
  <= noiAnnual (calculateInvestment (Fin 1100000)
                  (mkRentRange (Fin 0) (Fin 4000) (Fin 0) manual)
                  defaultExpenses (Fin 0)).
Proof.
  apply (verdict_rises_with_rent 1100000
           (mkRentRange (Fin 0) (Fin 3300) (Fin 0) manual)
           (mkRentRange (Fin 0) (Fin 4000) (Fin 0) manual)
           defaultExpenses (Fin 0)); simpl; lra.
Defined.

(** *** The rent estimate of the page *)

Lemma estimateRentRange_median (price : number) :
  0 <= safeNumber (median (estimateRentRange price))
  /\ (forall p, price = Fin p -> 0 < p ->
      safeNumber (median (estimateRentRange price)) = p * 0.003)
  /\ (forall p, price = Fin p ->
      safeNumber (median (estimateRentRange price)) * 12 <= 0.036 * Rmax 0 p).
Proof.
  unfold estimateRentRange. cbv zeta. cbn [median].
  destruct price as [p | | |]; cbn [js_gt0 js_mul safeNumber].
  - destruct (Rgt_dec p 0) as [Hp | Hp]; cbn [safeNumber].
    + split; [lra |]. split; [intros q [= <-] _; reflexivity |].
      intros q [= <-]. rewrite Rmax_right by lra. lra.
    + split; [lra |]. split; [intros q [= <-] Hq; lra |].
      intros q [= <-]. rewrite Rmax_left by lra. lra.
  - destruct (Rgt_dec 0.003 0) as [_ | N]; [| lra]. cbn [safeNumber].
    split; [lra |]. split; intros q Hq; discriminate.
  - split; [cbn [safeNumber]; lra |]. split; intros q Hq; discriminate.
  - split; [cbn [safeNumber]; lra |]. split; intros q Hq; discriminate.
Qed.

(** X9. The rent estimate is 0.3 percent of a positive price a month,
    with the low and high ends 12 percent below and above it, and zero
    for any other price.  Whatever the price, a purchase judged on this
    estimate with expenses a user can enter has a cap rate of at most 3.6
    percent and is never Excellent. *)
Theorem web_estimate_is_never_excellent (price : number) (expenses : ExpenseInputs)
    (mortgagePaymentAnnual : number) :
  plausibleExpenses expenses ->
  let range := estimateRentRange price in
  let m := calculateInvestment price range expenses mortgagePaymentAnnual in
  safeNumber (low range) <= safeNumber (median range) <= safeNumber (high range)
  /\ (forall p, price = Fin p -> 0 < p ->
      low range = Fin (p * 0.003 * 0.88)
      /\ median range = Fin (p * 0.003)
      /\ high range = Fin (p * 0.003 * 1.12))
  /\ (js_gt0 price = false -> median range = Fin 0)
  /\ capRate m <= 0.036
  /\ verdict m <> Excellent.
Proof.
  intros (Hv & Hmg & Hmt & Hrs & Hsum & Hins & Hut & Hhoa & Htax) range m.
  assert (Horder : safeNumber (low range) <= safeNumber (median range)
                   <= safeNumber (high range)).
  { unfold range, estimateRentRange. cbv zeta. cbn [low median high].
    destruct price as [p | | |]; cbn [js_gt0 js_mul safeNumber].
    - destruct (Rgt_dec p 0); cbn [js_mul safeNumber]; lra.
    - destruct (Rgt_dec 0.003 0) as [_ | N]; [| lra].
      cbn [js_mul]. destruct (Rgt_dec 0.88 0) as [_ | N]; [| lra].
      destruct (Rgt_dec 1.12 0) as [_ | N]; [| lra]. cbn [safeNumber]. lra.
    - cbn [js_mul safeNumber]. lra.
    - cbn [js_mul safeNumber]. lra. }
  split; [exact Horder |].
  split.
  { intros p -> Hp. unfold range, estimateRentRange. cbv zeta.
    cbn [low median high js_gt0 js_mul].
    destruct (Rgt_dec p 0) as [_ | N]; [| lra]. repeat split. }
  split.
  { intros Hng. unfold range, estimateRentRange. cbv zeta. cbn [median].
    rewrite Hng. reflexivity. }
  assert (Hcap : capRate m <= 0.036).
  { pose proof (capRate_of_price price range expenses mortgagePaymentAnnual) as C.
    cbv zeta in C. fold m in C. rewrite C.
    destruct price as [p | | |]; try lra.
    destruct (Rgt_dec p 0) as [Hp | _]; [| lra].
    apply (Rmult_le_reg_r p); [lra |].
    replace (noiAnnual m / p * p) with (noiAnnual m) by (field; lra).
    unfold m. rewrite noiAnnual_factored.
    destruct (estimateRentRange_median (Fin p)) as (_ & Hmed & _).
    unfold range. rewrite (Hmed p eq_refl Hp).
    set (v := 1 - safeNumber (vacancyPercent expenses) / 100).
    set (e := 1 - (safeNumber (managementPercent expenses)
                   + safeNumber (maintenancePercent expenses)
                   + safeNumber (reservesPercent expenses)) / 100).
    assert (0 <= v <= 1) by (unfold v; lra).
    assert (0 <= e <= 1) by (unfold e; lra).
    assert (v * e <= 1) by nra.
    assert (0 <= v * e) by (apply Rmult_le_pos; lra).
    nra. }
  split; [exact Hcap |].
  intros Hex.
  pose proof (verdict_of_capRate price range expenses mortgagePaymentAnnual) as V.
  cbv zeta in V. fold m in V. rewrite Hex in V. cbn [verdictRank] in V.
  destruct (Rge_dec (capRate m) 0.045) as [H | _]; [lra |].
  destruct (Rge_dec (capRate m) 0.03); discriminate.
Qed.

Lemma web_estimate_is_never_excellent_witness :
  plausibleExpenses defaultExpenses
  /\ verdict (calculateInvestment (Fin 1100000) (estimateRentRange (Fin 1100000))
                defaultExpenses (Fin 26000)) <> Excellent.
Proof.
  assert (H : plausibleExpenses defaultExpenses).
  { unfold plausibleExpenses, defaultExpenses. simpl. repeat split; lra. }
  split; [exact H |].
  apply (web_estimate_is_never_excellent (Fin 1100000) defaultExpenses (Fin 26000) H).
Defined.

End RentalVerdictMore.

(** ** The property comparison calculations *)

Module CalculationsFacts.
Import Calculations.

Lemma calculateDebtService_annuity (L : R) (annualRate termYears : number) :
  0 < L -> 0 < safeNumber annualRate ->
  let r := safeNumber annualRate / 100 / 12 in
  let n := Z.to_nat (Z.max 1 (Math_round (safeNumber termYears * 12))) in
  calculateDebtService (Fin L) annualRate termYears * ((1 + r) ^ n - 1)
  = L * r * (1 + r) ^ n.
Proof.
  intros HL Ha r n. unfold calculateDebtService. cbn [safeNumber].
  destruct (Rle_dec L 0) as [Hle | _]; [lra |].
  fold r. destruct (Rle_dec r 0) as [Hle | _]; [unfold r in Hle; lra |].
  fold n.
  assert (1 < (1 + r) ^ n).
  { apply RentalVerdictFacts.growth_gt_1; [unfold r; lra | unfold n; lia]. }
  field. lra.
Qed.

(** The payment of a positive loan against the amortization loop. *)
Lemma debtService_payoff (L : R) (annualRate termYears : number) :
  0 < L ->
  let months := Z.to_nat (Z.max 1 (Math_round (safeNumber termYears * 12))) in
  let r := Rmax 0 (safeNumber annualRate / 100 / 12) in
  let m := calculateDebtService (Fin L) annualRate termYears in
  L * r < m
  /\ L / INR months <= m
  /\ (forall k, (k < months)%nat -> 0 < fst (RentalVerdict.amortize k m r L 0))
  /\ fst (RentalVerdict.amortize months m r L 0) = 0
  /\ m = SellDecision.calculateMonthlyPayment (Fin L) annualRate termYears.
Proof.
  intros HL months r m.
  assert (Hn : (1 <= months)%nat) by (unfold months; lia).
  assert (Hn0 : 0 < INR months) by (apply lt_0_INR; lia).
  destruct (Rle_dec (safeNumber annualRate / 100 / 12) 0) as [Hle | Hgt].
  - assert (Hr : r = 0) by (unfold r; apply Rmax_left; exact Hle).
    assert (Hm : m = L / INR months).
    { unfold m, calculateDebtService. cbn [safeNumber].
      destruct (Rle_dec L 0) as [H | _]; [lra |].
      destruct (Rle_dec (safeNumber annualRate / 100 / 12) 0) as [_ | N];
        [| contradiction].
      unfold months. rewrite INR_IZR_INZ, Z2Nat.id by lia. reflexivity. }
    assert (Hp : 0 < L / INR months) by (apply Rdiv_lt_0_compat; assumption).
    rewrite Hr, Hm.
    split; [lra |]. split; [lra |].
    split.
    + intros k Hk.
      rewrite RentalVerdictMore.amortize_interest_free by (assumption || lia).
      assert (INR (S k) <= INR months) by (apply le_INR; lia).
      rewrite S_INR in *.
      assert (INR months * (L / INR months) = L) by (field; lra).
      nra.
    + split; [| rewrite <- Hm; reflexivity].
      rewrite RentalVerdictMore.amortize_interest_free by (assumption || lia).
      field. lra.
  - apply Rnot_le_lt in Hgt.
    assert (Hr : r = safeNumber annualRate / 100 / 12)
      by (unfold r; apply Rmax_right; lra).
    assert (Hrate : 0 < safeNumber annualRate) by lra.
    pose proof (calculateDebtService_annuity L annualRate termYears HL Hrate) as Hann.
    cbv zeta in Hann. rewrite <- Hr in Hann. fold months m in Hann.
    assert (Hr0 : 0 < r) by lra.
    pose proof (RentalVerdictFacts.growth_gt_1 r months Hr0 Hn) as Hg.
    assert (Hpay : L * r < m).
    { apply (Rmult_lt_reg_r ((1 + r) ^ months - 1)); [lra |].
      rewrite Hann. nra. }
    split; [exact Hpay |].
    split.
    { pose proof (RentalVerdictMore.amortize_account_closed L r m months
                    HL Hr0 Hn Hann months (Nat.le_refl _)) as Hacc.
      rewrite (RentalVerdictFacts.amortize_at_n L r m months HL Hr0 Hn Hann) in Hacc.
      pose proof (RentalVerdictMore.amortize_interest_nonneg months m r L 0
                    ltac:(lra) ltac:(lra)) as Hint.
      apply (Rmult_le_reg_r (INR months)); [exact Hn0 |].
      replace (L / INR months * INR months) with L by (field; lra). lra. }
    split.
    { intros k Hk.
      apply (RentalVerdictFacts.amortize_before_n L r m months HL Hr0 Hn Hann k Hk). }
    split; [apply (RentalVerdictFacts.amortize_at_n L r m months HL Hr0 Hn Hann) |].
    reflexivity.
Qed.

(** X10. The monthly payment of [calculateDebtService] on a positive loan
    is the annuity of the months of its term at the monthly rate (a rate
    that is not positive counting as 0, where the payment is the loan
    divided by the months).  It exceeds the first month's interest, it is
    at least the loan divided by the months, and the amortization loop run
    with it holds a positive balance before the last month, which every
    payment strictly lowers.  [calculateMonthlyPayment] of the decision
    engine is the same function. *)
Theorem debt_service_pays_the_loan_down (L : R) (annualRate termYears : number) :
  0 < L ->
  let months := Z.to_nat (Z.max 1 (Math_round (safeNumber termYears * 12))) in
  let r := Rmax 0 (safeNumber annualRate / 100 / 12) in
  let m := calculateDebtService (Fin L) annualRate termYears in
  L * r < m
  /\ L / INR months <= m
  /\ (0 < r -> m * ((1 + r) ^ months - 1) = L * r * (1 + r) ^ months)
  /\ (r = 0 -> m = L / INR months)
  /\ (forall k, (k < months)%nat ->
        0 < fst (RentalVerdict.amortize k m r L 0)
        /\ fst (RentalVerdict.amortize (S k) m r L 0)
           < fst (RentalVerdict.amortize k m r L 0))
  /\ m = SellDecision.calculateMonthlyPayment (Fin L) annualRate termYears.
Proof.
  intros HL months r m.
  destruct (debtService_payoff L annualRate termYears HL)
    as (Hint & Hshare & Hpos & _ & Hsame).
  fold months r m in Hint, Hshare, Hpos, Hsame.
  assert (Hn : (1 <= months)%nat) by (unfold months; lia).
  assert (Hn0 : 0 < INR months) by (apply lt_0_INR; lia).
  split; [exact Hint |]. split; [exact Hshare |].
  destruct (Rle_dec (safeNumber annualRate / 100 / 12) 0) as [Hle | Hgt].
  - assert (Hr : r = 0) by (unfold r; apply Rmax_left; exact Hle).
    assert (Hm : m = L / INR months).
    { unfold m, calculateDebtService. cbn [safeNumber].
      destruct (Rle_dec L 0) as [H | _]; [lra |].
      destruct (Rle_dec (safeNumber annualRate / 100 / 12) 0) as [_ | N];
        [| contradiction].
      unfold months. rewrite INR_IZR_INZ, Z2Nat.id by lia. reflexivity. }
    split; [intros Hr0; lra |]. split; [intros _; exact Hm |].
    split; [| exact Hsame].
    intros k Hk. split; [apply Hpos, Hk |].
    rewrite Hr, Hm.
    rewrite !RentalVerdictMore.amortize_interest_free by (assumption || lia).
    assert (0 < L / INR months) by (apply Rdiv_lt_0_compat; assumption).
    rewrite S_INR. lra.
  - apply Rnot_le_lt in Hgt.
    assert (Hr : r = safeNumber annualRate / 100 / 12)
      by (unfold r; apply Rmax_right; lra).
    assert (Hrate : 0 < safeNumber annualRate) by lra.
    pose proof (calculateDebtService_annuity L annualRate termYears HL Hrate) as Hann.
    cbv zeta in Hann. rewrite <- Hr in Hann. fold months m in Hann.
    assert (Hr0 : 0 < r) by lra.
    split; [intros _; exact Hann |]. split; [intros H0; lra |].
    split; [| exact Hsame].
    intros k Hk. split; [apply Hpos, Hk |].
    apply (RentalVerdictFacts.amortize_falls L r m months HL Hr0 Hn Hann k Hk).
Qed.

Lemma debt_service_pays_the_loan_down_witness :
  let r := Rmax 0 (6.75 / 100 / 12) in
  let m := calculateDebtService (Fin 450000) (Fin 6.75) (Fin 30) in
  450000 * r < m
  /\ m * ((1 + r) ^ 360 - 1) = 450000 * r * (1 + r) ^ 360
  /\ 0 < fst (RentalVerdict.amortize 359 m r 450000 0)
  /\ fst (RentalVerdict.amortize 1 m r 450000 0) < 450000.
Proof.
  cbv zeta.
  assert (Hn : Z.to_nat (Z.max 1 (Math_round (safeNumber (Fin 30) * 12))) = 360%nat).
  { cbn [safeNumber]. replace (30 * 12) with (IZR 360) by lra.
    rewrite Math_round_IZR. reflexivity. }
  destruct (debt_service_pays_the_loan_down 450000 (Fin 6.75) (Fin 30))
    as (H1 & _ & H3 & _ & H5 & _); [lra |].
  rewrite Hn in H3, H5. cbn [safeNumber] in H1, H3, H5.
  assert (Hr : 0 < Rmax 0 (6.75 / 100 / 12)) by (rewrite Rmax_right; lra).
  split; [exact H1 |]. split; [apply H3, Hr |].
  split; [apply (H5 359%nat); lia |].
  destruct (H5 0%nat ltac:(lia)) as (_ & Hfall). exact Hfall.
Defined.

Lemma calculateDebtService_nonpos (loanAmount annualRate termYears : number) :
  safeNumber loanAmount <= 0 ->
  calculateDebtService loanAmount annualRate termYears = 0.
Proof.
  intros H. unfold calculateDebtService.
  destruct (Rle_dec (safeNumber loanAmount) 0) as [_ | N]; [reflexivity | lra].
Qed.

Lemma calculateDebtService_pos (loanAmount annualRate termYears : number) :
  0 < safeNumber loanAmount ->
  0 < calculateDebtService loanAmount annualRate termYears.
Proof.
  intros HL.
  pose proof (debtService_payoff (safeNumber loanAmount) annualRate termYears HL)
    as (Hint & _).
  cbv zeta in Hint.
  assert (Heq : calculateDebtService (Fin (safeNumber loanAmount)) annualRate termYears
                = calculateDebtService loanAmount annualRate termYears) by reflexivity.
  rewrite Heq in Hint.
  pose proof (Rmax_l 0 (safeNumber annualRate / 100 / 12)).
  assert (0 <= safeNumber loanAmount
               * Rmax 0 (safeNumber annualRate / 100 / 12))
    by (apply Rmult_le_pos; lra).
  lra.
Qed.

Lemma calculateDebtService_pos_iff (loanAmount annualRate termYears : number) :
  0 < calculateDebtService loanAmount annualRate termYears
  <-> 0 < safeNumber loanAmount.
Proof.
  split.
  - intros Hpos. destruct (Rle_dec (safeNumber loanAmount) 0) as [Hle | Hgt]; [| lra].
    rewrite (calculateDebtService_nonpos _ _ _ Hle) in Hpos. lra.
  - apply calculateDebtService_pos.
Qed.

(** X11. [calculateDebtService] charges nothing exactly when there is
    nothing to lend: its result is positive when the loan amount is a
    positive finite number and 0 otherwise. *)
Theorem debt_service_positive_iff (loanAmount annualRate termYears : number) :
  (0 < calculateDebtService loanAmount annualRate termYears
   <-> 0 < safeNumber loanAmount)
  /\ (safeNumber loanAmount <= 0 ->
      calculateDebtService loanAmount annualRate termYears = 0).
Proof.
  split; [apply calculateDebtService_pos_iff | apply calculateDebtService_nonpos].
Qed.

Lemma debt_service_positive_iff_witness :
  calculateDebtService NaN (Fin 6.75) (Fin 30) = 0.
Proof.
  apply (debt_service_positive_iff NaN (Fin 6.75) (Fin 30)). simpl. lra.
Defined.

(** *** The metrics *)

(** X12. The comparison reports what the two metrics were computed from:
    its net sale proceeds are the cash invested of the current property,
    its new monthly payment is the debt service of the candidate, paid on
    its new loan amount, and neither proceeds nor loan amount is
    negative. *)
Theorem comparison_is_consistent (currentInput : CurrentPropertyInputs)
    (newInput : NewPropertyInputs) :
  let c := calculateComparison currentInput newInput in
  current c = calculateCurrentMetrics currentInput
  /\ next c = calculateNewMetrics newInput
  /\ saleNetProceeds c = cashInvested (current c)
  /\ newMonthlyPayment c = debtServiceMonthly (next c)
  /\ newMonthlyPayment c
     = calculateDebtService (Fin (newLoanAmount c)) (interestRate newInput)
         (loanTermYears newInput)
  /\ 0 <= saleNetProceeds c
  /\ 0 <= newLoanAmount c
  /\ (0 < newMonthlyPayment c <-> 0 < newLoanAmount c).
Proof.
  cbv zeta. repeat split; try reflexivity; try apply Rmax_l.
  - intros H. apply calculateDebtService_pos_iff in H. exact H.
  - intros H. apply calculateDebtService_pos_iff. exact H.
Qed.

(** X13. The ratios of both metrics are guarded: the cash invested is
    never negative; cap rate x value is the annual NOI for a positive
    value and the cap rate is 0 otherwise; cash-on-cash x cash invested is
    the annual cash flow when cash is invested and cash-on-cash is 0
    otherwise. *)
Theorem metrics_ratios_are_guarded (currentInput : CurrentPropertyInputs)
    (newInput : NewPropertyInputs) :
  let guarded := fun (m : PropertyMetrics) (value : R) =>
    0 <= cashInvested m
    /\ (0 < value -> capRate m * value = noiAnnual m)
    /\ (value <= 0 -> capRate m = 0)
    /\ (0 < cashInvested m -> cashOnCash m * cashInvested m = cashFlowAnnual m)
    /\ (cashInvested m = 0 -> cashOnCash m = 0) in
  guarded (calculateCurrentMetrics currentInput) (safeNumber (salePrice currentInput))
  /\ guarded (calculateNewMetrics newInput) (safeNumber (purchasePrice newInput)).
Proof.
  cbv zeta beta. split.
  - unfold calculateCurrentMetrics. cbv zeta.
    cbn [cashInvested capRate noiAnnual cashOnCash cashFlowAnnual].
    set (value := safeNumber (salePrice currentInput)).
    set (invested := Rmax 0 _).
    set (flow := _ * 12). set (noi := _ * 12).
    split; [apply Rmax_l |].
    destruct (Rgt_dec value 0) as [Hv | Hv];
      destruct (Rgt_dec invested 0) as [Hi | Hi];
      repeat split; intros; try lra; field; lra.
  - unfold calculateNewMetrics. cbv zeta.
    cbn [cashInvested capRate noiAnnual cashOnCash cashFlowAnnual].
    set (value := safeNumber (purchasePrice newInput)).
    set (invested := Rmax 0 _).
    set (flow := _ * 12). set (noi := _ * 12).
    split; [apply Rmax_l |].
    destruct (Rgt_dec value 0) as [Hv | Hv];
      destruct (Rgt_dec invested 0) as [Hi | Hi];
      repeat split; intros; try lra; field; lra.
Qed.

Lemma metrics_ratios_are_guarded_witness :
  capRate (calculateCurrentMetrics sampleCurrent) * 500000
  = noiAnnual (calculateCurrentMetrics sampleCurrent).
Proof.
  destruct (metrics_ratios_are_guarded sampleCurrent sampleNext)
    as ((_ & H & _) & _).
  apply H. simpl. lra.
Defined.

(** X14. A candidate bought without a loan (a down payment of 100
    percent or more of a price that is not negative) has no debt service,
    and its cash flow is its NOI. *)
Theorem full_down_payment_means_no_debt (currentInput : CurrentPropertyInputs)
    (newInput : NewPropertyInputs) :
  0 <= safeNumber (purchasePrice newInput) ->
  100 <= safeNumber (downPaymentPercent newInput) ->
  let m := calculateNewMetrics newInput in
  debtServiceMonthly m = 0
  /\ cashFlowMonthly m = noiMonthly m
  /\ cashFlowAnnual m = noiAnnual m
  /\ newLoanAmount (calculateComparison currentInput newInput) = 0
  /\ newMonthlyPayment (calculateComparison currentInput newInput) = 0.
Proof.
  intros Hprice Hdown. cbv zeta.
  assert (Hloan : Rmax 0 (safeNumber (purchasePrice newInput)
                          - safeNumber (downPaymentPercent newInput) / 100
                            * safeNumber (purchasePrice newInput)) = 0).
  { apply Rmax_left. nra. }
  assert (Hdebt : debtServiceMonthly (calculateNewMetrics newInput) = 0).
  { unfold calculateNewMetrics. cbv zeta. cbn [debtServiceMonthly].
    rewrite Hloan. apply calculateDebtService_nonpos. simpl. lra. }
  split; [exact Hdebt |].
  unfold calculateNewMetrics in *. cbv zeta in *.
  cbn [debtServiceMonthly cashFlowMonthly cashFlowAnnual noiMonthly noiAnnual] in *.
  rewrite Hdebt.
  split; [ring |]. split; [ring |].
  unfold calculateComparison. cbv zeta. cbn [newLoanAmount newMonthlyPayment].
  split; [exact Hloan | exact Hdebt].
Qed.

Lemma full_down_payment_means_no_debt_witness :
  debtServiceMonthly
    (calculateNewMetrics
       (mkNewPropertyInputs (Fin 600000) (Fin 0) (Fin 2.5) (Fin 0) (Fin 100)
          (Fin 6.75) (Fin 30) (Fin 2500) (Fin 0) (Fin 5) sampleExpenses)) = 0.
Proof.
  apply (full_down_payment_means_no_debt sampleCurrent
           (mkNewPropertyInputs (Fin 600000) (Fin 0) (Fin 2.5) (Fin 0) (Fin 100)
              (Fin 6.75) (Fin 30) (Fin 2500) (Fin 0) (Fin 5) sampleExpenses));
    simpl; lra.
Defined.

(** X15. The two metrics functions treat income and expenses alike: a
    candidate with the rent, other income, vacancy and expenses of a
    current property has the same gross income, vacancy loss, effective
    income, operating expenses and NOI. *)
Theorem metrics_agree_on_income (c : CurrentPropertyInputs) (n : NewPropertyInputs) :
  sameIncome c n ->
  let mc := calculateCurrentMetrics c in
  let mn := calculateNewMetrics n in
  grossMonthlyIncome mn = grossMonthlyIncome mc
  /\ vacancyLossMonthly mn = vacancyLossMonthly mc
  /\ effectiveMonthlyIncome mn = effectiveMonthlyIncome mc
  /\ operatingExpensesMonthly mn = operatingExpensesMonthly mc
  /\ noiMonthly mn = noiMonthly mc
  /\ noiAnnual mn = noiAnnual mc.
Proof.
  intros (Hr & Ho & Hv & He). cbv zeta.
  unfold calculateCurrentMetrics, calculateNewMetrics. cbv zeta.
  cbn [grossMonthlyIncome vacancyLossMonthly effectiveMonthlyIncome
       operatingExpensesMonthly noiMonthly noiAnnual].
  rewrite Hr, Ho, Hv, He. repeat split.
Qed.

Lemma metrics_agree_on_income_witness :
  sameIncome sampleCurrent sampleNext
  /\ noiAnnual (calculateNewMetrics sampleNext)
     = noiAnnual (calculateCurrentMetrics sampleCurrent).
Proof.
  assert (H : sameIncome sampleCurrent sampleNext) by (repeat split).
  split; [exact H |].
  apply (metrics_agree_on_income sampleCurrent sampleNext H).
Defined.

End CalculationsFacts.

(** ** [sellDecision.ts]: balances, sizing, snapshots, analytics *)

Module SellDecisionMore.
Import SellDecision SellDecisionFacts.

(** One year of [futureValue]. *)
Lemma futureValue_step (annualRate : number) (t : nat) (A PV : R)
    (type : PaymentType) :
  let rate := safeNumber annualRate / 100 in
  let U := fun k => - futureValue annualRate k (- A) PV type in
  U 0%nat = PV
  /\ U (S t) = U t * (1 + rate) - A * (1 + rate * typeValue type).
Proof.
  cbv zeta beta. split; [simpl; ring |].
  unfold futureValue. cbv zeta.
  set (rate := safeNumber annualRate / 100).
  destruct (Req_dec_T rate 0) as [E | N].
  - rewrite E. destruct t as [| t].
    + simpl. ring.
    + rewrite !S_INR. ring.
  - destruct t as [| t].
    + simpl. field. exact N.
    + simpl. field. exact N.
Qed.

(** X16. [futureValue] on a payment [-A] is the balance of a loan: with
    [U t = -futureValue(rate, t, -A, PV, type)], [U 0] is the present
    value and each year multiplies the balance by 1 + rate and takes off
    the payment, itself grown by a year when it falls at the start of the
    year (type 1).  A rate of 0 obeys the same rule. *)
Theorem futureValue_recurrence (annualRate : number) (t : nat) (A PV : R)
    (type : PaymentType) :
  let rate := safeNumber annualRate / 100 in
  let U := fun k => - futureValue annualRate k (- A) PV type in
  U 0%nat = PV
  /\ U (S t) = U t * (1 + rate) - A * (1 + rate * typeValue type).
Proof. apply futureValue_step. Qed.

(** The yearly payment covers a year of interest on the whole loan. *)
Lemma annual_payment_covers_interest (B : R) (annualRate termYears : number) :
  0 <= B -> 0 <= safeNumber annualRate ->
  0 <= calculateMonthlyPayment (Fin B) annualRate termYears * 12
  /\ B * (safeNumber annualRate / 100)
     <= calculateMonthlyPayment (Fin B) annualRate termYears * 12.
Proof.
  intros HB Hr.
  destruct (Req_dec_T B 0) as [-> | Hne].
  - assert (calculateMonthlyPayment (Fin 0) annualRate termYears = 0).
    { unfold calculateMonthlyPayment. cbn [safeNumber].
      destruct (Rle_dec 0 0) as [_ | N]; [reflexivity | lra]. }
    rewrite H. lra.
  - assert (HB' : 0 < B) by lra.
    pose proof (CalculationsFacts.debtService_payoff B annualRate termYears HB')
      as (Hint & _ & _ & _ & Heq).
    cbv zeta in Hint, Heq. rewrite Heq in Hint.
    assert (Hmax : Rmax 0 (safeNumber annualRate / 100 / 12)
                   = safeNumber annualRate / 100 / 12) by (apply Rmax_right; lra).
    rewrite Hmax in Hint.
    assert (0 <= B * (safeNumber annualRate / 100 / 12)) by (apply Rmult_le_pos; lra).
    split; lra.
Qed.

(** The unfloored balances of [buildMortgageBalances] never rise. *)
Lemma annual_balance_falls (B A rate : R) (annualRate : number) (t : nat) :
  rate = safeNumber annualRate / 100 ->
  0 <= rate -> 0 <= A -> B * rate <= A ->
  - futureValue annualRate (S t) (- A) B type1
  <= - futureValue annualRate t (- A) B type1
  /\ - futureValue annualRate t (- A) B type1 <= B.
Proof.
  intros Hrate Hr HA Hcover.
  induction t as [| t (IHstep & IHle)].
  - destruct (futureValue_step annualRate 0 A B type1) as (H0 & H1).
    cbv zeta beta in H0, H1. rewrite <- Hrate in H1. cbn [typeValue] in H1.
    rewrite H1, H0. split; nra.
  - destruct (futureValue_step annualRate (S t) A B type1) as (_ & H1).
    cbv zeta beta in H1. rewrite <- Hrate in H1. cbn [typeValue] in H1.
    assert (Hle : - futureValue annualRate (S t) (- A) B type1 <= B) by lra.
    split; [| exact Hle].
    rewrite H1.
    set (U := - futureValue annualRate (S t) (- A) B type1) in *.
    nra.
Qed.

(** X17. [buildMortgageBalances] returns one balance a year, none of
    them negative, the first being the starting balance floored at 0, and
    an annual debt service of 12 monthly payments; at a loan rate that is
    not negative the balances never rise from one year to the next and
    stay at or below the starting balance. *)
Theorem mortgage_balances_never_rise (startingBalance annualRate termYears : number)
    (years : nat) :
  let built := buildMortgageBalances startingBalance annualRate termYears years in
  let start := Rmax 0 (safeNumber startingBalance) in
  length (balances built) = years
  /\ Forall (fun b => 0 <= b) (balances built)
  /\ ((0 < years)%nat -> nth 0 (balances built) 0 = start)
  /\ annualDebtService built
     = 12 * calculateMonthlyPayment (Fin start) annualRate termYears
  /\ (0 <= safeNumber annualRate ->
      forall t, (S t < years)%nat ->
        nth (S t) (balances built) 0 <= nth t (balances built) 0 <= start).
Proof.
  cbv zeta.
  pose proof (buildMortgageBalances_balances startingBalance annualRate termYears years)
    as Hb.
  cbv zeta in Hb. rewrite Hb.
  set (B := Rmax 0 (safeNumber startingBalance)) in *.
  set (A := calculateMonthlyPayment (Fin B) annualRate termYears * 12) in *.
  assert (HB : 0 <= B) by apply Rmax_l.
  split; [rewrite length_map, length_seq; reflexivity |].
  split.
  { apply Forall_forall. intros b Hin. apply in_map_iff in Hin as (y & <- & _).
    apply Rmax_l. }
  split.
  { intros Hy. rewrite nth_map_seq by exact Hy.
    cbn [futureValue]. rewrite Ropp_involutive. apply Rmax_right. exact HB. }
  split; [unfold buildMortgageBalances; cbn [annualDebtService]; fold B; ring |].
  intros Hr t Ht.
  rewrite !nth_map_seq by lia.
  destruct (annual_payment_covers_interest B annualRate termYears HB Hr) as (HA & Hc).
  destruct (annual_balance_falls B A (safeNumber annualRate / 100) annualRate t)
    as (Hstep & Hle); [reflexivity | lra | exact HA | exact Hc |].
  split; [apply Rle_max_compat_l; exact Hstep | apply Rmax_lub; lra].
Qed.

Lemma mortgage_balances_never_rise_witness :
  let built := buildMortgageBalances (Fin 1000000) (Fin 5) (Fin 25) 21 in
  nth 1 (balances built) 0 <= nth 0 (balances built) 0 <= Rmax 0 1000000.
Proof.
  cbv zeta.
  destruct (mortgage_balances_never_rise (Fin 1000000) (Fin 5) (Fin 25) 21)
    as (_ & _ & _ & _ & H).
  apply H; [simpl; lra | lia].
Defined.

(** *** The replacement property *)

(** X18. The net sale proceeds are never negative.  With a loan-to-value
    between 0 and 100 percent they are exactly the equity of the
    replacement property: its value less its mortgage, the mortgage being
    the loan-to-value share of the value.  At 100 percent or more nothing
    is bought. *)
Theorem replacement_is_bought_with_the_proceeds (input : DecisionInputs) :
  let ltv := safeNumber (newLoanToValue input) in
  0 <= netSaleProceeds input
  /\ 0 <= newMortgageStart input
  /\ (0 <= ltv < 100 ->
      newPropertyValueStart input - newMortgageStart input = netSaleProceeds input
      /\ newMortgageStart input = ltv / 100 * newPropertyValueStart input
      /\ netSaleProceeds input <= newPropertyValueStart input)
  /\ (100 <= ltv ->
      newPropertyValueStart input = 0 /\ newMortgageStart input = 0).
Proof.
  cbv zeta.
  assert (Hp : 0 <= netSaleProceeds input) by (unfold netSaleProceeds; apply Rmax_l).
  split; [exact Hp |].
  split; [unfold newMortgageStart; apply Rmax_l |].
  split.
  - intros (H0 & H100).
    unfold newMortgageStart, newPropertyValueStart. cbv zeta.
    set (l := safeNumber (newLoanToValue input) / 100).
    assert (Hl : 0 <= l < 1) by (unfold l; lra).
    destruct (Rge_dec l 1) as [H | _]; [lra |].
    set (P := netSaleProceeds input) in *.
    assert (Hv : 0 <= P / (1 - l)).
    { apply Rmult_le_pos; [exact Hp |]. left. apply Rinv_0_lt_compat. lra. }
    rewrite Rmax_right by (apply Rmult_le_pos; lra).
    split; [field; lra |]. split; [ring |].
    apply (Rmult_le_reg_r (1 - l)); [lra |].
    replace (P / (1 - l) * (1 - l)) with P by (field; lra). nra.
  - intros H100.
    unfold newMortgageStart, newPropertyValueStart. cbv zeta.
    destruct (Rge_dec (safeNumber (newLoanToValue input) / 100) 1) as [_ | N];
      [| lra].
    split; [reflexivity |]. rewrite Rmult_0_l. apply Rmax_left. lra.
Qed.

Lemma replacement_is_bought_with_the_proceeds_witness :
  newPropertyValueStart scenarioB - newMortgageStart scenarioB
  = netSaleProceeds scenarioB.
Proof.
  destruct (replacement_is_bought_with_the_proceeds scenarioB) as (_ & _ & H & _).
  apply H. simpl. lra.
Defined.

(** *** The snapshots of the result *)

(** The rows of the result, by index. *)
Lemma result_rows (input : DecisionInputs) :
  exists result,
    calculateDecision input = Some result
    /\ resultPlanningAge result = planningAgeOf input
    /\ forall i c w p,
         nth_error (currentSeries result) i = Some c ->
         nth_error (newSeries result) i = Some w ->
         nth_error (series result) i = Some p ->
         (i < Z.to_nat (yearsOf input))%nat
         /\ yearPushed input i c w p
         /\ investmentAccount c
            = investmentBefore (currentSeries result) i * investmentGrowth input
              + cashFlow c
         /\ investmentAccount w
            = investmentBefore (newSeries result) i * investmentGrowth input
              + cashFlow w.
Proof.
  destruct (calculateDecision_returns input)
    as (result & _ & _ & _ & Hres & _ & _ & _ & _ & _ & _ & Hcs & Hns & Hss & Hpa & _).
  exists result. split; [exact Hres |]. split; [exact Hpa |].
  intros i c w p Hc Hw Hp. rewrite Hcs, Hns, Hss in *.
  set (n := Z.to_nat (yearsOf input)) in *.
  assert (Hi : (i < n)%nat).
  { destruct (simulate_lengths input n) as (<- & _).
    apply nth_error_Some. rewrite Hc. discriminate. }
  destruct (simulate_rows input n i Hi) as (c' & w' & p' & Hc' & Hw' & Hp' & Hrow).
  destruct (simulate_investments input n i Hi) as (c'' & w'' & Hc'' & Hw'' & Hic & Hiw).
  rewrite Hc in Hc', Hc''. rewrite Hw in Hw', Hw''. rewrite Hp in Hp'.
  injection Hc' as <-. injection Hc'' as <-.
  injection Hw' as <-. injection Hw'' as <-. injection Hp' as <-.
  split; [exact Hi |]. split; [exact Hrow |]. split; assumption.
Qed.

(** X19. In the result of [calculateDecision], year by year: the keep
    snapshot's estate value is property value - mortgage balance - capital
    gains tax + investment account, with the tax computed on that year's
    value; the sell snapshot carries no capital gains tax and is worth
    property value - mortgage balance + investment account; the point of
    the series has the age of both snapshots, their two estate values, and
    their difference as delta. *)
Theorem estate_values_add_up (input : DecisionInputs) :
  exists result,
    calculateDecision input = Some result
    /\ forall i c w p,
         nth_error (currentSeries result) i = Some c ->
         nth_error (newSeries result) i = Some w ->
         nth_error (series result) i = Some p ->
         strategyValue c
         = propertyValue c - mortgageBalance c - capitalGainsTaxDue c
           + investmentAccount c
         /\ capitalGainsTaxDue c
            = (propertyValue c - safeNumber (currentPropertyAcb input))
              * (safeNumber (capitalGainsInclusionRate input) / 100)
              * (safeNumber (marginalTaxRate input) / 100)
         /\ capitalGainsTaxDue w = 0
         /\ strategyValue w = propertyValue w - mortgageBalance w + investmentAccount w
         /\ age c = pointAge p /\ age w = pointAge p
         /\ currentValue p = strategyValue c
         /\ newValue p = strategyValue w
         /\ delta p = strategyValue w - strategyValue c.
Proof.
  destruct (result_rows input) as (result & Hres & _ & Hrows).
  exists result. split; [exact Hres |].
  intros i c w p Hc Hw Hp.
  destruct (Hrows i c w p Hc Hw Hp) as (_ & Hrow & _).
  destruct Hrow as (Hk & Hs & (Hpa & Hpc & Hpw & Hpd)).
  destruct Hk as (Hage & _ & _ & _ & _ & _ & Hcg & Hsv).
  destruct Hs as (Hage' & _ & _ & _ & _ & _ & Hcg' & Hsv').
  repeat split; try assumption.
  - rewrite Hpa. reflexivity.
  - rewrite Hpa, Hage, Hage'. reflexivity.
  - rewrite Hpd, Hpc, Hpw. reflexivity.
Qed.

(** X20. In the result of [calculateDecision], for both strategies and
    every year: the net income is the cap rate share of the property
    value, the tax is the marginal rate on net income less a year of
    interest on the mortgage balance, the cash flow is net income - tax -
    annual debt service, and the investment account is last year's
    account (0 before the first year) grown by 1 + ROI x (1 - marginal tax
    rate) plus this year's cash flow. *)
Theorem cash_flow_feeds_the_investment_account (input : DecisionInputs) :
  let tax := safeNumber (marginalTaxRate input) / 100 in
  let interest := safeNumber (loanRate input) / 100 in
  let growth := 1 + safeNumber (investmentAccountRoi input) / 100 * (1 - tax) in
  exists result,
    calculateDecision input = Some result
    /\ forall i c w p,
         nth_error (currentSeries result) i = Some c ->
         nth_error (newSeries result) i = Some w ->
         nth_error (series result) i = Some p ->
         netIncome c = safeNumber (currentCapRate input) / 100 * propertyValue c
         /\ netIncome w = safeNumber (newCapRate input) / 100 * propertyValue w
         /\ taxPayable c = (netIncome c - mortgageBalance c * interest) * tax
         /\ taxPayable w = (netIncome w - mortgageBalance w * interest) * tax
         /\ cashFlow c
            = netIncome c - taxPayable c - annualDebtService (currentBalancesOf input)
         /\ cashFlow w
            = netIncome w - taxPayable w - annualDebtService (newBalancesOf input)
         /\ investmentAccount c
            = investmentBefore (currentSeries result) i * growth + cashFlow c
         /\ investmentAccount w
            = investmentBefore (newSeries result) i * growth + cashFlow w.
Proof.
  cbv zeta.
  destruct (result_rows input) as (result & Hres & _ & Hrows).
  exists result. split; [exact Hres |].
  intros i c w p Hc Hw Hp.
  destruct (Hrows i c w p Hc Hw Hp) as (_ & Hrow & Hic & Hiw).
  destruct Hrow as (Hk & Hs & _).
  destruct Hk as (_ & _ & _ & Hni & Htx & Hcf & _).
  destruct Hs as (_ & _ & _ & Hni' & Htx' & Hcf' & _).
  repeat split; assumption.
Qed.

Lemma scenarioC_first_row :
  exists result c w p,
    calculateDecision scenarioC = Some result
    /\ nth_error (currentSeries result) 0 = Some c
    /\ nth_error (newSeries result) 0 = Some w
    /\ nth_error (series result) 0 = Some p.
Proof.
  destruct scenarioC_ages as (_ & _ & Hy).
  destruct (calculateDecision_returns scenarioC)
    as (result & c & w & p & Hres & _ & _ & Hc & Hw & Hp & _).
  rewrite Hy in Hc, Hw, Hp. change (Z.to_nat (1 - 1)) with 0%nat in *.
  exists result, c, w, p. repeat split; assumption.
Qed.

Lemma estate_values_add_up_witness :
  exists result c w,
    calculateDecision scenarioC = Some result
    /\ nth_error (currentSeries result) 0 = Some c
    /\ nth_error (newSeries result) 0 = Some w
    /\ strategyValue c
       = propertyValue c - mortgageBalance c - capitalGainsTaxDue c
         + investmentAccount c
    /\ capitalGainsTaxDue w = 0.
Proof.
  destruct scenarioC_first_row as (result & c & w & p & Hres & Hc & Hw & Hp).
  destruct (estate_values_add_up scenarioC) as (result' & Hres' & Hrows).
  rewrite Hres in Hres'. injection Hres' as <-.
  destruct (Hrows 0%nat c w p Hc Hw Hp) as (H1 & _ & H3 & _).
  exists result, c, w. repeat split; assumption.
Defined.

Lemma cash_flow_feeds_the_investment_account_witness :
  exists result c,
    calculateDecision scenarioC = Some result
    /\ nth_error (currentSeries result) 0 = Some c
    /\ taxPayable c = (netIncome c - mortgageBalance c * (5 / 100)) * (50 / 100).
Proof.
  destruct scenarioC_first_row as (result & c & w & p & Hres & Hc & Hw & Hp).
  destruct (cash_flow_feeds_the_investment_account scenarioC)
    as (result' & Hres' & Hrows).
  rewrite Hres in Hres'. injection Hres' as <-.
  destruct (Hrows 0%nat c w p Hc Hw Hp) as (_ & _ & H3 & _).
  exists result, c. repeat split; assumption.
Defined.

(** *** Break-even, peak and decision *)

Lemma scan_relations (l : list SeriesPoint) :
  l <> [] ->
  exists i p,
    firstPeak l i p
    /\ scanPeakDeltaValue (scanSeries l) = Fin (delta p)
    /\ scanPeakDeltaAge (scanSeries l) = Some (pointAge p)
    /\ (scanBreakEvenAge (scanSeries l) = None <-> delta p < 0)
    /\ forall a, scanBreakEvenAge (scanSeries l) = Some a ->
         exists j q, firstCrossing l j q /\ pointAge q = a /\ (j <= i)%nat.
Proof.
  intros Hne.
  destruct (scan_peak l) as [(Hnil & _) | (i & p & Hpeak & Hv & Ha)];
    [contradiction |].
  exists i, p. split; [exact Hpeak |]. split; [exact Hv |]. split; [exact Ha |].
  destruct Hpeak as (Hi & Hmax & Hbefore).
  pose proof (scan_breakEven l) as Hbe.
  split.
  - split.
    + intros Hnone. rewrite Hnone in Hbe. apply Hbe. apply (nth_error_In _ _ Hi).
    + intros Hneg. destruct (scanBreakEvenAge (scanSeries l)) as [a |];
        [| reflexivity].
      destruct Hbe as (j & q & (Hj & Hq & _) & _).
      specialize (Hmax q (nth_error_In _ _ Hj)). lra.
  - intros a Hsome. rewrite Hsome in Hbe.
    destruct Hbe as (j & q & Hcross & Hage).
    exists j, q. split; [exact Hcross |]. split; [exact Hage |].
    destruct Hcross as (Hj & Hq & Hneg).
    destruct (Nat.le_gt_cases j i) as [Hle | Hgt]; [exact Hle |].
    specialize (Hneg i p Hgt Hi).
    specialize (Hmax q (nth_error_In _ _ Hj)). lra.
Qed.

(** X21. A peak age is always reported and its delta is the peak value.
    There is no break-even age exactly when the peak value is negative,
    and a break-even age is never after the peak age. *)
Theorem break_even_comes_before_the_peak (input : DecisionInputs) :
  exists result peakAge,
    calculateDecision input = Some result
    /\ peakDeltaAge result = Some peakAge
    /\ (breakEvenAge result = None <-> peakDeltaValue result < 0)
    /\ (forall a, breakEvenAge result = Some a -> (a <= peakAge)%Z).
Proof.
  destruct (calculateDecision_returns input)
    as (result & c & w & p0 & Hres & _ & _ & _ & _ & Hp0 & _
        & _ & _ & Hss & _ & _ & _ & Hbe & Hpa & Hpv).
  assert (Hne : series result <> []).
  { intros Hnil. rewrite Hnil in Hp0.
    destruct (Z.to_nat (yearsOf input - 1)); discriminate. }
  destruct (scan_relations (series result) Hne)
    as (i & p & (Hi & _) & Hv & Ha & Hiff & Hord).
  exists result, (pointAge p). split; [exact Hres |].
  rewrite Hpa, Hbe, Hpv, Hv. cbn [safeNumber].
  split; [exact Ha |]. split; [exact Hiff |].
  intros a Hsome. destruct (Hord a Hsome) as (j & q & (Hj & _) & Hage & Hle).
  rewrite Hss in Hi, Hj.
  destruct (series_point_at input _ i p Hi) as (_ & Hpi & _).
  destruct (series_point_at input _ j q Hj) as (_ & Hqj & _).
  rewrite <- Hage, Hpi, Hqj. lia.
Qed.

(** [calculateDecision] with its reason. *)
Lemma calculateDecision_reason (input : DecisionInputs) :
  exists result,
    calculateDecision input = Some result
    /\ decisionReason result
       = match decision result with
         | YES =>
             NewExceedsCurrentBy
               (strategyValue (newAtPlanning result)
                - strategyValue (currentAtPlanning result))
               (planningAgeOf input)
         | NO =>
             CurrentRemainsAheadBy
               (Rabs (strategyValue (newAtPlanning result)
                      - strategyValue (currentAtPlanning result)))
               (planningAgeOf input)
         end.
Proof.
  pose proof (yearsOf_pos input) as Hy.
  destruct (simulate_rows input (Z.to_nat (yearsOf input)) (Z.to_nat (yearsOf input - 1)))
    as (c & w & p & Hc & Hw & _); [lia |].
  unfold calculateDecision. cbv zeta. rewrite Hc, Hw.
  eexists. split; [reflexivity |].
  cbn [decisionReason decision newAtPlanning currentAtPlanning]. reflexivity.
Qed.

(** X22. The reason always matches the decision and names the planning
    age: YES reports sell value - keep value, NO reports the absolute
    value of that difference.  With a margin that is not negative and a
    keep value that is not negative, a YES means the sell strategy is
    ahead at the planning age by at least the margin share of the keep
    value, and then there is a break-even age, at or before the planning
    age. *)
Theorem yes_comes_with_a_break_even_age (input : DecisionInputs) :
  exists result,
    calculateDecision input = Some result
    /\ (let ahead := strategyValue (newAtPlanning result)
                     - strategyValue (currentAtPlanning result) in
        decisionReason result
        = match decision result with
          | YES => NewExceedsCurrentBy ahead (resultPlanningAge result)
          | NO => CurrentRemainsAheadBy (Rabs ahead) (resultPlanningAge result)
          end
        /\ (0 <= safeNumber (decisionMarginPercent input) ->
            0 <= strategyValue (currentAtPlanning result) ->
            decision result = YES ->
            strategyValue (currentAtPlanning result)
            * (safeNumber (decisionMarginPercent input) / 100) <= ahead
            /\ 0 <= ahead
            /\ exists a, breakEvenAge result = Some a
                         /\ (a <= resultPlanningAge result)%Z)).
Proof.
  destruct (calculateDecision_returns input)
    as (result & c & w & p & Hres & Hc & Hw & _ & _ & Hp & Hrow
        & _ & _ & Hss & Hpa & _ & Hdec & Hbe & _).
  destruct (calculateDecision_reason input) as (result' & Hres' & Hreason).
  rewrite Hres in Hres'. injection Hres' as <-.
  exists result. split; [exact Hres |]. cbv zeta.
  split; [rewrite Hpa; exact Hreason |].
  intros Hm Hkeep Hyes.
  rewrite Hc, Hw in *. rewrite Hyes in Hdec.
  destruct (Rge_dec (strategyValue w) _) as [Hge | _]; [| discriminate].
  set (m := safeNumber (decisionMarginPercent input) / 100) in *.
  assert (0 <= m) by (unfold m; lra).
  assert (0 <= strategyValue c * m) by (apply Rmult_le_pos; assumption).
  split; [lra |]. split; [lra |].
  destruct Hrow as (_ & _ & (_ & Hpc & Hpw & Hpd)).
  pose proof (scan_breakEven (series result)) as Hscan.
  rewrite <- Hbe in Hscan.
  destruct (breakEvenAge result) as [a |].
  - exists a. split; [reflexivity |].
    destruct Hscan as (i & q & (Hi & _) & Hage).
    rewrite Hss in Hi.
    destruct (series_point_at input _ i q Hi) as (Hlt & Hqi & _).
    rewrite Hpa, <- Hage, Hqi.
    pose proof (yearsOf_pos input). unfold yearsOf in *. lia.
  - exfalso. specialize (Hscan p (nth_error_In _ _ Hp)).
    rewrite Hpd, Hpc, Hpw in Hscan. lra.
Qed.

(** The trade-up example, evaluated: one year, keep worth 1020000, sell
    worth 1100000, hence YES. *)
Lemma tradeUp_evaluation :
  exists result,
    calculateDecision DecisionWizard.tradeUp = Some result
    /\ strategyValue (currentAtPlanning result) = 1020000
    /\ strategyValue (newAtPlanning result) = 1100000
    /\ decision result = YES.
Proof.
  set (input := DecisionWizard.tradeUp).
  assert (Hca : clientAgeOf input = 70%Z).
  { unfold clientAgeOf. cbn [input DecisionWizard.tradeUp clientAge safeNumber].
    apply Math_round_IZR. }
  assert (Hy : yearsOf input = 1%Z).
  { unfold yearsOf, planningAgeOf. rewrite Hca.
    cbn [input DecisionWizard.tradeUp planningAge safeNumber].
    rewrite Math_round_IZR. reflexivity. }
  destruct (calculateDecision_returns input)
    as (result & c & w & p & Hres & Hc & Hw & Hnc & Hnw & _ & Hrow
        & Hcs & Hns & _ & _ & _ & Hdec & _).
  rewrite Hy in *.
  change (Z.to_nat (1 - 1)) with 0%nat in *.
  change (Z.to_nat 1) with 1%nat in *.
  destruct (simulate_investments input 1 0) as (c' & w' & Hc' & Hw' & Hic & Hiw);
    [lia |].
  rewrite <- Hcs, Hnc in Hc'. rewrite <- Hns, Hnw in Hw'.
  injection Hc' as <-. injection Hw' as <-.
  cbn [investmentBefore] in Hic, Hiw.
  destruct Hrow as (Hk & Hs & _).
  destruct Hk as (_ & Hv & Hmb & Hni & Htx & Hcf & Hcg & Hsv).
  destruct Hs as (_ & Hv' & Hmb' & Hni' & Htx' & Hcf' & _ & Hsv').
  assert (Hzero : calculateMonthlyPayment (Fin 0) (Fin 0) (Fin 25) = 0).
  { unfold calculateMonthlyPayment. cbn [safeNumber].
    destruct (Rle_dec 0 0) as [_ | N]; [reflexivity | lra]. }
  assert (HR0 : Rmax 0 0 = 0) by (apply Rmax_left; lra).
  assert (Hnv : newPropertyValueStart input = 1000000).
  { unfold newPropertyValueStart, netSaleProceeds, initialCapitalGainsTax,
      capitalGainsTax.
    cbn [input DecisionWizard.tradeUp newLoanToValue currentPropertyValue
         currentMortgageBalance currentPropertyAcb capitalGainsInclusionRate
         marginalTaxRate realtorFeesPercent propertyTransferTaxPercent safeNumber].
    destruct (Rge_dec (0 / 100) 1) as [H | _]; [lra |].
    rewrite Rmax_right by lra. field. }
  assert (Hnm : newMortgageStart input = 0).
  { unfold newMortgageStart. rewrite Hnv.
    cbn [input DecisionWizard.tradeUp newLoanToValue safeNumber].
    apply Rmax_left. lra. }
  unfold currentBalancesOf in Hmb, Hcf. unfold newBalancesOf in Hmb', Hcf'.
  rewrite balances_at in Hmb, Hmb' by lia.
  cbv zeta in Hmb, Hmb'. unfold annualConventionBalance in Hmb, Hmb'.
  unfold buildMortgageBalances in Hcf, Hcf'. cbn [annualDebtService] in Hcf, Hcf'.
  unfold capitalGainsTax in Hcg.
  rewrite Hnv in Hv'. rewrite Hnm in Hmb', Hcf'.
  cbn [input DecisionWizard.tradeUp currentPropertyValue currentGrowthRate
       currentMortgageBalance currentCapRate newGrowthRate newCapRate loanRate
       loanAmortizationYears marginalTaxRate currentPropertyAcb
       capitalGainsInclusionRate safeNumber pow]
    in Hv, Hmb, Hni, Htx, Hcf, Hcg, Hv', Hmb', Hni', Htx', Hcf'.
  rewrite !HR0 in Hmb, Hcf, Hmb', Hcf'. rewrite Hzero in Hcf, Hcf'.
  assert (Hkeep : strategyValue c = 1020000) by lra.
  assert (Hsell : strategyValue w = 1100000) by lra.
  exists result. split; [exact Hres |].
  rewrite Hc, Hw. split; [exact Hkeep |]. split; [exact Hsell |].
  rewrite Hdec. destruct (Rge_dec _ _) as [_ | N]; [reflexivity |].
  exfalso. apply N. rewrite Hkeep, Hsell.
  cbn [input DecisionWizard.tradeUp decisionMarginPercent safeNumber]. lra.
Qed.

Lemma yes_comes_with_a_break_even_age_witness :
  exists result a,
    calculateDecision DecisionWizard.tradeUp = Some result
    /\ breakEvenAge result = Some a
    /\ (a <= resultPlanningAge result)%Z.
Proof.
  destruct tradeUp_evaluation as (result & Hres & Hkeep & _ & Hyes).
  destruct (yes_comes_with_a_break_even_age DecisionWizard.tradeUp)
    as (result' & Hres' & _ & Himp).
  rewrite Hres in Hres'. injection Hres' as <-.
  destruct Himp as (_ & _ & a & Ha & Hle);
    [simpl; lra | rewrite Hkeep; lra | exact Hyes |].
  exists result, a. repeat split; assumption.
Defined.

End SellDecisionMore.

(** ** The decision wizard and its chart *)

Module WizardFacts.
Import SellDecision SellDecisionFacts DecisionWizard ComparisonChart.

(** *** Snapshots by age *)

Lemma agesFrom_cons (first : Z) (count : nat) :
  agesFrom first (S count) = first :: agesFrom (first + 1) count.
Proof.
  unfold agesFrom. cbn [seq map]. f_equal; [lia |].
  rewrite <- seq_shift, map_map. apply map_ext. intros i. lia.
Qed.

(** In a list whose ages are consecutive from [first], looking an age up
    is reading an index. *)
Lemma find_by_age (l : list YearlySnapshot) (first : Z) (a : Z) :
  map SellDecision.age l = agesFrom first (length l) ->
  find (ageIs (Some a)) l
  = if ((first <=? a) && (a <? first + Z.of_nat (length l)))%Z
    then nth_error l (Z.to_nat (a - first))
    else None.
Proof.
  revert first. induction l as [| x l IH]; intros first Hages.
  - cbn [find length]. destruct ((first <=? a) && (a <? first + Z.of_nat 0))%Z eqn:E;
      [| reflexivity].
    apply andb_true_iff in E as (E1 & E2).
    apply Z.leb_le in E1. apply Z.ltb_lt in E2. lia.
  - cbn [length] in *. rewrite agesFrom_cons in Hages. cbn [map] in Hages.
    injection Hages as Hx Hrest.
    cbn [find ageIs]. rewrite Hx.
    destruct (Z.eqb_spec first a) as [-> | Hne].
    + rewrite Z.leb_refl.
      replace (a <? a + Z.of_nat (S (length l)))%Z with true
        by (symmetry; apply Z.ltb_lt; lia).
      rewrite Z.sub_diag. reflexivity.
    + change (find (fun item => ageIs (Some a) item) l) with (find (ageIs (Some a)) l).
      rewrite (IH (first + 1)%Z Hrest).
      destruct (Z.leb_spec (first + 1) a) as [H1 | H1];
        destruct (Z.ltb_spec a (first + 1 + Z.of_nat (length l))) as [H2 | H2];
        destruct (Z.leb_spec first a) as [H3 | H3];
        destruct (Z.ltb_spec a (first + Z.of_nat (S (length l)))) as [H4 | H4];
        cbn [andb]; try lia; try reflexivity.
      replace (Z.to_nat (a - first)) with (S (Z.to_nat (a - (first + 1)))) by lia.
      reflexivity.
Qed.

Lemma Math_round_shift (x : R) (k : Z) : Math_round (x + IZR k) = (Math_round x + k)%Z.
Proof.
  unfold Math_round. replace (x + IZR k + / 2) with (x + / 2 + IZR k) by ring.
  apply Zfloor_addz.
Qed.

(** X23. The wizard's [getSnapshotAtAge] of a whole number of years [k]
    after a finite client age returns the snapshots of index [k] of both
    series when [k] lies within the simulated years, and nothing for either
    strategy otherwise; with a client age that is not finite it never
    finds a snapshot, although the series is there. *)
Theorem snapshot_at_age_is_the_year (inputs : DecisionInputs) (k : Z) :
  exists decision,
    calculateDecision inputs = Some decision
    /\ let found := getSnapshotAtAge inputs decision (IZR k) in
       let horizon := (resultPlanningAge decision - clientAgeOf inputs)%Z in
       (isFinite (clientAge inputs) = true ->
        atAge found = Some (clientAgeOf inputs + k)%Z
        /\ ((0 <= k <= horizon)%Z ->
            atCurrent found = nth_error (currentSeries decision) (Z.to_nat k)
            /\ atNext found = nth_error (newSeries decision) (Z.to_nat k)
            /\ atCurrent found <> None /\ atNext found <> None)
        /\ ((k < 0 \/ horizon < k)%Z ->
            atCurrent found = None /\ atNext found = None))
       /\ (isFinite (clientAge inputs) = false ->
           atCurrent found = None /\ atNext found = None
           /\ currentSeries decision <> []).
Proof.
  destruct (calculateDecision_returns inputs)
    as (decision & _ & _ & _ & Hres & _ & _ & _ & _ & _ & _ & Hcs & Hns & _ & Hpa & _).
  exists decision. split; [exact Hres |]. cbv zeta.
  pose proof (yearsOf_pos inputs) as Hy.
  set (n := Z.to_nat (yearsOf inputs)) in *.
  destruct (simulate_lengths inputs n) as (Lc & Ln & _).
  destruct (simulate_ages inputs n) as (Ac & An & _).
  rewrite <- Hcs in Lc, Ac. rewrite <- Hns in Ln, An.
  rewrite <- Lc in Ac. rewrite <- Ln in An.
  unfold getSnapshotAtAge. cbn [atAge atCurrent atNext].
  split.
  - intros Hfin. destruct (clientAge inputs) as [c | | |] eqn:Hc; try discriminate.
    cbn [roundedAge]. rewrite Math_round_shift.
    assert (Hclient : clientAgeOf inputs = Math_round c).
    { unfold clientAgeOf. rewrite Hc. reflexivity. }
    rewrite <- Hclient.
    rewrite (find_by_age _ _ _ Ac), (find_by_age _ _ _ An), Lc, Ln, Hpa.
    replace (clientAgeOf inputs + k - clientAgeOf inputs)%Z with k by lia.
    assert (Hn : Z.of_nat n = (planningAgeOf inputs - clientAgeOf inputs + 1)%Z)
      by (unfold n, yearsOf in *; lia).
    split; [reflexivity |].
    split.
    + intros Hk.
      replace ((clientAgeOf inputs <=? clientAgeOf inputs + k)
               && (clientAgeOf inputs + k <? clientAgeOf inputs + Z.of_nat n))%Z
        with true
        by (symmetry; apply andb_true_iff; split;
            [apply Z.leb_le | apply Z.ltb_lt]; lia).
      split; [reflexivity |]. split; [reflexivity |].
      split; apply nth_error_Some; lia.
    + intros Hk.
      replace ((clientAgeOf inputs <=? clientAgeOf inputs + k)
               && (clientAgeOf inputs + k <? clientAgeOf inputs + Z.of_nat n))%Z
        with false; [split; reflexivity |].
      symmetry. apply andb_false_iff.
      destruct Hk; [left; apply Z.leb_gt | right; apply Z.ltb_ge]; lia.
  - intros Hfin.
    assert (Hage : roundedAge (clientAge inputs) (IZR k) = None)
      by (destruct (clientAge inputs); [discriminate | reflexivity ..]).
    rewrite Hage.
    assert (Hnone : forall l, find (ageIs None) l = None)
      by (induction l; [reflexivity | assumption]).
    rewrite !Hnone. split; [reflexivity |]. split; [reflexivity |].
    intros Hnil. rewrite Hnil in Lc. cbn in Lc. lia.
Qed.

Lemma snapshot_at_age_is_the_year_witness :
  exists decision,
    calculateDecision scenarioB = Some decision
    /\ atCurrent (getSnapshotAtAge scenarioB decision 10)
       = nth_error (currentSeries decision) 10.
Proof.
  destruct (snapshot_at_age_is_the_year scenarioB 10) as (decision & Hres & Hfin & _).
  cbv zeta in Hfin.
  destruct (Hfin eq_refl) as (_ & Hin & _).
  exists decision. split; [exact Hres |].
  apply Hin.
  assert (Hc : clientAgeOf scenarioB = 70%Z).
  { unfold clientAgeOf. cbn [scenarioB clientAge safeNumber]. apply Math_round_IZR. }
  destruct (calculateDecision_returns scenarioB)
    as (decision' & _ & _ & _ & Hres' & _ & _ & _ & _ & _ & _ & _ & _ & _ & Hpa & _).
  rewrite Hres in Hres'. injection Hres' as <-.
  rewrite Hpa, Hc. unfold planningAgeOf. rewrite Hc.
  cbn [scenarioB planningAge safeNumber]. rewrite Math_round_IZR. lia.
Defined.

(** *** The chart *)

(** X24. [buildTicks] of a count of at least 2 returns that many values,
    from [min] to [max] in equal steps; a count of 0 or 1 gives the two
    ends. *)
Theorem ticks_span_the_axis (min max : R) (count : nat) :
  let ticks := buildTicks min max count in
  ((count <= 1)%nat -> ticks = [min; max])
  /\ ((2 <= count)%nat ->
      length ticks = count
      /\ nth 0 ticks 0 = min
      /\ nth (count - 1) ticks 0 = max
      /\ (forall i, (S i < count)%nat ->
          nth (S i) ticks 0 - nth i ticks 0 = (max - min) / (INR count - 1))
      /\ (min <= max -> forall i, (i < count)%nat -> min <= nth i ticks 0 <= max)).
Proof.
  cbv zeta. unfold buildTicks. split.
  - intros Hc. destruct (Nat.leb_spec count 1) as [_ | H]; [reflexivity | lia].
  - intros Hc. destruct (Nat.leb_spec count 1) as [H | _]; [lia |].
    cbv zeta.
    assert (Hden : 0 < INR count - 1).
    { assert (INR 2 <= INR count) by (apply le_INR; exact Hc). simpl in H. lra. }
    split; [rewrite length_map, length_seq; reflexivity |].
    split; [rewrite SellDecisionFacts.nth_map_seq by lia; simpl; ring |].
    split.
    { rewrite SellDecisionFacts.nth_map_seq by lia.
      rewrite minus_INR by lia. simpl INR. field. lra. }
    split.
    { intros i Hi. rewrite !SellDecisionFacts.nth_map_seq by lia.
      rewrite S_INR. ring. }
    intros Hle i Hi. rewrite SellDecisionFacts.nth_map_seq by exact Hi.
    assert (Hi0 : 0 <= INR i) by apply pos_INR.
    assert (Hi1 : INR i <= INR count - 1).
    { assert (INR (S i) <= INR count) by (apply le_INR; lia).
      rewrite S_INR in H. lra. }
    assert (Hstep : 0 <= (max - min) / (INR count - 1)).
    { apply Rmult_le_pos; [lra |]. left. apply Rinv_0_lt_compat. exact Hden. }
    split; [nra |].
    assert ((max - min) / (INR count - 1) * INR i
            <= (max - min) / (INR count - 1) * (INR count - 1))
      by (apply Rmult_le_compat_l; assumption).
    replace ((max - min) / (INR count - 1) * (INR count - 1)) with (max - min) in H
      by (field; lra).
    lra.
Qed.

Lemma ticks_span_the_axis_witness :
  length (buildTicks 0 100 5) = 5%nat /\ nth 4 (buildTicks 0 100 5) 0 = 100.
Proof.
  destruct (ticks_span_the_axis 0 100 5) as (_ & H).
  destruct H as (Hlen & _ & Hlast & _); [lia |].
  split; [exact Hlen | exact Hlast].
Defined.

(** The scan of the chart over the points it has seen. *)
Lemma bounds_fold (l : list SeriesPoint) (st : BoundsState) (m M : R) :
  minValue st = Fin m -> maxValue st = Fin M ->
  exists m' M',
    minValue (fold_left boundsStep l st) = Fin m'
    /\ maxValue (fold_left boundsStep l st) = Fin M'
    /\ m' <= m /\ M <= M'
    /\ (minAge (fold_left boundsStep l st) <= minAge st)%Z
    /\ (maxAge st <= maxAge (fold_left boundsStep l st))%Z
    /\ forall p, In p l ->
         m' <= currentValue p <= M' /\ m' <= newValue p <= M'
         /\ (minAge (fold_left boundsStep l st) <= pointAge p
             <= maxAge (fold_left boundsStep l st))%Z.
Proof.
  revert st m M. induction l as [| x l IH]; intros st m M Hm HM.
  - exists m, M. cbn [fold_left]. repeat split; try assumption; try lra; try lia;
      destruct H.
  - cbn [fold_left].
    destruct (IH (boundsStep st x) (Rmin m (Rmin (currentValue x) (newValue x)))
                (Rmax M (Rmax (currentValue x) (newValue x))))
      as (m' & M' & Hm' & HM' & Hlo & Hhi & Hamin & Hamax & Hall).
    { unfold boundsStep. cbn [minValue]. rewrite Hm. reflexivity. }
    { unfold boundsStep. cbn [maxValue]. rewrite HM. reflexivity. }
    exists m', M'.
    pose proof (Rmin_l m (Rmin (currentValue x) (newValue x))).
    pose proof (Rmin_r m (Rmin (currentValue x) (newValue x))).
    pose proof (Rmin_l (currentValue x) (newValue x)).
    pose proof (Rmin_r (currentValue x) (newValue x)).
    pose proof (Rmax_l M (Rmax (currentValue x) (newValue x))).
    pose proof (Rmax_r M (Rmax (currentValue x) (newValue x))).
    pose proof (Rmax_l (currentValue x) (newValue x)).
    pose proof (Rmax_r (currentValue x) (newValue x)).
    assert (Hs1 : (minAge (boundsStep st x) <= minAge st)%Z)
      by (unfold boundsStep; cbn [minAge]; lia).
    assert (Hs2 : (maxAge st <= maxAge (boundsStep st x))%Z)
      by (unfold boundsStep; cbn [maxAge]; lia).
    assert (Hs3 : (minAge (boundsStep st x) <= pointAge x)%Z)
      by (unfold boundsStep; cbn [minAge]; lia).
    assert (Hs4 : (pointAge x <= maxAge (boundsStep st x))%Z)
      by (unfold boundsStep; cbn [maxAge]; lia).
    split; [exact Hm' |]. split; [exact HM' |].
    split; [lra |]. split; [lra |]. split; [lia |]. split; [lia |].
    intros p [<- | Hin].
    + repeat split; try lra; lia.
    + apply Hall, Hin.
Qed.

Lemma chartBounds_finite (data : list SeriesPoint) :
  exists lo hi,
    minY (chartBounds data) = Fin lo
    /\ maxY (chartBounds data) = Fin hi
    /\ lo < hi
    /\ (minX (chartBounds data) <= maxX (chartBounds data))%Z
    /\ forall p, In p data ->
         lo < currentValue p < hi /\ lo < newValue p < hi
         /\ (minX (chartBounds data) <= pointAge p <= maxX (chartBounds data))%Z.
Proof.
  destruct data as [| first rest].
  - exists 0, 1. cbn. repeat split; try lra; try lia; destruct H.
  - unfold chartBounds. cbv zeta.
    set (st0 := mkBoundsState PosInf NegInf (pointAge first)
                  (pointAge (last (first :: rest) first))).
    change (fold_left boundsStep (first :: rest) st0)
      with (fold_left boundsStep rest (boundsStep st0 first)).
    destruct (bounds_fold rest (boundsStep st0 first)
                (Rmin (currentValue first) (newValue first))
                (Rmax (currentValue first) (newValue first)) eq_refl eq_refl)
      as (m & M & Hm & HM & Hlo & Hhi & Hamin & Hamax & Hall).
    set (st := fold_left boundsStep rest (boundsStep st0 first)) in *.
    cbn [minY maxY minX maxX]. rewrite Hm, HM.
    pose proof (Rmin_l (currentValue first) (newValue first)).
    pose proof (Rmin_r (currentValue first) (newValue first)).
    pose proof (Rmax_l (currentValue first) (newValue first)).
    pose proof (Rmax_r (currentValue first) (newValue first)).
    assert (HmM : m <= M) by lra.
    cbn [js_minus js_opp js_plus js_mul js_or].
    assert (Hs3 : (minAge (boundsStep st0 first) <= pointAge first)%Z)
      by (unfold boundsStep; cbn [minAge]; lia).
    assert (Hs4 : (pointAge first <= maxAge (boundsStep st0 first))%Z)
      by (unfold boundsStep; cbn [maxAge]; lia).
    assert (Hpad : exists pad,
               (if Req_dec_T ((M + - m) * 0.08) 0 then Fin 1
                else Fin ((M + - m) * 0.08)) = Fin pad /\ 0 < pad).
    { destruct (Req_dec_T ((M + - m) * 0.08) 0) as [E | N].
      - exists 1. split; [reflexivity | lra].
      - exists ((M + - m) * 0.08). split; [reflexivity | lra]. }
    destruct Hpad as (pad & -> & Hpos).
    cbn [js_plus js_opp].
    exists (m + - pad), (M + pad).
    split; [reflexivity |]. split; [reflexivity |].
    split; [lra |]. split; [lia |].
    intros p [<- | Hin].
    + repeat split; try lra; lia.
    + destruct (Hall p Hin) as (Hc & Hn & Ha). repeat split; try lra; lia.
Qed.

Lemma scaleX_inside (lo hi : Z) (a : Z) :
  (lo <= a <= hi)%Z ->
  paddingLeft <= scaleX lo hi (IZR a) <= paddingLeft + innerWidth.
Proof.
  intros Ha. unfold scaleX. cbv zeta.
  assert (Hw : 0 < innerWidth)
    by (unfold innerWidth, width, paddingLeft, paddingRight; lra).
  destruct (Z.eqb_spec (hi - lo) 0) as [E | N].
  - assert (a = lo) by lia. subst a.
    replace ((IZR lo - IZR lo) / 1 * innerWidth) with 0 by field. lra.
  - assert (Hspan : 0 < IZR (hi - lo)) by (apply IZR_lt; lia).
    assert (H0 : 0 <= IZR a - IZR lo).
    { rewrite <- minus_IZR. apply IZR_le. lia. }
    assert (H1 : IZR a - IZR lo <= IZR (hi - lo)).
    { rewrite <- minus_IZR. apply IZR_le. lia. }
    assert (Hq : 0 <= (IZR a - IZR lo) / IZR (hi - lo) <= 1).
    { split.
      - apply Rmult_le_pos; [exact H0 |]. left. apply Rinv_0_lt_compat, Hspan.
      - apply (Rmult_le_reg_r (IZR (hi - lo))); [exact Hspan |].
        replace ((IZR a - IZR lo) / IZR (hi - lo) * IZR (hi - lo))
          with (IZR a - IZR lo) by (field; lra).
        lra. }
    nra.
Qed.

Lemma scaleY_inside (lo hi v : R) :
  lo < v < hi ->
  paddingTop < scaleY lo hi v < paddingTop + innerHeight.
Proof.
  intros Hv. unfold scaleY. cbv zeta.
  assert (Hh : 0 < innerHeight)
    by (unfold innerHeight, height, paddingTop, paddingBottom; lra).
  destruct (Req_dec_T (hi - lo) 0) as [E | _]; [lra |].
  assert (Hq : 0 < (v - lo) / (hi - lo) < 1).
  { split.
    - apply Rdiv_lt_0_compat; lra.
    - apply (Rmult_lt_reg_r (hi - lo)); [lra |].
      replace ((v - lo) / (hi - lo) * (hi - lo)) with (v - lo) by (field; lra).
      lra. }
  nra.
Qed.

(** X25. The chart keeps its data inside the plot area.  Its vertical
    bounds are finite and strictly enclose both values of every point
    (the padding is never 0), its horizontal bounds enclose every age, and
    [scaleX] and [scaleY] send every point of the data into the rectangle
    between the left padding and left padding + inner width, and strictly
    between the top padding and top padding + inner height. *)
Theorem chart_stays_inside_the_plot_area (data : list SeriesPoint) :
  let bounds := chartBounds data in
  exists lo hi,
    minY bounds = Fin lo /\ maxY bounds = Fin hi /\ lo < hi
    /\ forall p, In p data ->
         lo < currentValue p < hi /\ lo < newValue p < hi
         /\ (minX bounds <= pointAge p <= maxX bounds)%Z
         /\ 64 <= scaleX (minX bounds) (maxX bounds) (IZR (pointAge p)) <= 656
         /\ 24 < scaleY lo hi (currentValue p) < 320
         /\ 24 < scaleY lo hi (newValue p) < 320.
Proof.
  cbv zeta.
  destruct (chartBounds_finite data) as (lo & hi & Hlo & Hhi & Hlt & _ & Hall).
  exists lo, hi. split; [exact Hlo |]. split; [exact Hhi |]. split; [exact Hlt |].
  intros p Hin. destruct (Hall p Hin) as (Hc & Hn & Ha).
  split; [exact Hc |]. split; [exact Hn |]. split; [exact Ha |].
  pose proof (scaleX_inside _ _ _ Ha) as Hx.
  pose proof (scaleY_inside lo hi _ Hc) as Hy1.
  pose proof (scaleY_inside lo hi _ Hn) as Hy2.
  unfold paddingLeft, paddingTop, innerWidth, innerHeight, width, height,
    paddingLeft, paddingRight, paddingTop, paddingBottom in *.
  repeat split; lra.
Qed.

Lemma last_is_final_index {A : Type} (l : list A) (d x : A) :
  nth_error l (length l - 1) = Some x -> last l d = x.
Proof.
  induction l as [| y l IH]; intros H; [discriminate |].
  destruct l as [| z l].
  - cbn in H. injection H as <-. reflexivity.
  - change (last (y :: z :: l) d) with (last (z :: l) d). apply IH.
    cbn [length] in *.
    replace (S (S (length l)) - 1)%nat with (S (length l - 0)) in H by lia.
    cbn [nth_error] in H.
    replace (S (length l) - 1)%nat with (length l - 0)%nat by lia. exact H.
Qed.

(** X26. Fed the series of a decision, the chart's horizontal bounds are
    the client age and the planning age. *)
Theorem chart_spans_the_simulated_ages (input : DecisionInputs) :
  exists decision,
    calculateDecision input = Some decision
    /\ minX (chartBounds (series decision)) = clientAgeOf input
    /\ maxX (chartBounds (series decision)) = resultPlanningAge decision.
Proof.
  destruct (calculateDecision_returns input)
    as (decision & c & w & p & Hres & _ & _ & _ & _ & Hp & Hrow
        & _ & _ & Hss & Hpa & _).
  exists decision. split; [exact Hres |].
  pose proof (yearsOf_pos input) as Hy.
  set (n := Z.to_nat (yearsOf input)) in *.
  destruct (simulate_rows input n 0) as (c0 & w0 & p0 & _ & _ & Hp0 & Hrow0);
    [unfold n; lia |].
  rewrite <- Hss in Hp0.
  destruct Hrow0 as ((Hc0 & _) & _ & (Hpa0 & _)).
  destruct Hrow as ((Hc1 & _) & _ & (Hpa1 & _)).
  assert (Hfirst : pointAge p0 = clientAgeOf input) by (rewrite Hpa0, Hc0; lia).
  assert (Hlast : pointAge p = planningAgeOf input).
  { rewrite Hpa1, Hc1. unfold yearsOf in *. lia. }
  (* the bounds start from the first and the last age and every age lies
     between those two *)
  destruct (series decision) as [| first rest] eqn:Hser; [discriminate |].
  cbn [nth_error] in Hp0. injection Hp0 as ->.
  unfold chartBounds. cbv zeta. cbn [minX maxX].
  set (st0 := mkBoundsState PosInf NegInf (pointAge p0)
                (pointAge (last (p0 :: rest) p0))).
  assert (Hlastp : last (p0 :: rest) p0 = p).
  { assert (Hlen : length (p0 :: rest) = n).
    { rewrite Hss. apply (simulate_lengths input n). }
    assert (Hidx : Z.to_nat (yearsOf input - 1) = (length (p0 :: rest) - 1)%nat)
      by (rewrite Hlen; unfold n; lia).
    rewrite Hidx in Hp.
    apply last_is_final_index. exact Hp. }
  assert (Hin : forall q, In q (p0 :: rest) ->
                  (clientAgeOf input <= pointAge q <= planningAgeOf input)%Z).
  { intros q Hq. rewrite Hss in Hq.
    destruct (series_point_in input n q Hq) as (j & _ & Hj & Hqj & _).
    rewrite Hqj. unfold n, yearsOf in *. lia. }
  assert (Hinv : forall l st,
             (forall q, In q l ->
                (clientAgeOf input <= pointAge q <= planningAgeOf input)%Z) ->
             minAge st = clientAgeOf input -> maxAge st = planningAgeOf input ->
             minAge (fold_left boundsStep l st) = clientAgeOf input
             /\ maxAge (fold_left boundsStep l st) = planningAgeOf input).
  { induction l as [| x l IH]; intros st Hl Hmin Hmax; [split; assumption |].
    cbn [fold_left]. apply IH.
    - intros q Hq. apply Hl. right. exact Hq.
    - unfold boundsStep. cbn [minAge]. rewrite Hmin.
      specialize (Hl x (or_introl eq_refl)). lia.
    - unfold boundsStep. cbn [maxAge]. rewrite Hmax.
      specialize (Hl x (or_introl eq_refl)). lia. }
  destruct (Hinv (p0 :: rest) st0 Hin) as (Hmin & Hmax).
  { unfold st0. cbn [minAge]. exact Hfirst. }
  { unfold st0. cbn [maxAge]. rewrite Hlastp. exact Hlast. }
  rewrite Hpa. split; assumption.
Qed.

End WizardFacts.

(** ** The listing extraction route *)

Module RouteFacts.
Import Ascii RentalVerdict ListingExtractRoute.

Lemma digitValue_nonneg (c : ascii) : 0 <= digitValue c.
Proof. unfold digitValue. apply pos_INR. Qed.

Lemma integerValue_from (ds : list ascii) (acc : R) :
  0 <= acc ->
  0 <= fold_left (fun a c => a * 10 + digitValue c) ds acc.
Proof.
  revert acc. induction ds as [|c ds IH]; intros acc Hacc; simpl.
  - exact Hacc.
  - apply IH. pose proof (digitValue_nonneg c). lra.
Qed.

Lemma integerValue_nonneg (ds : list ascii) : 0 <= integerValue ds.
Proof. unfold integerValue. apply integerValue_from. lra. Qed.

Lemma fractionValue_nonneg (ds : list ascii) : 0 <= fractionValue ds.
Proof.
  induction ds as [|c ds IH]; simpl.
  - lra.
  - pose proof (digitValue_nonneg c). fold (fractionValue ds). lra.
Qed.

Lemma overflowThreshold_pos : 0 < overflowThreshold.
Proof. unfold overflowThreshold. apply IZR_lt. reflexivity. Qed.

(** What [parseFloatNormalized] returns is NaN, [Infinity] or a number
    from 0 up to the overflow threshold. *)
Lemma parseFloatNormalized_range (l : list ascii) :
  match parseFloatNormalized l with
  | Fin v => 0 <= v < overflowThreshold
  | NegInf => False
  | _ => True
  end.
Proof.
  unfold parseFloatNormalized.
  destruct (spanDigits l) as [whole tail].
  set (fraction := match tail with
                   | c :: rest => if isDot c then fst (spanDigits rest) else []
                   | [] => []
                   end).
  pose proof (integerValue_nonneg whole) as Hw.
  pose proof (fractionValue_nonneg fraction) as Hf.
  assert (Hgen : match (if Rle_dec overflowThreshold
                            (integerValue whole + fractionValue fraction)
                        then PosInf
                        else Fin (integerValue whole + fractionValue fraction)) with
                 | Fin v => 0 <= v < overflowThreshold
                 | NegInf => False
                 | _ => True
                 end).
  { destruct (Rle_dec _ _) as [Hle|Hgt]; [exact I|].
    split; [lra | apply Rnot_le_lt, Hgt]. }
  destruct whole, fraction; try exact Hgen. exact I.
Qed.

Lemma parseNumber_normalized (value : list ascii) :
  parseNumber (Some value)
  = match parseFloatNormalized (normalize value) with
    | Fin v => v
    | _ => 0
    end.
Proof.
  destruct value as [|c v]; [reflexivity|]. unfold parseNumber.
  destruct (parseFloatNormalized (normalize (c :: v))); reflexivity.
Qed.

(** X27. [parseNumber] never returns a negative number, NaN or an
    infinity: whatever the text, or without one, its result lies between 0
    and the overflow threshold of a double. *)
Theorem parseNumber_is_finite_and_not_negative (value : option (list ascii)) :
  0 <= parseNumber value < overflowThreshold.
Proof.
  pose proof overflowThreshold_pos as Hpos.
  destruct value as [v|]; [|split; [apply Rle_refl | exact Hpos]].
  rewrite parseNumber_normalized.
  pose proof (parseFloatNormalized_range (normalize v)) as H.
  destruct (parseFloatNormalized (normalize v));
    try (split; [apply Rle_refl | exact Hpos]).
  exact H.
Qed.

Lemma spanDigits_app (ds tail : list ascii) :
  digits ds -> startsWithDot tail ->
  spanDigits (ds ++ tail) = (ds, tail).
Proof.
  intros Hds Htail. induction Hds as [|c ds Hc Hds IH]; simpl.
  - destruct Htail as [->|[rest ->]]; reflexivity.
  - rewrite Hc, IH. reflexivity.
Qed.

Lemma normalize_app (a b : list ascii) : normalize (a ++ b) = normalize a ++ normalize b.
Proof. apply filter_app. Qed.

Lemma normalize_kept (l : list ascii) :
  Forall (fun c => isDigit c || isDot c = true) l -> normalize l = l.
Proof.
  intros H. induction H as [|c l Hc H IH]; simpl; [reflexivity|].
  rewrite Hc, IH. reflexivity.
Qed.

Lemma normalize_idempotent (l : list ascii) : normalize (normalize l) = normalize l.
Proof.
  apply normalize_kept. apply Forall_forall. intros c Hc.
  apply filter_In in Hc. apply Hc.
Qed.

(** X28. [parseNumber] reads a text by its digits alone when it holds no
    dot: currency signs, thousands separators, spaces and a minus sign are
    dropped, the result is the decimal value of the digits that remain, and
    two texts with the same digits give the same number. *)
Theorem parseNumber_reads_grouped_digits (value ds : list ascii) :
  normalize value = ds ->
  digits ds ->
  ds <> [] ->
  integerValue ds < overflowThreshold ->
  parseNumber (Some value) = integerValue ds
  /\ forall other, normalize other = ds -> parseNumber (Some other) = parseNumber (Some value).
Proof.
  intros Hn Hds Hne Hlt.
  assert (Hall : forall v, normalize v = ds -> parseNumber (Some v) = integerValue ds).
  { intros v Hv. rewrite parseNumber_normalized, Hv.
    unfold parseFloatNormalized.
    rewrite <- (app_nil_r ds) at 1.
    rewrite (spanDigits_app ds []); [|exact Hds | left; reflexivity].
    destruct ds as [|c ds']; [contradiction|].
    cbv beta iota. simpl fractionValue.
    destruct (Rle_dec _ _) as [Hle|_]; [lra | apply Rplus_0_r]. }
  split; [apply Hall, Hn|].
  intros other Ho. rewrite (Hall other Ho), (Hall value Hn). reflexivity.
Qed.

Lemma parseNumber_reads_grouped_digits_witness :
  parseNumber (Some ["$"; "1"; ","; "2"; "3"; "4"]%char) = 1234.
Proof.
  destruct (parseNumber_reads_grouped_digits
              ["$"; "1"; ","; "2"; "3"; "4"]%char ["1"; "2"; "3"; "4"]%char) as [H _].
  - reflexivity.
  - repeat constructor.
  - discriminate.
  - apply Rle_lt_trans with (IZR 1234).
    + unfold integerValue, digitValue. simpl. lra.
    + apply IZR_lt. reflexivity.
  - rewrite H. unfold integerValue, digitValue. simpl. lra.
Defined.

(** X29. In a text with a dot, [parseNumber] reads the digits before the
    first dot as the whole part and the digits up to the next dot as the
    fraction; whatever follows a second dot is ignored, and a text whose
    first dot has a digit on neither side gives 0. *)
Theorem parseNumber_stops_at_the_second_dot (value whole fraction tail : list ascii) :
  normalize value = whole ++ "."%char :: fraction ++ tail ->
  digits whole -> digits fraction -> startsWithDot tail ->
  (whole = [] /\ fraction = [] -> parseNumber (Some value) = 0)
  /\ (whole <> [] \/ fraction <> [] ->
      integerValue whole + fractionValue fraction < overflowThreshold ->
      parseNumber (Some value) = integerValue whole + fractionValue fraction).
Proof.
  intros Hn Hw Hf Ht.
  assert (Hparse : parseFloatNormalized (normalize value)
                   = match whole, fraction with
                     | [], [] => NaN
                     | _, _ =>
                         let v := integerValue whole + fractionValue fraction in
                         if Rle_dec overflowThreshold v then PosInf else Fin v
                     end).
  { rewrite Hn. unfold parseFloatNormalized.
    rewrite spanDigits_app; [|exact Hw | right; eexists; reflexivity].
    change (isDot "."%char) with true. cbv beta iota.
    rewrite spanDigits_app; [|exact Hf | exact Ht].
    reflexivity. }
  rewrite parseNumber_normalized, Hparse. split.
  - intros [-> ->]. reflexivity.
  - intros Hne Hlt.
    assert (Hv : (let v := integerValue whole + fractionValue fraction in
                  if Rle_dec overflowThreshold v then PosInf else Fin v)
                 = Fin (integerValue whole + fractionValue fraction)).
    { cbv zeta. destruct (Rle_dec _ _) as [Hle|_]; [lra | reflexivity]. }
    destruct whole as [|c w]; destruct fraction as [|d f];
      try (rewrite Hv; reflexivity).
    destruct Hne as [Hne|Hne]; contradiction.
Qed.

Lemma parseNumber_stops_at_the_second_dot_witness :
  parseNumber (Some ["1"; "."; "2"; "5"; "0"; "."; "0"; "0"; "0"]%char) = 1.25.
Proof.
  destruct (parseNumber_stops_at_the_second_dot
              ["1"; "."; "2"; "5"; "0"; "."; "0"; "0"; "0"]%char
              ["1"]%char ["2"; "5"; "0"]%char ["."; "0"; "0"; "0"]%char) as [_ H].
  - reflexivity.
  - repeat constructor.
  - repeat constructor.
  - right. eexists. reflexivity.
  - rewrite H.
    + unfold integerValue, fractionValue, digitValue. simpl. lra.
    + left. discriminate.
    + apply Rle_lt_trans with (IZR 2).
      * unfold integerValue, fractionValue, digitValue. simpl. lra.
      * apply IZR_lt. reflexivity.
Defined.

Section Handler.

Variable trim : list ascii -> list ascii.
Variable parseRemaxHtml : list ascii -> ParsedListing.

#[local] Abbreviation respond := (POST trim parseRemaxHtml).

(** [x || 0] is never NaN, and is 0 exactly when [x] is falsy. *)
Lemma js_or_zero (x : number) :
  js_or x (Fin 0) <> NaN
  /\ (truthyNumber x = true <-> js_or x (Fin 0) <> Fin 0).
Proof.
  destruct x as [r| | |]; simpl.
  - destruct (Req_dec_T r 0) as [->|Hr].
    + split; [discriminate|]. split; [discriminate | intros H; contradiction H; reflexivity].
    + split; [discriminate|]. split; [|reflexivity].
      intros _ H. injection H as H. contradiction.
  - split; [discriminate|]. split; [discriminate | reflexivity].
  - split; [discriminate|]. split; [discriminate | reflexivity].
  - split; [discriminate|]. split; [discriminate | intros H; contradiction H; reflexivity].
Qed.

(** X30. The handler answers 200 exactly when the trimmed [html] is not
    empty; without it the answer is 400, with the missing-input message
    when the trimmed [url] is empty or absent too and the
    provider-not-configured message otherwise, so the final
    unsupported-request answer is never given.  In a 200 answer the rent
    range is zero, the price is never NaN, its confidence is high exactly
    when the price is not 0 and low otherwise, the confidence of HOA and
    rent range is low and the city is never empty. *)
Theorem POST_answers (body : RequestBody) :
  let url := option_map trim (bodyUrl body) in
  let html := option_map trim (bodyHtml body) in
  let empty := fun (v : option (list ascii)) => v = None \/ v = Some [] in
  (status (respond body) = 200%Z <-> ~ empty html)
  /\ (empty html -> empty url -> respond body = BadRequest MissingUrlOrHtml)
  /\ (empty html -> ~ empty url -> respond body = BadRequest ProviderNotConfigured)
  /\ respond body <> BadRequest UnsupportedRequest
  /\ forall data, respond body = Ok data ->
       median (dataRentRange data) = Fin 0
       /\ dataPrice data <> NaN
       /\ (confPrice (dataConfidence data) = high <-> dataPrice data <> Fin 0)
       /\ (confPrice (dataConfidence data) = low <-> dataPrice data = Fin 0)
       /\ confHoa (dataConfidence data) = low
       /\ confRentRange (dataConfidence data) = low
       /\ dataCity data <> [].
Proof.
  cbv zeta. unfold POST.
  destruct (option_map trim (bodyHtml body)) as [[|ch h]|].
  - (* html is the empty string *)
    assert (He : @Some (list ascii) [] = None \/ @Some (list ascii) [] = Some [])
      by (right; reflexivity).
    destruct (option_map trim (bodyUrl body)) as [[|cu u]|]; cbn [truthyString negb andb].
    all: repeat match goal with |- _ /\ _ => split end.
    all: try discriminate.
    all: try (intros; reflexivity).
    all: try (intros H; contradiction).
    all: try (intros _ H; exfalso; apply H; (left; reflexivity) || (right; reflexivity)).
    all: try (intros _ [H|H]; discriminate).
    all: try (split; [intros H; cbn in H; discriminate | intros H; contradiction]).
  - (* html is not empty *)
    assert (Hne : ~ (Some (ch :: h) = None \/ Some (ch :: h) = Some []))
      by (intros [H|H]; discriminate).
    assert (Hand : forall b, b && negb (truthyString (ch :: h)) = false)
      by (intros []; reflexivity).
    rewrite Hand.
    repeat match goal with |- _ /\ _ => split end.
    all: try discriminate.
    all: try (intros; reflexivity).
    all: try (intros; assumption).
    all: try (intros H; contradiction).
    { split; [intros _; exact Hne | intros _; reflexivity]. }
    intros data Hdata; injection Hdata as <-; cbn.
    pose proof (js_or_zero (parsedPrice (parseRemaxHtml (ch :: h)))) as [Hnan Hz].
    repeat match goal with |- _ /\ _ => split end; try reflexivity; try exact Hnan.
    + destruct (truthyNumber _); split.
      * intros _. apply Hz. reflexivity.
      * reflexivity.
      * discriminate.
      * intros H. apply Hz in H. discriminate.
    + destruct (truthyNumber _); split.
      * discriminate.
      * intros H. exfalso. revert H. apply Hz. reflexivity.
      * intros _. destruct (js_or _ _) as [r| | |] eqn:E;
          try (exfalso; apply Hnan; reflexivity).
        -- destruct (Req_dec_T r 0) as [->|Hr]; [reflexivity|].
           assert (Hf : Fin r <> Fin 0) by (intros Hf; injection Hf as Hf; contradiction).
           apply Hz in Hf. discriminate.
        -- assert (Hf : PosInf <> Fin 0) by discriminate. apply Hz in Hf. discriminate.
        -- assert (Hf : NegInf <> Fin 0) by discriminate. apply Hz in Hf. discriminate.
      * reflexivity.
    + destruct (parsedCity _); discriminate.
  - (* html is absent *)
    assert (He : @None (list ascii) = None \/ @None (list ascii) = Some [])
      by (left; reflexivity).
    destruct (option_map trim (bodyUrl body)) as [[|cu u]|]; cbn [truthyString negb andb].
    all: repeat match goal with |- _ /\ _ => split end.
    all: try discriminate.
    all: try (intros; reflexivity).
    all: try (intros H; contradiction).
    all: try (intros _ H; exfalso; apply H; (left; reflexivity) || (right; reflexivity)).
    all: try (intros _ [H|H]; discriminate).
    all: try (split; [intros H; cbn in H; discriminate | intros H; contradiction]).
Qed.

End Handler.

End RouteFacts.
